(** * RealtimeStatusUpdatrs: the order store, the status simulator,
      the push fan-out and the REST handlers, embedded in Rocq.

    Sources embedded here:
    - [MemStorage]            (server/storage.ts, shipped in src/demo-setup.js)
    - [MockKafkaService]      (src/server/services/mock-kafka.ts)
    - the three route tables  (src/server/routes.ts)
    - the schema constants    (shared/schema.ts)

    Conventions of the embedding:
    - a JavaScript [Map] whose iteration order is observed (the orders) is
      an insertion-ordered association list; the two log maps, which are
      only read by key, are [gmap]s;
    - [new Date()] and [Math.random()] are reads of an environment that is
      part of the [World]: the k-th clock read returns [clock w k];
    - [await]ed store calls are sequenced in a state monad [M]: the store is
      in-process and no other handler runs between the calls of one
      operation in the statements below;
    - object literals used as lookup tables ([statusProgression],
      [titles], [descriptions]) are read as the language reads them: at
      their own keys first, then along the prototype chain, where every
      property name of [Object.prototype] is found;
    - the [status] of a request body is absent or a string;
    - the one call that can throw, [broadcastToClients] on a service that
      was handed a function in place of a [WebSocketServer], returns a
      [Completion]; the store calls made before it stay made;
    - the interval timer is not part of the model: [simulateOrderUpdate] is
      one firing of it. *)

From Stdlib Require Import ZArith List Lia Sorted Permutation DecimalString Ascii.
From stdpp Require Import gmap strings list fin_maps.

Local Open Scope string_scope.
Local Open Scope Z_scope.

(** ** Values *)

(** A slot that TypeScript types as [string] but that is filled from
    [req.body] (of type [any]) or from a lookup in an object literal: it
    holds a string, [undefined], or [inherited key], the value of
    [Object.prototype[key]] that the lookup finds on the prototype chain (a
    built-in function, or [Object.prototype] itself for [__proto__]). *)
Inductive tsstring : Type :=
| undefined
| str (s : string)
| inherited (key : string).

#[global] Instance tsstring_eq_dec : EqDecision tsstring.
Proof. solve_decision. Defined.

(** The property names of [Object.prototype]. *)
Definition objectPrototype : list string :=
  ["constructor"; "toString"; "toLocaleString"; "valueOf"; "hasOwnProperty";
   "isPrototypeOf"; "propertyIsEnumerable"; "__proto__"; "__defineGetter__";
   "__defineSetter__"; "__lookupGetter__"; "__lookupSetter__"].

(** [String(v)], the coercion of template literals and property keys. A
    built-in function prints as its native source text, [Object.prototype]
    as an object; [Object.prototype.constructor] is the function
    [Object]. *)
Definition toString (v : tsstring) : string :=
  match v with
  | undefined => "undefined"
  | str s => s
  | inherited key =>
      if String.eqb key "__proto__" then "[object Object]"
      else "function "
           ++ (if String.eqb key "constructor" then "Object" else key)
           ++ "() { [native code] }"
  end.

(** JavaScript truthiness of such a slot: [undefined] and the empty string
    are falsy, functions and objects are truthy. *)
Definition truthy (v : tsstring) : bool :=
  match v with
  | undefined => false
  | str s => negb (String.eqb s "")
  | inherited _ => true
  end.

(** ** shared/schema.ts *)

Module OrderStatus.
Definition PENDING := "pending".
Definition CONFIRMED := "confirmed".
Definition PROCESSING := "processing".
Definition SHIPPED := "shipped".
Definition DELIVERED := "delivered".
Definition CANCELLED := "cancelled".
End OrderStatus.

Module MessageType.
Definition STATUS_UPDATE := "status_update".
Definition INFO := "info".
Definition WARNING := "warning".
Definition ERROR := "error".
End MessageType.

(** [typeof orders.$inferSelect] *)
Record Order : Type := mkOrder {
  id : Z;
  orderId : string;
  customerId : string;
  customerName : string;
  totalAmount : string;
  itemCount : Z;
  status : tsstring;
  createdAt : Z;
  updatedAt : Z
}.

(** [z.infer<typeof insertOrderSchema>]: the order without [id],
    [createdAt] and [updatedAt]. *)
Record InsertOrder : Type := mkInsertOrder {
  ins_orderId : string;
  ins_customerId : string;
  ins_customerName : string;
  ins_totalAmount : string;
  ins_itemCount : Z;
  ins_status : string
}.

(** [Partial<InsertOrder>]: [None] is a key that the object does not have;
    the status key, when present, carries whatever the caller put there. *)
Record PartialInsertOrder : Type := mkPartial {
  upd_orderId : option string;
  upd_customerId : option string;
  upd_customerName : option string;
  upd_totalAmount : option string;
  upd_itemCount : option Z;
  upd_status : option tsstring
}.

Definition noUpdates : PartialInsertOrder :=
  mkPartial None None None None None None.

(** The object literal [{ status: newStatus }]. *)
Definition statusOnly (newStatus : tsstring) : PartialInsertOrder :=
  mkPartial None None None None None (Some newStatus).

(** The [jsonb] bag of a message: the keys the services write are flags. *)
Definition Metadata : Type := list (string * bool).

Record OrderMessage : Type := mkMessage {
  msg_id : Z;
  msg_orderId : string;
  messageType : string;
  content : string;
  msg_timestamp : Z;
  metadata : option Metadata
}.

Record InsertOrderMessage : Type := mkInsertMessage {
  im_orderId : string;
  im_messageType : string;
  im_content : string;
  im_metadata : option Metadata
}.

Record OrderStatusHistory : Type := mkHistory {
  hist_id : Z;
  hist_orderId : string;
  hist_status : tsstring;
  title : tsstring;
  description : tsstring;
  operator : string;
  duration : option string;
  hist_timestamp : Z
}.

Record InsertOrderStatusHistory : Type := mkInsertHistory {
  ih_orderId : string;
  ih_status : tsstring;
  ih_title : tsstring;
  ih_description : tsstring;
  ih_operator : string;
  ih_duration : option string
}.

(** ** An insertion-ordered JavaScript [Map] with string keys *)

Section JsMap.
Context {V : Type}.

Definition JsMap : Type := list (string * V).

Fixpoint map_get (k : string) (m : list (string * V)) : option V :=
  match m with
  | [] => None
  | (k', v) :: rest => if String.eqb k k' then Some v else map_get k rest
  end.

(** [Map.prototype.set]: an existing key keeps its position, a new key
    goes last. *)
Fixpoint map_set (k : string) (v : V) (m : list (string * V))
  : list (string * V) :=
  match m with
  | [] => [(k, v)]
  | (k', v') :: rest =>
      if String.eqb k k' then (k, v) :: rest
      else (k', v') :: map_set k v rest
  end.

Fixpoint map_delete (k : string) (m : list (string * V))
  : list (string * V) :=
  match m with
  | [] => []
  | (k', v') :: rest =>
      if String.eqb k k' then rest else (k', v') :: map_delete k rest
  end.

(** [Array.from(m.values())] *)
Definition map_values (m : list (string * V)) : list V := map snd m.

Definition map_keys (m : list (string * V)) : list string := map fst m.
End JsMap.

Arguments JsMap V : clear implicits.

(** ** [Array.prototype.sort] and [Array.prototype.slice] *)

Section JsArray.
Context {A : Type}.

(** [cmp a b] is the number returned by the comparator: [a] goes after
    [b] only when it is positive. *)
Fixpoint sort_insert (cmp : A -> A -> Z) (x : A) (l : list A) : list A :=
  match l with
  | [] => [x]
  | y :: rest =>
      if cmp x y <=? 0 then x :: y :: rest
      else y :: sort_insert cmp x rest
  end.

(** The sort of the language is stable; a stable sort is determined by
    its comparator, here as an insertion sort. *)
Fixpoint js_sort (cmp : A -> A -> Z) (l : list A) : list A :=
  match l with
  | [] => []
  | x :: rest => sort_insert cmp x (js_sort cmp rest)
  end.

(** [l.slice(0, e)]: a negative end counts from the back. *)
Definition slice0 (l : list A) (e : Z) : list A :=
  let len := Z.of_nat (length l) in
  let stop := if e <? 0 then Z.max (len + e) 0 else Z.min e len in
  firstn (Z.to_nat stop) l.
End JsArray.

(** ** The world: store, environment and transport *)

Record MemStorage : Type := mkStorage {
  orders : JsMap Order;
  messages : gmap string (list OrderMessage);
  statusHistory : gmap string (list OrderStatusHistory);
  currentId : Z
}.

(** [new MemStorage()] *)
Definition newMemStorage : MemStorage := mkStorage [] ∅ ∅ 1.

(** The payloads handed to the push transport, by their [type] field. *)
Inductive PushMessage : Type :=
| order_update (data : Order)
| connection_status (connected : bool) (timestamp : Z)
                    (client : string) (subscribedTo : string)
| message_update (forOrder : string) (text : string).

Inductive ReadyState : Type := CONNECTING | OPEN | CLOSING | CLOSED.

(** A socket of [wss.clients] with what was sent on it, oldest first. *)
Record WebSocket : Type := mkSocket {
  readyState : ReadyState;
  sent : list PushMessage
}.

(** What [initialize] is handed and [this.wss] then holds: the WebSocket
    table passes a [WebSocketServer], whose [clients] are its sockets; the
    two server-sent-event tables pass an arrow function, which has no
    [clients]. *)
Inductive Transport : Type :=
| SocketServer (clients : list WebSocket)
| BroadcastFn.

(** How a call ends: it returns, or it throws the [TypeError] of reading
    [forEach] of [undefined]. *)
Inductive Completion : Type := returns | throws.

Record World : Type := mkWorld {
  storage : MemStorage;
  wss : option Transport;
  isConnected : bool;
  clock : nat -> Z;      (* the value of the k-th [new Date()] *)
  reads : nat;           (* clock reads made so far *)
  random : nat -> nat;   (* the k-th [Math.random()] draw *)
  draws : nat            (* draws made so far *)
}.

Definition set_storage (s : MemStorage) (w : World) : World :=
  mkWorld s (wss w) (isConnected w) (clock w) (reads w) (random w) (draws w).

Definition set_wss (c : option Transport) (w : World) : World :=
  mkWorld (storage w) c (isConnected w) (clock w) (reads w) (random w)
          (draws w).

Definition set_orders (o : JsMap Order) (s : MemStorage) : MemStorage :=
  mkStorage o (messages s) (statusHistory s) (currentId s).

Definition set_messages (m : gmap string (list OrderMessage))
  (s : MemStorage) : MemStorage :=
  mkStorage (orders s) m (statusHistory s) (currentId s).

Definition set_statusHistory (h : gmap string (list OrderStatusHistory))
  (s : MemStorage) : MemStorage :=
  mkStorage (orders s) (messages s) h (currentId s).

(** ** The monad of the handlers *)

Definition M (A : Type) : Type := World -> A * World.

Definition ret {A} (a : A) : M A := fun w => (a, w).

Definition bind {A B} (c : M A) (k : A -> M B) : M B :=
  fun w => let (a, w') := c w in k a w'.

Notation "x <- c ;; k" := (bind c (fun x => k))
  (at level 100, c at next level, right associativity).
Notation "c ;;; k" := (bind c (fun _ => k))
  (at level 100, right associativity).

Definition result {A} (c : M A) (w : World) : A := fst (c w).
Definition after {A} (c : M A) (w : World) : World := snd (c w).

(** [new Date()] (as [getTime()] milliseconds) *)
Definition newDate : M Z :=
  fun w => (clock w (reads w),
            mkWorld (storage w) (wss w) (isConnected w) (clock w)
                    (S (reads w)) (random w) (draws w)).

(** [Math.floor(Math.random() * n)]: the draw of the environment, brought
    below [n]; every index below [n] can come out, and no other. *)
Definition randomIndex (n : nat) : M nat :=
  fun w => ((random w (draws w) mod n)%nat,
            mkWorld (storage w) (wss w) (isConnected w) (clock w)
                    (reads w) (random w) (S (draws w))).

Definition getStorage : M MemStorage := fun w => (storage w, w).

Definition putStorage (s : MemStorage) : M unit :=
  fun w => (tt, set_storage s w).

(** [this.currentId++] *)
Definition nextId : M Z :=
  s <- getStorage ;;
  putStorage (mkStorage (orders s) (messages s) (statusHistory s)
                        (currentId s + 1)) ;;;
  ret (currentId s).

(** ** MemStorage *)

Definition getOrder (oid : string) : M (option Order) :=
  s <- getStorage ;; ret (map_get oid (orders s)).

Definition createOrder (insertOrder : InsertOrder) : M Order :=
  i <- nextId ;;
  created <- newDate ;;
  updated <- newDate ;;
  let order := {|
    id := i;
    orderId := ins_orderId insertOrder;
    customerId := ins_customerId insertOrder;
    customerName := ins_customerName insertOrder;
    totalAmount := ins_totalAmount insertOrder;
    itemCount := ins_itemCount insertOrder;
    status := str (ins_status insertOrder);
    createdAt := created;
    updatedAt := updated |} in
  s <- getStorage ;;
  putStorage (set_orders (map_set (ins_orderId insertOrder) order (orders s)) s) ;;;
  ret order.

(** [{ ...order, ...updates, updatedAt }] *)
Definition merge (order : Order) (updates : PartialInsertOrder)
  (now : Z) : Order := {|
  id := id order;
  orderId := default (orderId order) (upd_orderId updates);
  customerId := default (customerId order) (upd_customerId updates);
  customerName := default (customerName order) (upd_customerName updates);
  totalAmount := default (totalAmount order) (upd_totalAmount updates);
  itemCount := default (itemCount order) (upd_itemCount updates);
  status := default (status order) (upd_status updates);
  createdAt := createdAt order;
  updatedAt := now |}.

Definition updateOrder (oid : string) (updates : PartialInsertOrder)
  : M (option Order) :=
  s <- getStorage ;;
  match map_get oid (orders s) with
  | None => ret None
  | Some order =>
      now <- newDate ;;
      let updatedOrder := merge order updates now in
      s <- getStorage ;;
      putStorage (set_orders (map_set oid updatedOrder (orders s)) s) ;;;
      ret (Some updatedOrder)
  end.

Definition byUpdatedAtDesc (a b : Order) : Z := updatedAt b - updatedAt a.

(** [limit = 10] applies when the argument is missing. *)
Definition getRecentOrders (limit : option Z) : M (list Order) :=
  s <- getStorage ;;
  let allOrders := map_values (orders s) in
  ret (slice0 (js_sort byUpdatedAtDesc allOrders) (default 10 limit)).

Definition getOrderMessages (oid : string) : M (list OrderMessage) :=
  s <- getStorage ;; ret (default [] (messages s !! oid)).

Definition addOrderMessage (insertMessage : InsertOrderMessage)
  : M OrderMessage :=
  i <- nextId ;;
  now <- newDate ;;
  let message := {|
    msg_id := i;
    msg_orderId := im_orderId insertMessage;
    messageType := im_messageType insertMessage;
    content := im_content insertMessage;
    msg_timestamp := now;
    metadata := im_metadata insertMessage |} in
  s <- getStorage ;;
  let orderMessages := default [] (messages s !! im_orderId insertMessage) in
  putStorage (set_messages
                (<[im_orderId insertMessage := (orderMessages ++ [message])%list]>
                   (messages s)) s) ;;;
  ret message.

Definition clearOrderMessages (oid : string) : M unit :=
  s <- getStorage ;;
  putStorage (set_messages (delete oid (messages s)) s).

Definition getOrderStatusHistory (oid : string)
  : M (list OrderStatusHistory) :=
  s <- getStorage ;; ret (default [] (statusHistory s !! oid)).

(** [insertHistory.duration || null]: the empty label is dropped too. *)
Definition orNull (d : option string) : option string :=
  match d with
  | Some s => if String.eqb s "" then None else Some s
  | None => None
  end.

Definition addOrderStatusHistory (insertHistory : InsertOrderStatusHistory)
  : M OrderStatusHistory :=
  i <- nextId ;;
  now <- newDate ;;
  let history := {|
    hist_id := i;
    hist_orderId := ih_orderId insertHistory;
    hist_status := ih_status insertHistory;
    title := ih_title insertHistory;
    description := ih_description insertHistory;
    operator := ih_operator insertHistory;
    duration := orNull (ih_duration insertHistory);
    hist_timestamp := now |} in
  s <- getStorage ;;
  let orderHistory := default [] (statusHistory s !! ih_orderId insertHistory) in
  putStorage (set_statusHistory
                (<[ih_orderId insertHistory := (orderHistory ++ [history])%list]>
                   (statusHistory s)) s) ;;;
  ret history.

(** ** MockKafkaService (services/mock-kafka.ts) *)

Definition sampleOrders : list string :=
  ["ORD-2024-001"; "ORD-2024-002"; "ORD-2024-003"].

Definition statusProgression : gmap string string :=
  list_to_map
    [("pending", "confirmed");
     ("confirmed", "processing");
     ("processing", "shipped");
     ("shipped", "delivered")].

Definition titles : gmap string string :=
  list_to_map
    [(OrderStatus.PENDING, "Order Placed");
     (OrderStatus.CONFIRMED, "Order Confirmed");
     (OrderStatus.PROCESSING, "Processing");
     (OrderStatus.SHIPPED, "Shipped");
     (OrderStatus.DELIVERED, "Delivered");
     (OrderStatus.CANCELLED, "Cancelled")].

Definition descriptions : gmap string string :=
  list_to_map
    [(OrderStatus.PENDING,
      "Your order has been placed and is awaiting confirmation.");
     (OrderStatus.CONFIRMED,
      "Your order has been confirmed and is being prepared for processing.");
     (OrderStatus.PROCESSING,
      "Items are being prepared and packaged for shipment.");
     (OrderStatus.SHIPPED,
      "Your order has been shipped and is on its way.");
     (OrderStatus.DELIVERED,
      "Your order has been delivered successfully.");
     (OrderStatus.CANCELLED,
      "Your order has been cancelled.")].

(** [table[key]] on an object literal whose values are strings: the own
    property if there is one, else what [Object.prototype] has under that
    name, else [undefined]. The key is coerced to a string. *)
Definition readProperty (table : gmap string string) (key : tsstring)
  : tsstring :=
  match table !! toString key with
  | Some value => str value
  | None =>
      if bool_decide (toString key ∈ objectPrototype)
      then inherited (toString key)
      else undefined
  end.

(** [a || b] *)
Definition orElse (a b : tsstring) : tsstring := if truthy a then a else b.

Definition getStatusTitle (st : tsstring) : tsstring :=
  orElse (readProperty titles st) (str "Status Update").

Definition getStatusDescription (st : tsstring) : tsstring :=
  orElse (readProperty descriptions st) (str "Status has been updated.").

Definition durations : list string := ["2m"; "5m"; "15m"; "30m"; "1h"; "2h"].

Definition getRandomDuration : M (option string) :=
  i <- randomIndex (length durations) ;;
  ret (durations !! i).

Definition send (message : PushMessage) (client : WebSocket) : WebSocket :=
  mkSocket (readyState client) (sent client ++ [message])%list.

(** [clients.forEach(client => { if (client.readyState === OPEN) ... })] *)
Definition sendToOpen (message : PushMessage) (clients : list WebSocket)
  : list WebSocket :=
  map (fun client =>
         match readyState client with
         | OPEN => send message client
         | _ => client
         end) clients.

(** What a broadcast leaves of [this.wss]. *)
Definition deliver (message : PushMessage) (transport : Transport)
  : Transport :=
  match transport with
  | SocketServer clients => SocketServer (sendToOpen message clients)
  | BroadcastFn => BroadcastFn
  end.

(** [if (!this.wss) return; this.wss.clients.forEach(...)]: on a function
    [this.wss.clients] is [undefined] and the call throws. *)
Definition broadcastToClients (message : PushMessage) : M Completion :=
  fun w =>
    match wss w with
    | None => (returns, w)
    | Some (SocketServer clients) =>
        (returns, set_wss (Some (SocketServer (sendToOpen message clients))) w)
    | Some BroadcastFn => (throws, w)
    end.

(** How a broadcast ends in [w]. *)
Definition ending (w : World) : Completion :=
  match wss w with
  | Some BroadcastFn => throws
  | _ => returns
  end.

Definition getConnectionStatus : M bool := fun w => (isConnected w, w).

(** One firing of the interval timer. The body is in a [try] whose
    [catch] only logs, so the firing returns even when the broadcast
    throws. *)
Definition simulateOrderUpdate : M unit :=
  i <- randomIndex (length sampleOrders) ;;
  match sampleOrders !! i with
  | None => ret tt
  | Some randomOrderId =>
      currentOrder <- getOrder randomOrderId ;;
      match currentOrder with
      | None => ret tt
      | Some current =>
          let newStatus := readProperty statusProgression (status current) in
          if truthy newStatus then
            updatedOrder <- updateOrder randomOrderId (statusOnly newStatus) ;;
            match updatedOrder with
            | None => ret tt
            | Some updated =>
                d <- getRandomDuration ;;
                addOrderStatusHistory {|
                  ih_orderId := randomOrderId;
                  ih_status := newStatus;
                  ih_title := getStatusTitle newStatus;
                  ih_description := getStatusDescription newStatus;
                  ih_operator := "System";
                  ih_duration := d |} ;;;
                addOrderMessage {|
                  im_orderId := randomOrderId;
                  im_messageType := MessageType.STATUS_UPDATE;
                  im_content :=
                    ("Order status updated to " ++ toString newStatus)%string;
                  im_metadata := Some [("simulatedUpdate", true)] |} ;;;
                broadcastToClients (order_update updated) ;;;
                ret tt
            end
          else ret tt
      end
  end.

(** The manual trigger. Nothing catches what the broadcast throws: the
    call ends as the broadcast does. *)
Definition triggerOrderUpdate (oid : string) (newStatus : tsstring)
  : M Completion :=
  order <- updateOrder oid (statusOnly newStatus) ;;
  match order with
  | None => ret returns
  | Some updated =>
      d <- getRandomDuration ;;
      addOrderStatusHistory {|
        ih_orderId := oid;
        ih_status := newStatus;
        ih_title := getStatusTitle newStatus;
        ih_description := getStatusDescription newStatus;
        ih_operator := "Manual";
        ih_duration := d |} ;;;
      addOrderMessage {|
        im_orderId := oid;
        im_messageType := MessageType.STATUS_UPDATE;
        im_content :=
          ("Order status manually updated to " ++ toString newStatus)%string;
        im_metadata := Some [("manualUpdate", true)] |} ;;;
      broadcastToClients (order_update updated)
  end.

(** ** REST handlers (routes.ts) *)

Inductive Json : Type :=
| json_error (error : string)
| json_order (o : Order)
| json_orders (l : list Order)
| json_messages (l : list OrderMessage)
| json_history (l : list OrderStatusHistory)
| json_success (message : option string).

Record HttpResponse : Type := mkResponse {
  statusCode : Z;
  body : Json
}.

(** [res.json(b)] answers 200. *)
Definition json (b : Json) : HttpResponse := mkResponse 200 b.

(** [GET /api/orders/:orderId] *)
Definition route_getOrder (oid : string) : M HttpResponse :=
  order <- getOrder oid ;;
  match order with
  | None => ret (mkResponse 404 (json_error "Order not found"))
  | Some o => ret (json (json_order o))
  end.

(** [GET /api/orders]: [parsed] is [parseInt(req.query.limit)], [None]
    when it is [NaN]; [|| 10] also replaces a zero. *)
Definition route_getOrders (parsed : option Z) : M HttpResponse :=
  let limit := match parsed with
               | Some n => if n =? 0 then 10 else n
               | None => 10
               end in
  recent <- getRecentOrders (Some limit) ;;
  ret (json (json_orders recent)).

(** [POST /api/orders]: [parsed] is the outcome of
    [insertOrderSchema.parse(req.body)], [None] when it throws. *)
Definition route_createOrder (parsed : option InsertOrder) : M HttpResponse :=
  match parsed with
  | None => ret (mkResponse 400 (json_error "Invalid order data"))
  | Some validatedData =>
      order <- createOrder validatedData ;;
      ret (json (json_order order))
  end.

(** [DELETE /api/orders/:orderId/messages] *)
Definition route_clearMessages (oid : string) : M HttpResponse :=
  clearOrderMessages oid ;;;
  ret (json (json_success None)).

(** [POST /api/orders/:orderId/trigger-update] of the two server-sent-event
    route tables: [st] is [req.body.status]. The handler is in a [try]
    whose [catch] answers 500. *)
Definition route_triggerUpdate_sse (oid : string) (st : tsstring)
  : M HttpResponse :=
  ended <- triggerOrderUpdate oid st ;;
  match ended with
  | returns => ret (json (json_success (Some "Order update triggered")))
  | throws => ret (mkResponse 500 (json_error "Failed to trigger update"))
  end.

(** The same route in the WebSocket route table. *)
Definition route_triggerUpdate_ws (oid : string) (st : tsstring)
  : M HttpResponse :=
  if negb (truthy st) then
    ret (mkResponse 400 (json_error "Status is required"))
  else
    ended <- triggerOrderUpdate oid st ;;
    match ended with
    | returns =>
        ret (json (json_success
                     (Some ("Order " ++ oid ++ " updated to "
                            ++ toString st)%string)))
    | throws =>
        ret (mkResponse 500 (json_error "Failed to trigger order update"))
    end.

(** ** The targeted server-sent-event fan-out (second route table) *)

(** The response stream of a client: [write] throws when the stream is
    broken, otherwise the chunk is on the wire. *)
Record Response : Type := mkStream {
  writable : bool;
  written : list PushMessage
}.

Record SSEClient : Type := mkClient {
  response : Response;
  subscribedOrders : gset string;
  clientId : string
}.

Definition write (message : PushMessage) (client : SSEClient) : SSEClient :=
  mkClient (mkStream (writable (response client))
                     (written (response client) ++ [message])%list)
           (subscribedOrders client) (clientId client).

(** The body of both [forEach] callbacks: [try { write } catch { delete }]
    on the entry stored under [key]. *)
Definition tryWrite (message : PushMessage) (key : string)
  (client : SSEClient) (sseClients : JsMap SSEClient) : JsMap SSEClient :=
  if writable (response client) then map_set key (write message client) sseClients
  else map_delete (clientId client) sseClients.

(** The callback given to [mockKafkaService.initialize]. [forEach] visits
    the entries present when it starts; a callback removes at most the
    entry it is visiting. *)
Definition sseBroadcast (message : PushMessage)
  (sseClients : JsMap SSEClient) : JsMap SSEClient :=
  match message with
  | order_update data =>
      foldl (fun clients '(key, client) =>
               if decide (orderId data ∈ subscribedOrders client)
               then tryWrite message key client clients
               else clients)
            sseClients sseClients
  | _ =>
      foldl (fun clients '(key, client) => tryWrite message key client clients)
            sseClients sseClients
  end.

(** [orderId || 'all_orders'] *)
Definition subscribedToLabel (oid : tsstring) : string :=
  if truthy oid then toString oid else "all_orders".

(** [GET /api/events?orderId=]: [oid] is [req.query.orderId], [cid] the
    generated client id, [res] the fresh response, [connected] and [now]
    the values of [getConnectionStatus()] and of the clock. *)
Definition route_events (oid : tsstring) (cid : string) (res : Response)
  (connected : bool) (now : Z) (sseClients : JsMap SSEClient)
  : JsMap SSEClient :=
  let client := {|
    response := res;
    subscribedOrders := if truthy oid then {[ toString oid ]} else ∅;
    clientId := cid |} in
  let clients := map_set cid client sseClients in
  if writable res then
    map_set cid
      (write (connection_status connected now cid (subscribedToLabel oid)) client)
      clients
  else map_delete cid clients.

(** The [close] and [error] listeners. *)
Definition disconnect (cid : string) (sseClients : JsMap SSEClient)
  : JsMap SSEClient := map_delete cid sseClients.

Definition addSubscription (oid : string) (client : SSEClient) : SSEClient :=
  mkClient (response client) ({[ oid ]} ∪ subscribedOrders client)
           (clientId client).

Definition dropSubscription (oid : string) (client : SSEClient) : SSEClient :=
  mkClient (response client) (subscribedOrders client ∖ {[ oid ]})
           (clientId client).

(** [POST /api/events/subscribe] with body [{clientId, orderId}] *)
Definition route_subscribe (cid oid : tsstring)
  (sseClients : JsMap SSEClient) : HttpResponse * JsMap SSEClient :=
  if negb (truthy cid) || negb (truthy oid) then
    (mkResponse 400 (json_error "clientId and orderId required"), sseClients)
  else
    match map_get (toString cid) sseClients with
    | None => (mkResponse 404 (json_error "Client not found"), sseClients)
    | Some client =>
        (json (json_success
                 (Some ("Subscribed to order " ++ toString oid)%string)),
         map_set (toString cid) (addSubscription (toString oid) client)
                 sseClients)
    end.

(** [POST /api/events/unsubscribe] *)
Definition route_unsubscribe (cid oid : tsstring)
  (sseClients : JsMap SSEClient) : HttpResponse * JsMap SSEClient :=
  if negb (truthy cid) || negb (truthy oid) then
    (mkResponse 400 (json_error "clientId and orderId required"), sseClients)
  else
    match map_get (toString cid) sseClients with
    | None => (mkResponse 404 (json_error "Client not found"), sseClients)
    | Some client =>
        (json (json_success
                 (Some ("Unsubscribed from order " ++ toString oid)%string)),
         map_set (toString cid) (dropSubscription (toString oid) client)
                 sseClients)
    end.

(** The messages a client has on the wire. *)
Definition received (cid : string) (sseClients : JsMap SSEClient)
  : option (list PushMessage) :=
  (fun c => written (response c)) <$> map_get cid sseClients.

(** ** The untargeted fan-out (first route table) *)

(** [sseClients] is a [Set<Response>]; every message is written to every
    stream, and a stream whose [write] throws is dropped from the set. *)
Definition sseBroadcastAll (message : PushMessage) (sseClients : list Response)
  : list Response :=
  omap (fun res =>
          if writable res
          then Some (mkStream (writable res) (written res ++ [message])%list)
          else None)
       sseClients.

(** ** Runs of the server *)

(** The world at start-up: an empty store, no transport attached. *)
Definition initWorld (clk : nat -> Z) (rnd : nat -> nat) : World :=
  mkWorld newMemStorage None false clk 0%nat rnd 0%nat.

(** What can happen to the store: a store call made by a handler, a firing
    of the simulator or a manual trigger. *)
Inductive Op : Type :=
| CreateOrder (insertOrder : InsertOrder)
| UpdateOrder (oid : string) (updates : PartialInsertOrder)
| AddOrderMessage (insertMessage : InsertOrderMessage)
| ClearOrderMessages (oid : string)
| AddOrderStatusHistory (insertHistory : InsertOrderStatusHistory)
| Tick
| Trigger (oid : string) (newStatus : tsstring).

Definition perform (op : Op) : M unit :=
  match op with
  | CreateOrder insertOrder => createOrder insertOrder ;;; ret tt
  | UpdateOrder oid updates => updateOrder oid updates ;;; ret tt
  | AddOrderMessage insertMessage => addOrderMessage insertMessage ;;; ret tt
  | ClearOrderMessages oid => clearOrderMessages oid
  | AddOrderStatusHistory insertHistory =>
      addOrderStatusHistory insertHistory ;;; ret tt
  | Tick => simulateOrderUpdate
  | Trigger oid newStatus => triggerOrderUpdate oid newStatus ;;; ret tt
  end.

Fixpoint run (ops : list Op) : M unit :=
  match ops with
  | [] => ret tt
  | op :: rest => perform op ;;; run rest
  end.

Definition clears (op : Op) : bool :=
  match op with
  | ClearOrderMessages _ => true
  | _ => false
  end.

(** The clock of the environment does not run backwards. *)
Definition clock_monotone (w : World) : Prop :=
  forall i j : nat, (i <= j)%nat -> clock w i <= clock w j.

(** Every stored order carries an id that the counter has passed. *)
Definition ids_below (w : World) : Prop :=
  forall k o, In (k, o) (orders (storage w)) -> id o < currentId (storage w).

(** No stored order is stamped later than the next clock reading. *)
Definition stamps_past (w : World) : Prop :=
  forall k o, In (k, o) (orders (storage w)) ->
              updatedAt o <= clock w (reads w).

Definition consistent (w : World) : Prop :=
  clock_monotone w /\ ids_below w /\ stamps_past w.

(** The two logs of an order, as the store returns them. *)
Definition messagesOf (oid : string) (w : World) : list OrderMessage :=
  result (getOrderMessages oid) w.

Definition historyOf (oid : string) (w : World) : list OrderStatusHistory :=
  result (getOrderStatusHistory oid) w.

Definition orderOf (oid : string) (w : World) : option Order :=
  result (getOrder oid) w.

(** Both logs of every order in [w'] extend those in [w]. *)
Definition logs_extend (w w' : World) : Prop :=
  forall oid,
    (exists more, messagesOf oid w' = messagesOf oid w ++ more)%list /\
    (exists more, historyOf oid w' = historyOf oid w ++ more)%list.

(** [c] relates every world to the one it leaves behind. *)
Definition steps (R : World -> World -> Prop) {A} (c : M A) : Prop :=
  forall w, R w (after c w).

(** The relation of a preserved invariant. *)
Definition keeps (P : World -> Prop) (w w' : World) : Prop := P w -> P w'.

(** The order the next firing of the simulator picks. *)
Definition tickTarget (w : World) : option string :=
  sampleOrders !! (random w (draws w) mod length sampleOrders)%nat.

Definition newestFirst (a b : Order) : Prop := updatedAt b <= updatedAt a.

(** The client map of the fan-out is a map: one entry per key, and every
    client is stored under its own id. *)
Definition clients_wf (sseClients : JsMap SSEClient) : Prop :=
  NoDup (map_keys sseClients) /\
  forall key client, In (key, client) sseClients -> clientId client = key.

(** What [sseBroadcast] does to one client for an [order_update]. *)
Definition targeted (message : PushMessage) (orderOfEvent : string)
  (client : SSEClient) : option SSEClient :=
  if decide (orderOfEvent ∈ subscribedOrders client) then
    if writable (response client) then Some (write message client) else None
  else Some client.

(** ** Inputs used in the examples *)

Definition tickingClock (k : nat) : Z := 1000 + Z.of_nat k.
Definition stoppedClock (k : nat) : Z := 1000.
Definition firstIndex (k : nat) : nat := 0%nat.

Definition order_TEST_1 : InsertOrder :=
  mkInsertOrder "ORD-TEST-1" "CUST-1" "Test Customer" "10.00" 1 "pending".

Definition order_001 : InsertOrder :=
  mkInsertOrder "ORD-2024-001" "CUST-123" "John Doe" "89.99" 3 "pending".

Definition order_002 : InsertOrder :=
  mkInsertOrder "ORD-2024-002" "CUST-456" "Jane Smith" "159.50" 2 "confirmed".

(** One default order created on a ticking clock. *)
Definition world_001 : World :=
  after (createOrder order_001) (initWorld tickingClock firstIndex).

(** Two default orders created on a ticking clock. *)
Definition world_002 : World :=
  after (createOrder order_002) world_001.

(** One default order created while the clock shows the same millisecond
    at every read. *)
Definition world_same_ms : World :=
  after (createOrder order_001) (initWorld stoppedClock firstIndex).

(** An order record tagged [ORD-A], as carried by an [order_update]. *)
Definition order_A : Order :=
  mkOrder 1 "ORD-A" "CUST-1" "Test Customer" "10.00" 1 (str "confirmed")
          1000 1002.

(** A fresh response stream. *)
Definition freshStream : Response := mkStream true [].

(** The scenario order [ORD-TEST-1], created with status [pending]. *)
Definition world_TEST_1 : World :=
  after (createOrder order_TEST_1) (initWorld tickingClock firstIndex).

(** ** The read routes of the logs (routes.ts) *)

(** [GET /api/orders/:orderId/messages] *)
Definition route_getMessages (oid : string) : M HttpResponse :=
  found <- getOrderMessages oid ;;
  ret (json (json_messages found)).

(** [GET /api/orders/:orderId/history] *)
Definition route_getHistory (oid : string) : M HttpResponse :=
  found <- getOrderStatusHistory oid ;;
  ret (json (json_history found)).

(** ** Start-up (server/index.ts) *)

Definition order_003 : InsertOrder :=
  mkInsertOrder "ORD-2024-003" "CUST-789" "Bob Johnson" "45.00" 1 "processing".

(** The first statements of the start-up function: the three default
    orders are created when the store shows no recent order. *)
Definition createDefaultOrders : M unit :=
  existingOrders <- getRecentOrders (Some 5) ;;
  if Nat.eqb (length existingOrders) 0 then
    createOrder order_001 ;;;
    createOrder order_002 ;;;
    createOrder order_003 ;;;
    ret tt
  else ret tt.

(** ** The life cycle of the mock service (services/mock-kafka.ts) *)

Module MockKafkaService.

(** The service with the runtime's interval table: [messageInterval] is the
    handle the service keeps, [armed] the handles that still fire, and
    [handles] the number of handles given out. The fields [wss] and
    [isConnected] of the service are those of its world. *)
Record t : Type := mk {
  world : World;
  messageInterval : option nat;
  armed : list nat;
  handles : nat
}.

(** [new MockKafkaService()] on a world whose runtime has no interval. *)
Definition create (w : World) : t := mk w None [] 0%nat.

(** [this.messageInterval = setInterval(..., 10000)] *)
Definition startMessageSimulation (s : t) : t :=
  mk (world s) (Some (handles s)) (armed s ++ [handles s])%list
     (S (handles s)).

Definition initialize (webSocketServer : Transport) (s : t) : t :=
  let w := world s in
  startMessageSimulation
    (mk (mkWorld (storage w) (Some webSocketServer) true (clock w)
                 (reads w) (random w) (draws w))
        (messageInterval s) (armed s) (handles s)).

(** [clearInterval(handle)] *)
Definition clearInterval (handle : nat) (l : list nat) : list nat :=
  List.filter (fun h => negb (Nat.eqb h handle)) l.

Definition disconnect (s : t) : t :=
  let s1 := match messageInterval s with
            | Some handle =>
                mk (world s) None (clearInterval handle (armed s)) (handles s)
            | None => s
            end in
  let w := world s1 in
  mk (mkWorld (storage w) (wss w) false (clock w) (reads w) (random w)
              (draws w))
     (messageInterval s1) (armed s1) (handles s1).

(** The runtime fires the interval [handle]: its callback runs only while
    the interval is armed. *)
Definition fire (handle : nat) (s : t) : t :=
  if existsb (Nat.eqb handle) (armed s)
  then mk (after simulateOrderUpdate (world s)) (messageInterval s)
          (armed s) (handles s)
  else s.

(** A call of a method of the service that acts on its world. *)
Definition act {A} (c : M A) (s : t) : t :=
  mk (after c (world s)) (messageInterval s) (armed s) (handles s).

End MockKafkaService.

(** The world [w] once a route table has initialised the service: the
    WebSocket table hands it the socket server, the server-sent-event
    tables a function. *)
Definition initialized (transport : Transport) (w : World) : World :=
  MockKafkaService.world
    (MockKafkaService.initialize transport (MockKafkaService.create w)).

(** The default order ORD-2024-001 posted with the status [constructor],
    which the schema accepts as it accepts any string. *)
Definition order_constructor : InsertOrder :=
  mkInsertOrder "ORD-2024-001" "CUST-123" "John Doe" "89.99" 3 "constructor".

Definition world_constructor : World :=
  after (createOrder order_constructor) (initWorld tickingClock firstIndex).

(** A clock that was set back: every reading is earlier than the one
    before. *)
Definition backwardClock (k : nat) : Z := 1000 - Z.of_nat k.

Definition world_set_back : World :=
  after (createOrder order_001) (initWorld backwardClock firstIndex).

(** Draws that pick the first order at every even draw and the fifth
    duration label at every odd one. *)
Definition alternating (k : nat) : nat := if Nat.even k then 0%nat else 4%nat.

Definition world_alternating : World :=
  after (createOrder order_001) (initWorld tickingClock alternating).

(** ** The request log line (server/index.ts) *)

(** A JavaScript string as its UTF-16 code units, which is what [length]
    and [slice] count. *)
Definition units (s : string) : list N :=
  map Ascii.N_of_ascii (String.list_ascii_of_string s).

(** The text of an integer in a template literal. *)
Definition decimal (z : Z) : list N :=
  units (DecimalString.NilZero.string_of_int (Z.to_int z)).

Fixpoint startsWith (s prefix : list N) : bool :=
  match prefix, s with
  | [], _ => true
  | p :: prefix', c :: s' => N.eqb c p && startsWith s' prefix'
  | _ :: _, [] => false
  end.

(** U+2026, the one code unit of the ellipsis. *)
Definition ellipsis : N := 8230%N.

(** The line before it is cut: [captured] is [JSON.stringify] of the body
    given to [res.json], [None] when no body was captured. *)
Definition fullLogLine (method path : list N) (statusCode duration : Z)
  (captured : option (list N)) : list N :=
  let logLine :=
    (method ++ units " " ++ path ++ units " " ++ decimal statusCode
     ++ units " in " ++ decimal duration ++ units "ms")%list in
  match captured with
  | Some text => (logLine ++ units " :: " ++ text)%list
  | None => logLine
  end.

(** What the [finish] listener hands to [log], if anything. *)
Definition logLine (method path : list N) (statusCode duration : Z)
  (captured : option (list N)) : option (list N) :=
  if startsWith path (units "/api") then
    let line := fullLogLine method path statusCode duration captured in
    Some (if (80 <? length line)%nat
          then (firstn 79 line ++ [ellipsis])%list
          else line)
  else None.

(** ** The status widgets of the dashboard (client, order-monitor page) *)

(** [switch (status)] compares with [===]; [undefined] takes the default. *)
Definition getStatusProgress (st : tsstring) : Z :=
  match st with
  | undefined | inherited _ => 0
  | str s =>
      if String.eqb s "pending" then 20
      else if String.eqb s "confirmed" then 40
      else if String.eqb s "processing" then 60
      else if String.eqb s "shipped" then 80
      else if String.eqb s "delivered" then 100
      else 0
  end.

Definition timeline : list string :=
  ["pending"; "confirmed"; "processing"; "shipped"; "delivered"].

Inductive StepLabel : Type := InProgress | Completed | Pending.

(** The label under one step of the timeline, for the status of the
    tracked order. *)
Definition stepLabel (current : tsstring) (step : string) : StepLabel :=
  let isActive := bool_decide (current = str step) in
  let isCompleted :=
    getStatusProgress (str step) <? getStatusProgress current in
  if isActive then InProgress
  else if isCompleted then Completed
  else Pending.

(** ** More on the runs of the server *)

(** The key list of the orders in [w'] starts with that of [w]. *)
Definition keys_extend (w w' : World) : Prop :=
  exists more,
    map_keys (orders (storage w')) =
    (map_keys (orders (storage w)) ++ more)%list.


(** Every order is stored under its own orderId. *)
Definition keyed (w : World) : Prop :=
  forall k o, In (k, o) (orders (storage w)) -> orderId o = k.

Section Logs.
Context {X : Type}.

(** The entries of a log carry values of [f] that stay on the [R]-side of
    [bound] and follow each other in the order [R]. *)
Definition ordered_log (R : Z -> Z -> Prop) (f : X -> Z) (bound : Z)
  (l : list X) : Prop :=
  Forall (fun x => R (f x) bound) l /\
  StronglySorted (fun a b => R (f a) (f b)) l.

(** The entries of a log stored under [k] name [k] as their order. *)
Definition filed_log (key : X -> string) (k : string) (l : list X) : Prop :=
  Forall (fun x => key x = k) l.
End Logs.

(** Ids: every stored order has an id that the counter has passed; every
    log holds the entries of its own order, with ids that the counter has
    passed, in increasing order of id. *)
Definition numbered (w : World) : Prop :=
  ids_below w /\
  forall k,
    filed_log msg_orderId k (messagesOf k w) /\
    ordered_log Z.lt msg_id (currentId (storage w)) (messagesOf k w) /\
    filed_log hist_orderId k (historyOf k w) /\
    ordered_log Z.lt hist_id (currentId (storage w)) (historyOf k w).

(** Stamps: on a clock that does not run backwards, no order and no log
    entry is stamped later than the next reading, no order was updated
    before it was created, and every log is in the order of its stamps. *)
Definition timed (w : World) : Prop :=
  consistent w /\
  (forall k o, In (k, o) (orders (storage w)) -> createdAt o <= updatedAt o) /\
  forall k,
    ordered_log Z.le msg_timestamp (clock w (reads w)) (messagesOf k w) /\
    ordered_log Z.le hist_timestamp (clock w (reads w)) (historyOf k w).

Definition is_order_update (message : PushMessage) : Prop :=
  match message with
  | order_update _ => True
  | _ => False
  end.

(** What a run may do to one socket: its state is kept, and what was sent
    is followed by [order_update]s only, and by nothing unless it is
    open. *)
Definition socket_extends (c c' : WebSocket) : Prop :=
  readyState c' = readyState c /\
  exists more,
    sent c' = (sent c ++ more)%list /\
    Forall is_order_update more /\
    (readyState c <> OPEN -> more = []).

Definition sockets_extend (w w' : World) : Prop :=
  match wss w, wss w' with
  | Some (SocketServer clients), Some (SocketServer clients') =>
      Forall2 socket_extends clients clients'
  | Some BroadcastFn, Some BroadcastFn => True
  | None, None => True
  | _, _ => False
  end.

(** [n] successors along the progression map, as far as there are any. *)
Fixpoint progressed (n : nat) (st : tsstring) : tsstring :=
  match n with
  | O => st
  | S n' =>
      let next := readProperty statusProgression st in
      if truthy next then progressed n' next else st
  end.

(** The next [n] firings of the simulator all pick [oid]. *)
Fixpoint picks (oid : string) (n : nat) (w : World) : Prop :=
  match n with
  | O => True
  | S n' =>
      tickTarget w = Some oid /\ picks oid n' (after simulateOrderUpdate w)
  end.

(** ** Runs of the targeted fan-out *)

(** The stream of the client stored under [cid] breaks. *)
Definition breakStream (cid : string) (sseClients : JsMap SSEClient)
  : JsMap SSEClient :=
  match map_get cid sseClients with
  | Some client =>
      map_set cid
              (mkClient (mkStream false (written (response client)))
                        (subscribedOrders client) (clientId client))
              sseClients
  | None => sseClients
  end.

(** The first four are what the server does; [Break] is the environment:
    the connection of a client fails, so that the next [write] on its
    stream throws. *)
Inductive SseOp : Type :=
| Connect (oid : tsstring) (cid : string) (res : Response)
          (connected : bool) (now : Z)
| Disconnect (cid : string)
| Break (cid : string)
| Subscribe (cid oid : tsstring)
| Unsubscribe (cid oid : tsstring)
| Broadcast (message : PushMessage).

Definition sse_perform (op : SseOp) (sseClients : JsMap SSEClient)
  : JsMap SSEClient :=
  match op with
  | Connect oid cid res connected now =>
      route_events oid cid res connected now sseClients
  | Disconnect cid => disconnect cid sseClients
  | Break cid => breakStream cid sseClients
  | Subscribe cid oid => (route_subscribe cid oid sseClients).2
  | Unsubscribe cid oid => (route_unsubscribe cid oid sseClients).2
  | Broadcast message => sseBroadcast message sseClients
  end.

Definition sse_run (ops : list SseOp) (sseClients : JsMap SSEClient)
  : JsMap SSEClient :=
  foldl (fun clients op => sse_perform op clients) sseClients ops.

(** The operation opens a stream under [cid]. *)
Definition connects (cid : string) (op : SseOp) : bool :=
  match op with
  | Connect _ cid' _ _ _ => String.eqb cid' cid
  | _ => false
  end.

(** The messages handed to the fan-out during a run, in order. *)
Definition broadcasts (ops : list SseOp) : list PushMessage :=
  omap (fun op => match op with
                  | Broadcast message => Some message
                  | _ => None
                  end) ops.

(** ** Properties *)

(** *** The insertion-ordered map *)

Section JsMapFacts.
Context {V : Type}.
Implicit Types (k : string) (v : V) (m : list (string * V)).

Lemma map_get_set_eq k v m : map_get k (map_set k v m) = Some v.
Proof.
  induction m as [|[k' v'] m IH]; simpl.
  - now rewrite String.eqb_refl.
  - destruct (String.eqb k k') eqn:E; simpl.
    + now rewrite String.eqb_refl.
    + now rewrite E.
Qed.

Lemma map_get_set_ne k k' v m :
  k <> k' -> map_get k' (map_set k v m) = map_get k' m.
Proof.
  intros Hne. induction m as [|[k0 v0] m IH]; simpl.
  - destruct (String.eqb_spec k' k); congruence.
  - destruct (String.eqb_spec k k0) as [->|Hk]; simpl.
    + destruct (String.eqb_spec k' k0); congruence.
    + now rewrite IH.
Qed.

Lemma map_get_delete_ne k k' m :
  k <> k' -> map_get k' (map_delete k m) = map_get k' m.
Proof.
  intros Hne. induction m as [|[k0 v0] m IH]; simpl; [easy|].
  destruct (String.eqb_spec k k0) as [->|Hk]; simpl.
  - destruct (String.eqb_spec k' k0); congruence.
  - now rewrite IH.
Qed.

Lemma map_get_In k v m : map_get k m = Some v -> In (k, v) m.
Proof.
  induction m as [|[k0 v0] m IH]; simpl; [easy|].
  destruct (String.eqb_spec k k0) as [->|Hk]; intros H.
  - left. congruence.
  - right. auto.
Qed.

(** Overwriting a key neither moves nor duplicates its entry. *)
Lemma map_keys_set_present k v v' m :
  map_get k m = Some v' -> map_keys (map_set k v m) = map_keys m.
Proof.
  induction m as [|[k0 v0] m IH]; simpl; [easy|].
  destruct (String.eqb_spec k k0) as [->|Hk]; simpl; intros H.
  - reflexivity.
  - unfold map_keys in *. simpl. f_equal. now apply IH.
Qed.

Lemma map_set_absent k v m :
  map_get k m = None -> map_set k v m = (m ++ [(k, v)])%list.
Proof.
  induction m as [|[k0 v0] m IH]; simpl; [easy|].
  destruct (String.eqb_spec k k0) as [->|Hk]; [easy|].
  intros H. now rewrite IH.
Qed.

Lemma In_map_set k v m e :
  In e (map_set k v m) -> e = (k, v) \/ In e m.
Proof.
  induction m as [|[k0 v0] m IH]; simpl.
  - intros [H|[]]; auto.
  - destruct (String.eqb_spec k k0) as [->|Hk]; simpl.
    + intros [H|H]; auto.
    + intros [H|H]; auto. destruct (IH H); auto.
Qed.

Lemma In_map_set_new k v m : In (k, v) (map_set k v m).
Proof.
  induction m as [|[k0 v0] m IH]; simpl; [auto|].
  destruct (String.eqb_spec k k0); simpl; auto.
Qed.

Lemma In_values_set k v m x :
  In x (map_values (map_set k v m)) -> x = v \/ In x (map_values m).
Proof.
  unfold map_values. rewrite !in_map_iff.
  intros [e [<- He]]. destruct (In_map_set _ _ _ _ He) as [->|Hin]; auto.
  right. now exists e.
Qed.

Lemma In_values_set_new k v m : In v (map_values (map_set k v m)).
Proof.
  unfold map_values. apply in_map_iff. exists (k, v).
  split; [easy|apply In_map_set_new].
Qed.
End JsMapFacts.

(** *** Sorting and slicing *)

Section SortFacts.
Context {A : Type} (key : A -> Z).

(** The comparator [(a, b) => key(b) - key(a)]. *)
Let cmp (a b : A) : Z := key b - key a.
Let desc (a b : A) : Prop := key b <= key a.

Lemma sort_insert_perm (c : A -> A -> Z) x l :
  Permutation (sort_insert c x l) (x :: l).
Proof.
  induction l as [|y l IH]; simpl; [reflexivity|].
  destruct (c x y <=? 0); [reflexivity|].
  rewrite IH. apply perm_swap.
Qed.

Lemma js_sort_perm (c : A -> A -> Z) l : Permutation (js_sort c l) l.
Proof.
  induction l as [|x l IH]; simpl; [reflexivity|].
  rewrite sort_insert_perm. now constructor.
Qed.

Lemma sort_insert_sorted x l :
  StronglySorted desc l -> StronglySorted desc (sort_insert cmp x l).
Proof.
  induction 1 as [|y l Hs IH Hy]; simpl.
  - repeat constructor.
  - unfold cmp at 1. destruct (Z.leb_spec (key y - key x) 0) as [Hle|Hgt].
    + constructor; [now constructor|].
      constructor; [unfold desc; lia|].
      eapply List.Forall_impl; [|exact Hy]. unfold desc. intros z Hz. simpl in *. lia.
    + constructor; [exact IH|].
      eapply Permutation_Forall; [symmetry; apply sort_insert_perm|].
      constructor; [unfold desc; lia|exact Hy].
Qed.

Lemma js_sort_sorted l : StronglySorted desc (js_sort cmp l).
Proof.
  induction l as [|x l IH]; simpl; [constructor|].
  now apply sort_insert_sorted.
Qed.

(** Stability: elements with the same key keep their relative order. *)
Lemma sort_insert_stable t x l :
  filter (fun a => key a = t) (sort_insert cmp x l) =
  filter (fun a => key a = t) (x :: l).
Proof.
  induction l as [|y l IH]; simpl; [reflexivity|].
  unfold cmp at 1. destruct (Z.leb_spec (key y - key x) 0) as [Hle|Hgt].
  - reflexivity.
  - rewrite (filter_cons _ y), IH, !(filter_cons _ x), !(filter_cons _ y).
    repeat case_decide; try reflexivity; lia.
Qed.

Lemma js_sort_stable t l :
  filter (fun a => key a = t) (js_sort cmp l) =
  filter (fun a => key a = t) l.
Proof.
  induction l as [|x l IH]; simpl; [reflexivity|].
  rewrite sort_insert_stable, !(filter_cons _ x), IH. reflexivity.
Qed.
End SortFacts.

Lemma slice0_nonneg {A} (l : list A) (e : Z) :
  0 <= e -> slice0 l e = firstn (Z.to_nat e) l.
Proof.
  intros He. unfold slice0.
  destruct (Z.ltb_spec e 0) as [|_]; [lia|].
  destruct (Z.le_gt_cases e (Z.of_nat (length l))) as [Hle|Hgt].
  - now rewrite Z.min_l.
  - rewrite Z.min_r by lia. rewrite Nat2Z.id.
    rewrite !firstn_all2; [reflexivity|lia|lia].
Qed.

Lemma slice0_negative {A} (l : list A) (e : Z) :
  e < 0 ->
  slice0 l e = firstn (length l - Z.to_nat (- e)) l.
Proof.
  intros He. unfold slice0.
  destruct (Z.ltb_spec e 0) as [_|]; [|lia].
  f_equal. lia.
Qed.

Lemma firstn_sorted {A} (R : A -> A -> Prop) n (l : list A) :
  StronglySorted R l -> StronglySorted R (firstn n l).
Proof.
  intros Hs. revert n. induction Hs as [|x l Hs IH Hx]; intros [|n]; simpl;
    try constructor; auto.
  apply List.Forall_forall. intros y Hy.
  rewrite List.Forall_forall in Hx. apply Hx.
  rewrite <- (firstn_skipn n l). apply in_or_app. now left.
Qed.

Lemma map_set_set {V} (k : string) (v1 v2 : V) (m : list (string * V)) :
  map_set k v2 (map_set k v1 m) = map_set k v2 m.
Proof.
  induction m as [|[k0 v0] m IH]; simpl.
  - now rewrite String.eqb_refl.
  - destruct (String.eqb k k0) eqn:E; simpl.
    + now rewrite String.eqb_refl.
    + now rewrite E, IH.
Qed.

Lemma filter_firstn_prefix {A} (P : A -> Prop) `{!forall a, Decision (P a)}
  (n : nat) (l : list A) :
  exists rest, filter P l = (filter P (firstn n l) ++ rest)%list.
Proof.
  exists (filter P (skipn n l)).
  now rewrite <- filter_app, firstn_skipn.
Qed.

(** The head of a sorted list is the one element that is strictly newer
    than all the others. *)
Lemma newest_is_head (x : Order) (l : list Order) (n : nat) :
  In x l ->
  (forall y, In y l -> y = x \/ updatedAt y < updatedAt x) ->
  (1 <= n)%nat ->
  head (firstn n (js_sort byUpdatedAtDesc l)) = Some x.
Proof.
  intros Hx Hnew Hn.
  pose proof (js_sort_perm byUpdatedAtDesc l) as Hperm.
  pose proof (js_sort_sorted updatedAt l) as Hsorted.
  change (fun a b : Order => updatedAt b - updatedAt a) with byUpdatedAtDesc in Hsorted.
  destruct (js_sort byUpdatedAtDesc l) as [|h tl] eqn:Es.
  - apply Permutation_nil in Hperm. subst l. destruct Hx.
  - destruct n as [|n]; [lia|]. simpl. f_equal.
    assert (Hh : In h l) by (eapply Permutation_in; [exact Hperm|now left]).
    assert (Hx' : In x (h :: tl))
      by (eapply Permutation_in; [symmetry; exact Hperm|exact Hx]).
    destruct (Hnew h Hh) as [->|Hlt]; [reflexivity|].
    destruct Hx' as [->|Hin]; [reflexivity|].
    inversion Hsorted as [|? ? _ Hall]; subst.
    rewrite List.Forall_forall in Hall. specialize (Hall x Hin). simpl in Hall. lia.
Qed.

(** *** C5: create, then read back *)

(** C5 (as amended). For every payload and every state of the store,
    [createOrder] followed by [getOrder] on the payload's orderId returns
    the record [createOrder] returned: its fields are those of the payload,
    its id is the value of the store's counter, and [createdAt] and
    [updatedAt] are the two successive clock readings taken while the
    record is built. *)
Theorem createOrder_then_getOrder (w : World) (payload : InsertOrder) :
  exists o,
    result (createOrder payload ;;; getOrder (ins_orderId payload)) w = Some o /\
    result (createOrder payload) w = o /\
    orderId o = ins_orderId payload /\
    customerId o = ins_customerId payload /\
    customerName o = ins_customerName payload /\
    totalAmount o = ins_totalAmount payload /\
    itemCount o = ins_itemCount payload /\
    status o = str (ins_status payload) /\
    id o = currentId (storage w) /\
    createdAt o = clock w (reads w) /\
    updatedAt o = clock w (S (reads w)).
Proof.
  eexists. split; [|repeat split].
  unfold result, createOrder, getOrder, bind, nextId, getStorage, putStorage,
    newDate, ret. simpl.
  apply map_get_set_eq.
Qed.

(** C5 (counterexample). On a clock that advances between the two reads,
    the record read back right after its creation has a [createdAt] that
    differs from its [updatedAt]. *)
Lemma createdAt_differs_from_updatedAt :
  exists o,
    result (createOrder order_TEST_1 ;;; getOrder "ORD-TEST-1")
           (initWorld tickingClock firstIndex) = Some o /\
    createdAt o <> updatedAt o.
Proof.
  eexists. split; [vm_compute; reflexivity|].
  simpl. discriminate.
Qed.

(** *** C4: the recent orders *)

Lemma getRecentOrders_eq (w : World) (limit : option Z) :
  result (getRecentOrders limit) w =
  slice0 (js_sort byUpdatedAtDesc (map_values (orders (storage w))))
         (default 10 limit).
Proof. reflexivity. Qed.

(** C4 (as amended). For every state of the store and every limit
    [n >= 0], [getRecentOrders] returns at most [n] orders, newest
    [updatedAt] first; orders with the same [updatedAt] come in the order
    of the store's map (the order of first insertion); without a limit it
    is 10, in the store and in the route; and creating an order and then
    updating it puts it first, when [n >= 1] and the update is stamped
    strictly later than every order already stored. *)
Theorem getRecentOrders_spec (w : World) (n : Z) :
  0 <= n ->
  let stored := map_values (orders (storage w)) in
  let recent := result (getRecentOrders (Some n)) w in
  Z.of_nat (length recent) <= n /\
  StronglySorted newestFirst recent /\
  (forall o, In o recent -> In o stored) /\
  (forall t, exists rest,
      filter (fun o => updatedAt o = t) stored =
      (filter (fun o => updatedAt o = t) recent ++ rest)%list) /\
  result (getRecentOrders None) w = result (getRecentOrders (Some 10)) w /\
  result (route_getOrders None) w =
    json (json_orders (result (getRecentOrders (Some 10)) w)) /\
  (forall payload updates,
      1 <= n ->
      (forall o, In o stored -> updatedAt o < clock w (S (S (reads w)))) ->
      head (result (createOrder payload ;;;
                    updateOrder (ins_orderId payload) updates ;;;
                    getRecentOrders (Some n)) w)
      = result (createOrder payload ;;;
                updateOrder (ins_orderId payload) updates) w).
Proof.
  intros Hn stored recent.
  assert (Hrecent : recent =
            firstn (Z.to_nat n) (js_sort byUpdatedAtDesc stored)).
  { unfold recent. rewrite getRecentOrders_eq. now apply slice0_nonneg. }
  repeat split.
  - rewrite Hrecent, length_firstn. lia.
  - rewrite Hrecent. apply firstn_sorted.
    exact (js_sort_sorted updatedAt stored).
  - intros o Ho. rewrite Hrecent in Ho.
    eapply Permutation_in; [apply js_sort_perm|].
    rewrite <- (firstn_skipn (Z.to_nat n)). apply in_or_app. left. exact Ho.
  - intros t. rewrite Hrecent.
    rewrite <- (js_sort_stable updatedAt t stored).
    apply filter_firstn_prefix.
  - intros payload updates Hn1 Hold.
    unfold result, createOrder, updateOrder, getRecentOrders, bind, nextId,
      getStorage, putStorage, newDate, ret. simpl.
    rewrite map_get_set_eq. simpl.
    rewrite map_set_set, slice0_nonneg by exact Hn.
    apply newest_is_head; [apply In_values_set_new| |lia].
    intros y Hy. apply In_values_set in Hy as [->|Hy]; [now left|].
    right. simpl. now apply Hold.
Qed.

(** C4 (counterexample). With two orders stored, a limit of -1 returns one
    order, which is more than the limit; and when the clock shows the same
    millisecond throughout, an order that is created and then updated comes
    after the order that was stored before it. *)
Lemma getRecentOrders_counterexample :
  ~ (Z.of_nat (length (result (getRecentOrders (Some (-1))) world_002)) <= -1) /\
  orderId <$> head (result (createOrder order_TEST_1 ;;;
                            updateOrder "ORD-TEST-1" noUpdates ;;;
                            getRecentOrders (Some 10)) world_same_ms)
    = Some "ORD-2024-001".
Proof.
  split.
  - vm_compute. intros H. now apply H.
  - vm_compute. reflexivity.
Qed.

(** An instance: with the two default orders stored, a limit of 1 returns
    one order, and ORD-TEST-1, created and then updated on the ticking
    clock, is that order. *)
Lemma getRecentOrders_spec_witness :
  0 <= 1 /\
  Z.of_nat (length (result (getRecentOrders (Some 1)) world_002)) <= 1 /\
  orderId <$> head (result (createOrder order_TEST_1 ;;;
                            updateOrder (ins_orderId order_TEST_1) noUpdates ;;;
                            getRecentOrders (Some 1)) world_002)
    = Some "ORD-TEST-1".
Proof.
  assert (H01 : 0 <= 1) by lia.
  destruct (getRecentOrders_spec world_002 1 H01)
    as (Hlen & _ & _ & _ & _ & _ & Hfront).
  split; [exact H01|]. split; [exact Hlen|].
  rewrite (Hfront order_TEST_1 noUpdates).
  - reflexivity.
  - lia.
  - intros o [<-|[<-|[]]]; vm_compute; reflexivity.
Defined.

(** *** Sequencing *)

Lemma bind_eq {A B} (c : M A) (k : A -> M B) (w : World) :
  bind c k w = k (result c w) (after c w).
Proof. unfold bind, result, after. now destruct (c w). Qed.

Lemma result_bind {A B} (c : M A) (k : A -> M B) (w : World) :
  result (bind c k) w = result (k (result c w)) (after c w).
Proof. unfold result at 1. now rewrite bind_eq. Qed.

Lemma after_bind {A B} (c : M A) (k : A -> M B) (w : World) :
  after (bind c k) w = after (k (result c w)) (after c w).
Proof. unfold after at 1. now rewrite bind_eq. Qed.

Lemma steps_ret (R : World -> World -> Prop) `{!Reflexive R} {A} (a : A) :
  steps R (ret a).
Proof. intros w. apply reflexivity. Qed.

Lemma steps_bind (R : World -> World -> Prop) `{!Transitive R} {A B}
  (c : M A) (k : A -> M B) :
  steps R c -> (forall a, steps R (k a)) -> steps R (bind c k).
Proof.
  intros Hc Hk w. rewrite after_bind.
  etransitivity; [apply Hc|apply Hk].
Qed.

#[local] Instance keeps_preorder (P : World -> Prop) : PreOrder (keeps P).
Proof. split; unfold keeps; [intros w|intros w1 w2 w3]; tauto. Qed.

#[local] Instance logs_extend_preorder : PreOrder logs_extend.
Proof.
  split.
  - intros w oid. split; exists []; now rewrite app_nil_r.
  - intros w1 w2 w3 H12 H23 oid.
    destruct (H12 oid) as [[m1 Hm1] [h1 Hh1]].
    destruct (H23 oid) as [[m2 Hm2] [h2 Hh2]].
    split.
    + exists (m1 ++ m2)%list. now rewrite Hm2, Hm1, <- app_assoc.
    + exists (h1 ++ h2)%list. now rewrite Hh2, Hh1, <- app_assoc.
Qed.

(** A step that leaves both log maps alone. *)
Lemma logs_extend_same (w w' : World) :
  messages (storage w') = messages (storage w) ->
  statusHistory (storage w') = statusHistory (storage w) ->
  logs_extend w w'.
Proof.
  intros Hm Hh oid. unfold messagesOf, historyOf, result, getOrderMessages,
    getOrderStatusHistory, bind, getStorage, ret. simpl.
  rewrite Hm, Hh. split; exists []; now rewrite app_nil_r.
Qed.

(** *** What each store call does *)

Lemma messagesOf_eq (oid : string) (w : World) :
  messagesOf oid w = default [] (messages (storage w) !! oid).
Proof. reflexivity. Qed.

Lemma historyOf_eq (oid : string) (w : World) :
  historyOf oid w = default [] (statusHistory (storage w) !! oid).
Proof. reflexivity. Qed.

Lemma orderOf_eq (oid : string) (w : World) :
  orderOf oid w = map_get oid (orders (storage w)).
Proof. reflexivity. Qed.

Lemma addOrderMessage_messagesOf (im : InsertOrderMessage) (w : World)
  (oid : string) :
  messagesOf oid (after (addOrderMessage im) w) =
  if decide (im_orderId im = oid)
  then (messagesOf oid w ++ [result (addOrderMessage im) w])%list
  else messagesOf oid w.
Proof.
  rewrite !messagesOf_eq.
  unfold after, result, addOrderMessage, bind, nextId, getStorage, putStorage,
    newDate, ret. simpl.
  rewrite lookup_insert. case_decide; [subst|]; reflexivity.
Qed.

Lemma addOrderStatusHistory_historyOf (ih : InsertOrderStatusHistory)
  (w : World) (oid : string) :
  historyOf oid (after (addOrderStatusHistory ih) w) =
  if decide (ih_orderId ih = oid)
  then (historyOf oid w ++ [result (addOrderStatusHistory ih) w])%list
  else historyOf oid w.
Proof.
  rewrite !historyOf_eq.
  unfold after, result, addOrderStatusHistory, bind, nextId, getStorage,
    putStorage, newDate, ret. simpl.
  rewrite lookup_insert. case_decide; [subst|]; reflexivity.
Qed.

Lemma updateOrder_present (oid : string) (updates : PartialInsertOrder)
  (w : World) (o : Order) :
  orderOf oid w = Some o ->
  updateOrder oid updates w =
  (Some (merge o updates (clock w (reads w))),
   mkWorld (set_orders (map_set oid (merge o updates (clock w (reads w)))
                                (orders (storage w))) (storage w))
           (wss w) (isConnected w) (clock w) (S (reads w)) (random w) (draws w)).
Proof.
  rewrite orderOf_eq. intros H.
  unfold updateOrder, bind, getStorage, putStorage, newDate, ret. simpl.
  rewrite H. reflexivity.
Qed.

Lemma result_updateOrder_present (oid : string)
  (updates : PartialInsertOrder) (w : World) (o : Order) :
  orderOf oid w = Some o ->
  result (updateOrder oid updates) w
  = Some (merge o updates (clock w (reads w))).
Proof.
  intros Ho. unfold result. now rewrite (updateOrder_present _ _ _ _ Ho).
Qed.

Lemma after_updateOrder_present (oid : string)
  (updates : PartialInsertOrder) (w : World) (o : Order) :
  orderOf oid w = Some o ->
  after (updateOrder oid updates) w
  = mkWorld (set_orders (map_set oid (merge o updates (clock w (reads w)))
                                 (orders (storage w))) (storage w))
            (wss w) (isConnected w) (clock w) (S (reads w)) (random w)
            (draws w).
Proof.
  intros Ho. unfold after. now rewrite (updateOrder_present _ _ _ _ Ho).
Qed.

Lemma updateOrder_absent (oid : string) (updates : PartialInsertOrder)
  (w : World) :
  orderOf oid w = None -> updateOrder oid updates w = (None, w).
Proof.
  rewrite orderOf_eq. intros H.
  unfold updateOrder, bind, getStorage, ret. simpl. now rewrite H.
Qed.

(** *** C6: updateOrder *)

(** *** The store stays consistent *)

Lemma consistent_step (w w' : World) :
  clock w' = clock w ->
  (reads w <= reads w')%nat ->
  currentId (storage w) <= currentId (storage w') ->
  (consistent w ->
   forall k o, In (k, o) (orders (storage w')) ->
               In (k, o) (orders (storage w)) \/
               (id o < currentId (storage w') /\
                updatedAt o <= clock w (reads w'))) ->
  keeps consistent w w'.
Proof.
  intros Hclock Hreads Hid Hnew Hw.
  pose proof Hw as (Hmono & Hids & Hpast).
  repeat split.
  - unfold clock_monotone. rewrite Hclock. exact Hmono.
  - intros k o Hin. destruct (Hnew Hw k o Hin) as [Hold|[Hlt _]]; [|exact Hlt].
    specialize (Hids k o Hold). lia.
  - intros k o Hin. rewrite Hclock.
    destruct (Hnew Hw k o Hin) as [Hold|[_ Hle]]; [|exact Hle].
    specialize (Hpast k o Hold). specialize (Hmono _ _ Hreads). lia.
Qed.

Ltac unfold_store :=
  unfold after, result, createOrder, updateOrder, addOrderMessage,
    addOrderStatusHistory, clearOrderMessages, getOrder, getRandomDuration,
    broadcastToClients, randomIndex, nextId, getStorage, putStorage, newDate,
    bind, ret; simpl.

Lemma consistent_createOrder (payload : InsertOrder) :
  steps (keeps consistent) (createOrder payload).
Proof.
  intros w. apply consistent_step; unfold_store; try lia; try reflexivity.
  intros (Hmono & _ & _) k o Hin.
  apply In_map_set in Hin as [Heq|Hin]; [right|now left].
  inversion Heq; subst; simpl. split; [lia|]. apply Hmono. lia.
Qed.

Lemma consistent_updateOrder (oid : string) (updates : PartialInsertOrder) :
  steps (keeps consistent) (updateOrder oid updates).
Proof.
  intros w. destruct (orderOf oid w) as [o|] eqn:Ho.
  - unfold after. rewrite (updateOrder_present _ _ _ _ Ho).
    apply consistent_step; simpl; try lia; try reflexivity.
    intros (Hmono & Hids & _) k o' Hin.
    apply In_map_set in Hin as [Heq|Hin]; [right|now left].
    inversion Heq; subst; simpl. split.
    + eapply Hids. apply map_get_In. exact Ho.
    + apply Hmono. lia.
  - unfold after. rewrite (updateOrder_absent _ _ _ Ho). simpl.
    apply reflexivity.
Qed.

Lemma consistent_addOrderMessage (im : InsertOrderMessage) :
  steps (keeps consistent) (addOrderMessage im).
Proof.
  intros w. apply consistent_step; unfold_store; try lia; try reflexivity.
  intros _ k o Hin. now left.
Qed.

Lemma consistent_addOrderStatusHistory (ih : InsertOrderStatusHistory) :
  steps (keeps consistent) (addOrderStatusHistory ih).
Proof.
  intros w. apply consistent_step; unfold_store; try lia; try reflexivity.
  intros _ k o Hin. now left.
Qed.

Lemma consistent_clearOrderMessages (oid : string) :
  steps (keeps consistent) (clearOrderMessages oid).
Proof.
  intros w. apply consistent_step; unfold_store; try lia; try reflexivity.
  intros _ k o Hin. now left.
Qed.

Lemma consistent_getOrder (oid : string) :
  steps (keeps consistent) (getOrder oid).
Proof. intros w. unfold_store. apply reflexivity. Qed.

Lemma consistent_randomIndex (n : nat) :
  steps (keeps consistent) (randomIndex n).
Proof.
  intros w. apply consistent_step; unfold_store; try lia; try reflexivity.
  intros _ k o Hin. now left.
Qed.

Lemma consistent_getRandomDuration :
  steps (keeps consistent) getRandomDuration.
Proof.
  intros w. apply consistent_step; unfold_store; try lia; try reflexivity.
  intros _ k o Hin. now left.
Qed.

Lemma consistent_broadcastToClients (message : PushMessage) :
  steps (keeps consistent) (broadcastToClients message).
Proof.
  intros w. unfold after, broadcastToClients.
  destruct (wss w) as [[clients|]|]; simpl; try apply reflexivity.
  apply consistent_step; simpl; try lia; try reflexivity.
  intros _ k o Hin. now left.
Qed.

Create HintDb consistency discriminated.
#[local] Hint Resolve consistent_createOrder consistent_updateOrder
  consistent_addOrderMessage consistent_addOrderStatusHistory
  consistent_clearOrderMessages consistent_getOrder consistent_randomIndex
  consistent_getRandomDuration consistent_broadcastToClients : consistency.

(** Walk through a handler: one [bind] at a time, splitting on what the
    store returned. *)
Ltac walk R db :=
  repeat lazymatch goal with
    | |- steps _ (ret _) => apply (steps_ret R)
    | |- steps _ (bind _ _) => apply (steps_bind R); [|intros ?]
    | |- steps _ (match ?x with _ => _ end) => destruct x
    | |- steps _ (let _ := _ in _) => cbv zeta
    | |- steps _ _ => solve [auto with db]
    end.

Lemma consistent_simulateOrderUpdate :
  steps (keeps consistent) simulateOrderUpdate.
Proof. unfold simulateOrderUpdate. walk (keeps consistent) consistency. Qed.

Lemma consistent_triggerOrderUpdate (oid : string) (newStatus : tsstring) :
  steps (keeps consistent) (triggerOrderUpdate oid newStatus).
Proof. unfold triggerOrderUpdate. walk (keeps consistent) consistency. Qed.

#[local] Hint Resolve consistent_simulateOrderUpdate
  consistent_triggerOrderUpdate : consistency.

Lemma consistent_perform (op : Op) : steps (keeps consistent) (perform op).
Proof. destruct op; cbn [perform]; walk (keeps consistent) consistency. Qed.

Lemma consistent_run (ops : list Op) : steps (keeps consistent) (run ops).
Proof.
  induction ops as [|op ops IH]; simpl.
  - apply (steps_ret _).
  - apply (steps_bind _); [apply consistent_perform|intros _; exact IH].
Qed.

Lemma consistent_initWorld (clk : nat -> Z) (rnd : nat -> nat) :
  (forall i j : nat, (i <= j)%nat -> clk i <= clk j) ->
  consistent (initWorld clk rnd).
Proof.
  intros Hmono. repeat split; [exact Hmono| |]; intros k o [].
Qed.

(** Every world the server reaches from start-up on a clock that does not
    run backwards is consistent. *)
Lemma consistent_reachable (clk : nat -> Z) (rnd : nat -> nat)
  (ops : list Op) :
  (forall i j : nat, (i <= j)%nat -> clk i <= clk j) ->
  consistent (after (run ops) (initWorld clk rnd)).
Proof.
  intros Hmono. apply consistent_run. now apply consistent_initWorld.
Qed.

(** *** C6: updateOrder *)

(** C6 (amended). For an existing order [updateOrder] returns and stores
    the old record with exactly the supplied fields replaced: [id] and
    [createdAt] are kept, every field of the payload that is not supplied
    is kept, and [updatedAt] is the clock reading of the call; the other
    orders, the position of the order in the map, both logs and the id
    counter are untouched. For an orderId that is not stored it returns
    nothing and leaves the world as it was. In every world that store
    calls, firings and manual triggers reach from an empty store, whatever
    the service was initialised with, on a clock that does not run
    backwards, the new [updatedAt] is not earlier than the old one. *)
Theorem updateOrder_spec (w : World) (oid : string)
  (updates : PartialInsertOrder) :
  match orderOf oid w with
  | Some o =>
      let w' := after (updateOrder oid updates) w in
      exists o',
        result (updateOrder oid updates) w = Some o' /\
        orderOf oid w' = Some o' /\
        id o' = id o /\
        createdAt o' = createdAt o /\
        orderId o' = default (orderId o) (upd_orderId updates) /\
        customerId o' = default (customerId o) (upd_customerId updates) /\
        customerName o' = default (customerName o) (upd_customerName updates) /\
        totalAmount o' = default (totalAmount o) (upd_totalAmount updates) /\
        itemCount o' = default (itemCount o) (upd_itemCount updates) /\
        status o' = default (status o) (upd_status updates) /\
        updatedAt o' = clock w (reads w) /\
        (forall other, other <> oid -> orderOf other w' = orderOf other w) /\
        map_keys (orders (storage w')) = map_keys (orders (storage w)) /\
        messages (storage w') = messages (storage w) /\
        statusHistory (storage w') = statusHistory (storage w) /\
        currentId (storage w') = currentId (storage w) /\
        forall w0 ops,
          orders (storage w0) = [] ->
          (forall i j : nat, (i <= j)%nat -> clock w0 i <= clock w0 j) ->
          w = after (run ops) w0 ->
          updatedAt o <= updatedAt o'
  | None => updateOrder oid updates w = (None, w)
  end.
Proof.
  destruct (orderOf oid w) as [o|] eqn:Ho.
  - unfold result, after. rewrite (updateOrder_present _ _ _ _ Ho). simpl.
    eexists. split; [reflexivity|].
    rewrite orderOf_eq in Ho.
    repeat match goal with |- _ /\ _ => split end; try reflexivity.
    + rewrite orderOf_eq. simpl. apply map_get_set_eq.
    + intros other Hne. rewrite !orderOf_eq. simpl.
      apply map_get_set_ne. congruence.
    + simpl. eapply map_keys_set_present. exact Ho.
    + intros w0 ops Hempty Hmono Hw. simpl.
      destruct (consistent_run ops w0) as (_ & _ & Hpast).
      { split; [exact Hmono|].
        split; intros k o0 Hin; rewrite Hempty in Hin; destruct Hin. }
      unfold after in Hpast. rewrite <- Hw in Hpast.
      eapply Hpast. apply map_get_In. exact Ho.
  - now apply updateOrder_absent.
Qed.

Lemma tickingClock_monotone (i j : nat) :
  (i <= j)%nat -> tickingClock i <= tickingClock j.
Proof. unfold tickingClock. lia. Qed.

(** An instance: shipping the stored default order, whose [updatedAt] moves
    from the second clock reading to the third, and an orderId that is not
    stored. *)
Lemma updateOrder_spec_witness :
  (exists o o',
      orderOf "ORD-2024-001" world_001 = Some o /\
      result (updateOrder "ORD-2024-001" (statusOnly (str "shipped"))) world_001
        = Some o' /\
      status o' = str "shipped" /\
      updatedAt o = 1001 /\ updatedAt o' = 1002 /\
      updatedAt o <= updatedAt o') /\
  updateOrder "ORD-MISSING" (statusOnly (str "shipped")) world_001
  = (None, world_001).
Proof.
  split.
  - pose proof (updateOrder_spec world_001 "ORD-2024-001"
                  (statusOnly (str "shipped"))) as H.
    change (orderOf "ORD-2024-001" world_001)
      with (Some (result (createOrder order_001)
                    (initWorld tickingClock firstIndex))) in H.
    cbv zeta in H.
    destruct H as (o' & Hres & _ & _ & _ & _ & _ & _ & _ & _ & Hst & Hup
                   & _ & _ & _ & _ & _ & Hle).
    eexists. exists o'. split; [reflexivity|]. split; [exact Hres|].
    split; [exact Hst|]. split; [reflexivity|]. split; [exact Hup|].
    apply (Hle (initWorld tickingClock firstIndex) [CreateOrder order_001]);
      [reflexivity|apply tickingClock_monotone|reflexivity].
  - exact (updateOrder_spec world_001 "ORD-MISSING"
             (statusOnly (str "shipped"))).
Defined.

(** C6 (counterexample). On a clock that was set back, [updateOrder]
    gives the stored order an [updatedAt] earlier than the one it had. *)
Lemma updateOrder_decreases_updatedAt :
  exists o o',
    orderOf "ORD-2024-001" world_set_back = Some o /\
    result (updateOrder "ORD-2024-001" (statusOnly (str "shipped")))
           world_set_back = Some o' /\
    updatedAt o = 999 /\ updatedAt o' = 998 /\
    ~ updatedAt o <= updatedAt o'.
Proof.
  do 2 eexists. split; [reflexivity|]. split; [reflexivity|].
  split; [reflexivity|]. split; [reflexivity|]. vm_compute. tauto.
Qed.

(** *** C9: creating an order whose orderId is taken *)

(** C9. When the payload's orderId is already stored, [createOrder]
    replaces the stored record by the one it returns: that record has the
    payload's fields, the current value of the id counter (which differs
    from the id of the replaced record), and two new clock readings as
    [createdAt] and [updatedAt]; the map keeps one entry per orderId, in
    place; the message log and the status history stored under that
    orderId are kept; and [POST /api/orders] answers 200 with the new
    record. *)
Theorem createOrder_overwrites (w : World) (payload : InsertOrder)
  (old : Order) :
  ids_below w ->
  orderOf (ins_orderId payload) w = Some old ->
  let o := result (createOrder payload) w in
  let w' := after (createOrder payload) w in
  orderOf (ins_orderId payload) w' = Some o /\
  o = {| id := currentId (storage w);
         orderId := ins_orderId payload;
         customerId := ins_customerId payload;
         customerName := ins_customerName payload;
         totalAmount := ins_totalAmount payload;
         itemCount := ins_itemCount payload;
         status := str (ins_status payload);
         createdAt := clock w (reads w);
         updatedAt := clock w (S (reads w)) |} /\
  id o <> id old /\
  map_keys (orders (storage w')) = map_keys (orders (storage w)) /\
  messages (storage w') = messages (storage w) /\
  statusHistory (storage w') = statusHistory (storage w) /\
  messagesOf (ins_orderId payload) w' = messagesOf (ins_orderId payload) w /\
  historyOf (ins_orderId payload) w' = historyOf (ins_orderId payload) w /\
  route_createOrder (Some payload) w = (mkResponse 200 (json_order o), w').
Proof.
  intros Hids Hold o w'. rewrite orderOf_eq in Hold.
  repeat match goal with |- _ /\ _ => split end; try reflexivity.
  - rewrite orderOf_eq. unfold w', o. unfold_store. apply map_get_set_eq.
  - unfold o. unfold_store.
    specialize (Hids _ _ (map_get_In _ _ _ Hold)). lia.
  - unfold w'. unfold_store. eapply map_keys_set_present. exact Hold.
Qed.

(** The default order has id 1, the counter stands at 2. *)
Lemma ids_below_world_001 : ids_below world_001.
Proof.
  intros k o [H|[]]. inversion H; subst. vm_compute. reflexivity.
Defined.

(** An instance: the first default order is posted a second time. *)
Lemma createOrder_overwrites_witness :
  ids_below world_001 /\
  orderOf "ORD-2024-001" world_001 = Some (result (createOrder order_001)
                                           (initWorld tickingClock firstIndex)) /\
  statusCode (result (route_createOrder (Some order_001)) world_001) = 200 /\
  id <$> orderOf "ORD-2024-001" (after (createOrder order_001) world_001)
    = Some 2.
Proof.
  assert (Hold : orderOf (ins_orderId order_001) world_001 =
                 Some (result (createOrder order_001)
                         (initWorld tickingClock firstIndex)))
    by reflexivity.
  pose proof (createOrder_overwrites world_001 order_001 _
                ids_below_world_001 Hold) as H.
  cbv zeta in H. destruct H as (Hget & Ho & _ & _ & _ & _ & _ & _ & Hroute).
  split; [exact ids_below_world_001|]. split; [exact Hold|]. split.
  - unfold result. rewrite Hroute. reflexivity.
  - change "ORD-2024-001" with (ins_orderId order_001). rewrite Hget, Ho.
    reflexivity.
Defined.

(** *** The lookup tables *)

Lemma table_miss (table : list (string * string)) (k : string) :
  ~ In k (map fst table) ->
  (list_to_map table : gmap string string) !! k = None.
Proof.
  intros Hk. apply not_elem_of_list_to_map_1.
  intros Hin. apply Hk. now apply list_elem_of_In.
Qed.

Lemma not_inherited (k : string) :
  ~ In k objectPrototype -> bool_decide (k ∈ objectPrototype) = false.
Proof.
  intros Hk. apply bool_decide_eq_false_2.
  intros Hin. apply Hk. now apply list_elem_of_In.
Qed.

Lemma is_inherited (k : string) :
  In k objectPrototype -> bool_decide (k ∈ objectPrototype) = true.
Proof. intros Hk. apply bool_decide_eq_true_2. now apply list_elem_of_In. Qed.

(** The text of an inherited value starts like no key of a table and like
    no property name of [Object.prototype]. *)
Lemma toString_inherited (key : string) :
  toString (inherited key) = "[object Object]" \/
  exists rest,
    toString (inherited key) = String "f"%char (String "u"%char rest).
Proof.
  unfold toString. destruct (String.eqb key "__proto__").
  - now left.
  - right. eexists. reflexivity.
Qed.

(** So an inherited value, used as a key in its turn, finds nothing. *)
Lemma readProperty_inherited (table : list (string * string)) (key : string) :
  Forall (fun k => exists c rest, k = String c rest /\ c <> "["%char /\
                                  (c = "f"%char ->
                                   exists c' rest', rest = String c' rest' /\
                                                    c' <> "u"%char))
         (map fst table) ->
  readProperty (list_to_map table) (inherited key) = undefined.
Proof.
  intros Hkeys. unfold readProperty.
  assert (Hown : ~ In (toString (inherited key)) (map fst table)).
  { intros Hin. rewrite List.Forall_forall in Hkeys.
    destruct (Hkeys _ Hin) as (c & rest & Heq & Hc & Hf).
    destruct (toString_inherited key) as [H|[rest' H]]; rewrite H in Heq.
    - injection Heq as <- _. now apply Hc.
    - injection Heq as <- <-. destruct (Hf eq_refl) as (c' & r & Hr & Hc').
      injection Hr as <- _. now apply Hc'. }
  rewrite (table_miss _ _ Hown), not_inherited; [reflexivity|].
  destruct (toString_inherited key) as [H|[rest H]]; rewrite H;
    unfold objectPrototype; simpl; intros Hin;
    repeat (destruct Hin as [Hin|Hin]; [discriminate Hin|]); exact Hin.
Qed.

Ltac table_keys :=
  repeat (apply Forall_cons; split;
          [do 2 eexists; split; [reflexivity|];
           split; [discriminate|intros Hf; discriminate Hf]|]);
  apply List.Forall_nil.

Lemma successor_of_inherited (key : string) :
  readProperty statusProgression (inherited key) = undefined.
Proof. apply readProperty_inherited. simpl. table_keys. Qed.

Lemma title_of_inherited (key : string) :
  getStatusTitle (inherited key) = str "Status Update".
Proof.
  unfold getStatusTitle, titles.
  rewrite readProperty_inherited; [reflexivity|]. simpl. table_keys.
Qed.

Lemma description_of_inherited (key : string) :
  getStatusDescription (inherited key) = str "Status has been updated.".
Proof.
  unfold getStatusDescription, descriptions.
  rewrite readProperty_inherited; [reflexivity|]. simpl. table_keys.
Qed.

(** What [table[key]] finds for a key that is no own key. *)
Lemma readProperty_miss (table : list (string * string)) (st : tsstring) :
  ~ In (toString st) (map fst table) ->
  readProperty (list_to_map table) st =
  if bool_decide (toString st ∈ objectPrototype)
  then inherited (toString st) else undefined.
Proof. intros Hk. unfold readProperty. now rewrite table_miss. Qed.

(** The progression map, entry by entry, with what the prototype chain
    adds to it. *)
Lemma successor_spec (s : string) :
  readProperty statusProgression (str s) =
  if String.eqb s "pending" then str "confirmed"
  else if String.eqb s "confirmed" then str "processing"
  else if String.eqb s "processing" then str "shipped"
  else if String.eqb s "shipped" then str "delivered"
  else if bool_decide (s ∈ objectPrototype) then inherited s
  else undefined.
Proof.
  repeat match goal with
         | |- context [String.eqb s ?t] =>
             destruct (String.eqb_spec s t) as [->|?]; [reflexivity|]
         end.
  unfold statusProgression. rewrite readProperty_miss; [reflexivity|].
  simpl. intros Hin.
  repeat (destruct Hin as [Hin|Hin]; [congruence|]). exact Hin.
Qed.

(** *** C10: the manual trigger on an orderId that is not stored *)

(** C10. For an orderId that is not stored, [triggerOrderUpdate] returns
    with the world as it was: the three collections of the store are the
    same and nothing was sent on any socket; the route of the
    server-sent-event tables still answers 200 with a success body, and so
    does the route of the WebSocket table when a non-empty status was
    sent. *)
Theorem triggerOrderUpdate_absent (w : World) (oid : string)
  (newStatus : tsstring) :
  orderOf oid w = None ->
  triggerOrderUpdate oid newStatus w = (returns, w) /\
  storage (after (triggerOrderUpdate oid newStatus) w) = storage w /\
  wss (after (triggerOrderUpdate oid newStatus) w) = wss w /\
  route_triggerUpdate_sse oid newStatus w =
    (mkResponse 200 (json_success (Some "Order update triggered")), w) /\
  (truthy newStatus = true ->
   exists text,
     route_triggerUpdate_ws oid newStatus w =
       (mkResponse 200 (json_success (Some text)), w)).
Proof.
  intros Habsent.
  assert (Htrigger : triggerOrderUpdate oid newStatus w = (returns, w)).
  { unfold triggerOrderUpdate. rewrite bind_eq. unfold result, after.
    now rewrite (updateOrder_absent _ _ _ Habsent). }
  repeat split.
  - exact Htrigger.
  - unfold after. now rewrite Htrigger.
  - unfold after. now rewrite Htrigger.
  - unfold route_triggerUpdate_sse. rewrite bind_eq. unfold result, after.
    now rewrite Htrigger.
  - intros Htruthy. eexists. unfold route_triggerUpdate_ws.
    rewrite Htruthy. simpl. rewrite bind_eq. unfold result, after.
    rewrite Htrigger. reflexivity.
Qed.

(** An instance: the route is called for DOES-NOT-EXIST. *)
Lemma triggerOrderUpdate_absent_witness :
  orderOf "DOES-NOT-EXIST" world_001 = None /\
  route_triggerUpdate_sse "DOES-NOT-EXIST" (str "shipped") world_001 =
    (mkResponse 200 (json_success (Some "Order update triggered")), world_001).
Proof.
  assert (H : orderOf "DOES-NOT-EXIST" world_001 = None) by reflexivity.
  split; [exact H|].
  exact (proj1 (proj2 (proj2 (proj2
           (triggerOrderUpdate_absent world_001 "DOES-NOT-EXIST"
              (str "shipped") H))))).
Defined.

(** *** What a status change leaves behind *)

#[local] Opaque Nat.modulo.

(** The tail shared by the simulator and the manual trigger: draw a
    duration label, append the history entry, append the message, hand the
    event to the transport. The three store calls are made before the
    broadcast ends, whichever way it ends. *)
Lemma transition_recorded (w : World)
  (entry : option string -> InsertOrderStatusHistory)
  (im : InsertOrderMessage) (event : PushMessage) :
  let label := durations !! (random w (draws w) mod length durations)%nat in
  let h := {| hist_id := currentId (storage w);
              hist_orderId := ih_orderId (entry label);
              hist_status := ih_status (entry label);
              title := ih_title (entry label);
              description := ih_description (entry label);
              operator := ih_operator (entry label);
              duration := orNull (ih_duration (entry label));
              hist_timestamp := clock w (reads w) |} in
  let m := {| msg_id := currentId (storage w) + 1;
              msg_orderId := im_orderId im;
              messageType := im_messageType im;
              content := im_content im;
              msg_timestamp := clock w (S (reads w));
              metadata := im_metadata im |} in
  (d <- getRandomDuration ;;
   addOrderStatusHistory (entry d) ;;;
   addOrderMessage im ;;;
   broadcastToClients event) w
  = (ending w,
     mkWorld
       (mkStorage
          (orders (storage w))
          (<[im_orderId im :=
               (default [] (messages (storage w) !! im_orderId im) ++ [m])%list]>
             (messages (storage w)))
          (<[ih_orderId (entry label) :=
               (default [] (statusHistory (storage w) !! ih_orderId (entry label))
                ++ [h])%list]>
             (statusHistory (storage w)))
          (currentId (storage w) + 1 + 1))
       (deliver event <$> wss w)
       (isConnected w) (clock w) (S (S (reads w))) (random w) (S (draws w))).
Proof.
  unfold ending. unfold_store. destruct (wss w) as [[clients|]|]; reflexivity.
Qed.

(** The same tail inside the [try] of the simulator. *)
Lemma transition_caught (w : World)
  (entry : option string -> InsertOrderStatusHistory)
  (im : InsertOrderMessage) (event : PushMessage) :
  after (d <- getRandomDuration ;;
         addOrderStatusHistory (entry d) ;;;
         addOrderMessage im ;;;
         broadcastToClients event ;;;
         ret tt) w
  = after (d <- getRandomDuration ;;
           addOrderStatusHistory (entry d) ;;;
           addOrderMessage im ;;;
           broadcastToClients event) w.
Proof.
  unfold_store. destruct (wss w) as [[clients|]|]; reflexivity.
Qed.

(** *** C3: the manual trigger *)

Lemma triggerOrderUpdate_stored (w : World) (oid : string)
  (newStatus : tsstring) (o : Order) :
  orderOf oid w = Some o ->
  let updated := merge o (statusOnly newStatus) (clock w (reads w)) in
  let label := durations !! (random w (draws w) mod length durations)%nat in
  let h := {| hist_id := currentId (storage w);
              hist_orderId := oid;
              hist_status := newStatus;
              title := getStatusTitle newStatus;
              description := getStatusDescription newStatus;
              operator := "Manual";
              duration := orNull label;
              hist_timestamp := clock w (S (reads w)) |} in
  let m := {| msg_id := currentId (storage w) + 1;
              msg_orderId := oid;
              messageType := MessageType.STATUS_UPDATE;
              content := ("Order status manually updated to "
                          ++ toString newStatus)%string;
              msg_timestamp := clock w (S (S (reads w)));
              metadata := Some [("manualUpdate", true)] |} in
  triggerOrderUpdate oid newStatus w
  = (ending w,
     mkWorld
       (mkStorage
          (map_set oid updated (orders (storage w)))
          (<[oid := (messagesOf oid w ++ [m])%list]> (messages (storage w)))
          (<[oid := (historyOf oid w ++ [h])%list]> (statusHistory (storage w)))
          (currentId (storage w) + 1 + 1))
       (deliver (order_update updated) <$> wss w)
       (isConnected w) (clock w) (S (S (S (reads w)))) (random w)
       (S (draws w))).
Proof.
  intros Ho. cbv zeta. unfold triggerOrderUpdate.
  rewrite bind_eq.
  rewrite (result_updateOrder_present _ _ _ _ Ho),
    (after_updateOrder_present _ _ _ _ Ho).
  rewrite transition_recorded. reflexivity.
Qed.

Lemma triggerOrderUpdate_present (w : World) (oid : string)
  (newStatus : tsstring) (o : Order) :
  orderOf oid w = Some o ->
  let updated := merge o (statusOnly newStatus) (clock w (reads w)) in
  let label := durations !! (random w (draws w) mod length durations)%nat in
  let h := {| hist_id := currentId (storage w);
              hist_orderId := oid;
              hist_status := newStatus;
              title := getStatusTitle newStatus;
              description := getStatusDescription newStatus;
              operator := "Manual";
              duration := orNull label;
              hist_timestamp := clock w (S (reads w)) |} in
  let m := {| msg_id := currentId (storage w) + 1;
              msg_orderId := oid;
              messageType := MessageType.STATUS_UPDATE;
              content := ("Order status manually updated to "
                          ++ toString newStatus)%string;
              msg_timestamp := clock w (S (S (reads w)));
              metadata := Some [("manualUpdate", true)] |} in
  after (triggerOrderUpdate oid newStatus) w
  = mkWorld
      (mkStorage
         (map_set oid updated (orders (storage w)))
         (<[oid := (messagesOf oid w ++ [m])%list]> (messages (storage w)))
         (<[oid := (historyOf oid w ++ [h])%list]> (statusHistory (storage w)))
         (currentId (storage w) + 1 + 1))
      (deliver (order_update updated) <$> wss w)
      (isConnected w) (clock w) (S (S (S (reads w)))) (random w) (S (draws w)).
Proof.
  intros Ho. cbv zeta. unfold after.
  now rewrite (triggerOrderUpdate_stored _ _ _ _ Ho).
Qed.

Lemma triggerOrderUpdate_ends (w : World) (oid : string)
  (newStatus : tsstring) (o : Order) :
  orderOf oid w = Some o ->
  result (triggerOrderUpdate oid newStatus) w = ending w.
Proof.
  intros Ho. unfold result.
  now rewrite (triggerOrderUpdate_stored _ _ _ _ Ho).
Qed.

(** C3 (the code, in general). For every stored order and every target
    status whatever (no comparison with the forward chain is made), the
    manual trigger stores the order with the target as its status and its
    other payload fields, id and [createdAt] as they were, appends one
    history entry carrying the target status and the operator "Manual", and
    appends one status_update message. It does so whatever the service was
    initialised with; the call then returns, except in a service that was
    handed a function in place of a socket server, where the broadcast that
    follows the three writes throws: there the manual trigger does not
    succeed, although the update is made. *)
Theorem triggerOrderUpdate_any_status (w : World) (oid : string)
  (newStatus : tsstring) (o : Order) :
  orderOf oid w = Some o ->
  let w' := after (triggerOrderUpdate oid newStatus) w in
  (exists o',
      orderOf oid w' = Some o' /\
      status o' = newStatus /\
      id o' = id o /\ orderId o' = orderId o /\
      customerId o' = customerId o /\ customerName o' = customerName o /\
      totalAmount o' = totalAmount o /\ itemCount o' = itemCount o /\
      createdAt o' = createdAt o) /\
  (exists h,
      historyOf oid w' = (historyOf oid w ++ [h])%list /\
      hist_orderId h = oid /\
      hist_status h = newStatus /\
      operator h = "Manual" /\
      title h = getStatusTitle newStatus /\
      description h = getStatusDescription newStatus) /\
  (exists m,
      messagesOf oid w' = (messagesOf oid w ++ [m])%list /\
      messageType m = "status_update") /\
  result (triggerOrderUpdate oid newStatus) w =
    match wss w with
    | Some BroadcastFn => throws
    | Some (SocketServer _) | None => returns
    end.
Proof.
  intros Ho w'. unfold w'.
  rewrite (triggerOrderUpdate_present _ _ _ _ Ho).
  split; [|split; [|split]].
  - eexists. split; [rewrite orderOf_eq; simpl; apply map_get_set_eq|].
    repeat split.
  - eexists. split.
    { rewrite (historyOf_eq oid (mkWorld _ _ _ _ _ _ _)). simpl.
      rewrite lookup_insert_eq. reflexivity. }
    repeat split.
  - eexists. split.
    { rewrite (messagesOf_eq oid (mkWorld _ _ _ _ _ _ _)). simpl.
      rewrite lookup_insert_eq. reflexivity. }
    repeat split.
  - rewrite (triggerOrderUpdate_ends _ _ _ _ Ho). unfold ending.
    now destruct (wss w) as [[clients|]|].
Qed.

(** An instance: ORD-TEST-1 goes from pending straight to delivered. In a
    service with a socket server the call returns. In a service that was
    handed a function, as the server-sent-event route tables do, the order
    is updated and the entry recorded all the same, but the call throws and
    the route answers 500. *)
Lemma triggerOrderUpdate_any_status_witness :
  let ws := initialized (SocketServer [mkSocket OPEN []]) world_TEST_1 in
  let sse := initialized BroadcastFn world_TEST_1 in
  (status <$> orderOf "ORD-TEST-1" ws = Some (str "pending") /\
   status <$> orderOf "ORD-TEST-1"
     (after (triggerOrderUpdate "ORD-TEST-1" (str "delivered")) ws)
     = Some (str "delivered") /\
   result (triggerOrderUpdate "ORD-TEST-1" (str "delivered")) ws = returns) /\
  (status <$> orderOf "ORD-TEST-1" sse = Some (str "pending") /\
   status <$> orderOf "ORD-TEST-1"
     (after (triggerOrderUpdate "ORD-TEST-1" (str "delivered")) sse)
     = Some (str "delivered") /\
   operator <$> historyOf "ORD-TEST-1"
     (after (triggerOrderUpdate "ORD-TEST-1" (str "delivered")) sse)
     = ["Manual"] /\
   result (triggerOrderUpdate "ORD-TEST-1" (str "delivered")) sse = throws /\
   result (route_triggerUpdate_sse "ORD-TEST-1" (str "delivered")) sse
     = mkResponse 500 (json_error "Failed to trigger update")).
Proof.
  cbv zeta. split.
  - assert (Ho : orderOf "ORD-TEST-1"
                   (initialized (SocketServer [mkSocket OPEN []]) world_TEST_1)
                 = Some (result (createOrder order_TEST_1)
                           (initWorld tickingClock firstIndex)))
      by reflexivity.
    destruct (triggerOrderUpdate_any_status _ "ORD-TEST-1"
                (str "delivered") _ Ho)
      as ((o' & Hget & Hst & _) & _ & _ & Hends).
    split; [reflexivity|]. split; [|exact Hends].
    rewrite Hget. simpl. now rewrite Hst.
  - assert (Ho : orderOf "ORD-TEST-1" (initialized BroadcastFn world_TEST_1)
                 = Some (result (createOrder order_TEST_1)
                           (initWorld tickingClock firstIndex)))
      by reflexivity.
    destruct (triggerOrderUpdate_any_status _ "ORD-TEST-1"
                (str "delivered") _ Ho)
      as ((o' & Hget & Hst & _) & (h & Hh & _ & _ & Hop & _) & _ & Hends).
    split; [reflexivity|].
    split; [rewrite Hget; simpl; now rewrite Hst|].
    split.
    { rewrite Hh.
      change (historyOf "ORD-TEST-1" (initialized BroadcastFn world_TEST_1))
        with (@nil OrderStatusHistory).
      simpl. now rewrite Hop. }
    split; [exact Hends|].
    unfold route_triggerUpdate_sse. rewrite result_bind.
    change (result (triggerOrderUpdate "ORD-TEST-1" (str "delivered"))
              (initialized BroadcastFn world_TEST_1)) with throws.
    reflexivity.
Defined.

(** *** C2: one firing of the simulator *)

Lemma simulateOrderUpdate_target (w : World) (oid : string) (o : Order) :
  tickTarget w = Some oid ->
  orderOf oid w = Some o ->
  let w1 := after (randomIndex (length sampleOrders)) w in
  let next := readProperty statusProgression (status o) in
  after simulateOrderUpdate w =
  if truthy next then
    after (updatedOrder <- updateOrder oid (statusOnly next) ;;
           match updatedOrder with
           | None => ret tt
           | Some updated =>
               d <- getRandomDuration ;;
               addOrderStatusHistory {|
                 ih_orderId := oid;
                 ih_status := next;
                 ih_title := getStatusTitle next;
                 ih_description := getStatusDescription next;
                 ih_operator := "System";
                 ih_duration := d |} ;;;
               addOrderMessage {|
                 im_orderId := oid;
                 im_messageType := MessageType.STATUS_UPDATE;
                 im_content :=
                   ("Order status updated to " ++ toString next)%string;
                 im_metadata := Some [("simulatedUpdate", true)] |} ;;;
               broadcastToClients (order_update updated) ;;;
               ret tt
           end) w1
  else w1.
Proof.
  intros Htarget Ho. cbv zeta. unfold simulateOrderUpdate.
  rewrite after_bind.
  change (result (randomIndex (length sampleOrders)) w)
    with (random w (draws w) mod length sampleOrders)%nat.
  unfold tickTarget in Htarget. rewrite Htarget.
  rewrite after_bind.
  change (result (getOrder oid) (after (randomIndex (length sampleOrders)) w))
    with (orderOf oid w).
  rewrite Ho.
  change (after (getOrder oid) (after (randomIndex (length sampleOrders)) w))
    with (after (randomIndex (length sampleOrders)) w).
  cbv zeta.
  destruct (truthy (readProperty statusProgression (status o))); reflexivity.
Qed.

(** A firing whose lookup finds something truthy, an own entry of the map
    or an inherited one. *)
Lemma simulateOrderUpdate_moves (w : World) (oid : string) (o : Order) :
  tickTarget w = Some oid ->
  orderOf oid w = Some o ->
  let next := readProperty statusProgression (status o) in
  truthy next = true ->
  let updated := merge o (statusOnly next) (clock w (reads w)) in
  let label := durations !! (random w (S (draws w)) mod length durations)%nat in
  let h := {| hist_id := currentId (storage w);
              hist_orderId := oid;
              hist_status := next;
              title := getStatusTitle next;
              description := getStatusDescription next;
              operator := "System";
              duration := orNull label;
              hist_timestamp := clock w (S (reads w)) |} in
  let m := {| msg_id := currentId (storage w) + 1;
              msg_orderId := oid;
              messageType := MessageType.STATUS_UPDATE;
              content := ("Order status updated to " ++ toString next)%string;
              msg_timestamp := clock w (S (S (reads w)));
              metadata := Some [("simulatedUpdate", true)] |} in
  after simulateOrderUpdate w
  = mkWorld
      (mkStorage
         (map_set oid updated (orders (storage w)))
         (<[oid := (messagesOf oid w ++ [m])%list]> (messages (storage w)))
         (<[oid := (historyOf oid w ++ [h])%list]> (statusHistory (storage w)))
         (currentId (storage w) + 1 + 1))
      (deliver (order_update updated) <$> wss w)
      (isConnected w) (clock w) (S (S (S (reads w)))) (random w)
      (S (S (draws w))).
Proof.
  intros Htarget Ho next Hnext. cbv zeta. unfold next in *.
  rewrite (simulateOrderUpdate_target _ _ _ Htarget Ho). cbv zeta.
  rewrite Hnext.
  rewrite after_bind.
  assert (Ho1 : orderOf oid (after (randomIndex (length sampleOrders)) w)
                = Some o) by exact Ho.
  rewrite (result_updateOrder_present _ _ _ _ Ho1),
    (after_updateOrder_present _ _ _ _ Ho1).
  rewrite transition_caught. unfold after at 1.
  rewrite transition_recorded. reflexivity.
Qed.

Lemma simulateOrderUpdate_advances (w : World) (oid : string) (o : Order)
  (next : string) :
  tickTarget w = Some oid ->
  orderOf oid w = Some o ->
  statusProgression !! toString (status o) = Some next ->
  let updated := merge o (statusOnly (str next)) (clock w (reads w)) in
  let label := durations !! (random w (S (draws w)) mod length durations)%nat in
  let h := {| hist_id := currentId (storage w);
              hist_orderId := oid;
              hist_status := str next;
              title := getStatusTitle (str next);
              description := getStatusDescription (str next);
              operator := "System";
              duration := orNull label;
              hist_timestamp := clock w (S (reads w)) |} in
  let m := {| msg_id := currentId (storage w) + 1;
              msg_orderId := oid;
              messageType := MessageType.STATUS_UPDATE;
              content := ("Order status updated to " ++ next)%string;
              msg_timestamp := clock w (S (S (reads w)));
              metadata := Some [("simulatedUpdate", true)] |} in
  after simulateOrderUpdate w
  = mkWorld
      (mkStorage
         (map_set oid updated (orders (storage w)))
         (<[oid := (messagesOf oid w ++ [m])%list]> (messages (storage w)))
         (<[oid := (historyOf oid w ++ [h])%list]> (statusHistory (storage w)))
         (currentId (storage w) + 1 + 1))
      (deliver (order_update updated) <$> wss w)
      (isConnected w) (clock w) (S (S (S (reads w)))) (random w)
      (S (S (draws w))).
Proof.
  intros Htarget Ho Hnext. cbv zeta.
  assert (Hread : readProperty statusProgression (status o) = str next)
    by (unfold readProperty; now rewrite Hnext).
  assert (Htruthy : truthy (readProperty statusProgression (status o)) = true).
  { rewrite Hread. unfold statusProgression in Hnext. cbn in Hnext.
    repeat (apply lookup_insert_Some in Hnext as [[_ <-]|[_ Hnext]];
            [reflexivity|]).
    now rewrite lookup_empty in Hnext. }
  rewrite (simulateOrderUpdate_moves _ _ _ Htarget Ho Htruthy).
  now rewrite Hread.
Qed.

(** C2 (the code, in general and at the failing input). Let the
    simulator's draw pick a stored order, and let [next] be what the lookup
    of its status in the progression map finds. If [next] is truthy, one
    firing stores the order with [next] as its status (its other fields but
    [updatedAt] unchanged), appends exactly one history entry, with operator
    "System" and the title and description that the two lookup tables give
    for [next], and appends exactly one message, of type status_update; if
    not, the firing leaves the store and the transport as they were. The
    lookup finds: confirmed for pending, processing for confirmed, shipped
    for processing, delivered for shipped, with the titles "Order
    Confirmed", "Processing", "Shipped" and "Delivered"; nothing for
    delivered, for cancelled, for a missing status and for any other text
    that names no property of [Object.prototype]; and, for a text that does
    name one, such as [constructor], the inherited value, which is truthy:
    there the firing stores that value as the status and appends to both
    logs, where the claim has a firing that changes nothing. *)
Theorem simulateOrderUpdate_spec (w : World) (oid : string) (o : Order) :
  tickTarget w = Some oid ->
  orderOf oid w = Some o ->
  let w' := after simulateOrderUpdate w in
  let next := readProperty statusProgression (status o) in
  (if truthy next then
     (exists o',
         orderOf oid w' = Some o' /\
         status o' = next /\
         id o' = id o /\ orderId o' = orderId o /\
         customerId o' = customerId o /\ customerName o' = customerName o /\
         totalAmount o' = totalAmount o /\ itemCount o' = itemCount o /\
         createdAt o' = createdAt o) /\
     (exists h,
         historyOf oid w' = (historyOf oid w ++ [h])%list /\
         hist_orderId h = oid /\
         hist_status h = next /\
         operator h = "System" /\
         title h = getStatusTitle next /\
         description h = getStatusDescription next) /\
     (exists m,
         messagesOf oid w' = (messagesOf oid w ++ [m])%list /\
         messageType m = "status_update" /\
         content m = ("Order status updated to " ++ toString next)%string)
   else storage w' = storage w /\ wss w' = wss w) /\
  next =
    match status o with
    | str s =>
        if String.eqb s "pending" then str "confirmed"
        else if String.eqb s "confirmed" then str "processing"
        else if String.eqb s "processing" then str "shipped"
        else if String.eqb s "shipped" then str "delivered"
        else if bool_decide (s ∈ objectPrototype) then inherited s
        else undefined
    | undefined | inherited _ => undefined
    end /\
  (getStatusTitle (str "confirmed") = str "Order Confirmed" /\
   getStatusTitle (str "processing") = str "Processing" /\
   getStatusTitle (str "shipped") = str "Shipped" /\
   getStatusTitle (str "delivered") = str "Delivered" /\
   forall key, getStatusTitle (inherited key) = str "Status Update") /\
  (getStatusDescription (str "confirmed") =
     str "Your order has been confirmed and is being prepared for processing." /\
   getStatusDescription (str "processing") =
     str "Items are being prepared and packaged for shipment." /\
   getStatusDescription (str "shipped") =
     str "Your order has been shipped and is on its way." /\
   getStatusDescription (str "delivered") =
     str "Your order has been delivered successfully." /\
   forall key,
     getStatusDescription (inherited key) = str "Status has been updated.").
Proof.
  intros Htarget Ho w' next.
  split; [|split; [|split]].
  - destruct (truthy next) eqn:Hnext.
    + unfold w'. rewrite (simulateOrderUpdate_moves _ _ _ Htarget Ho Hnext).
      fold next. split; [|split].
      * eexists. split; [rewrite orderOf_eq; simpl; apply map_get_set_eq|].
        repeat split.
      * eexists. split.
        { rewrite (historyOf_eq oid (mkWorld _ _ _ _ _ _ _)). simpl.
          rewrite lookup_insert_eq. reflexivity. }
        repeat split.
      * eexists. split.
        { rewrite (messagesOf_eq oid (mkWorld _ _ _ _ _ _ _)). simpl.
          rewrite lookup_insert_eq. reflexivity. }
        repeat split.
    + unfold w'. rewrite (simulateOrderUpdate_target _ _ _ Htarget Ho).
      cbv zeta. fold next. rewrite Hnext. split; reflexivity.
  - unfold next. destruct (status o) as [|s|key].
    + reflexivity.
    + apply successor_spec.
    + apply successor_of_inherited.
  - repeat split; try reflexivity. apply title_of_inherited.
  - repeat split; try reflexivity. apply description_of_inherited.
Qed.

(** An instance: the draw picks ORD-2024-001. Stored as pending, it
    becomes confirmed. Stored with the status [constructor], which is no
    entry of the progression map, it is not left alone: its status becomes
    the function that every object inherits under that name, and both logs
    grow by one entry. *)
Lemma simulateOrderUpdate_spec_witness :
  (tickTarget world_001 = Some "ORD-2024-001" /\
   status <$> orderOf "ORD-2024-001" world_001 = Some (str "pending") /\
   status <$> orderOf "ORD-2024-001" (after simulateOrderUpdate world_001)
     = Some (str "confirmed")) /\
  (tickTarget world_constructor = Some "ORD-2024-001" /\
   status <$> orderOf "ORD-2024-001" world_constructor
     = Some (str "constructor") /\
   statusProgression !! "constructor" = None /\
   status <$> orderOf "ORD-2024-001" (after simulateOrderUpdate world_constructor)
     = Some (inherited "constructor") /\
   (fun h => (hist_status h, title h, operator h))
     <$> historyOf "ORD-2024-001" (after simulateOrderUpdate world_constructor)
     = [(inherited "constructor", str "Status Update", "System")] /\
   content
     <$> messagesOf "ORD-2024-001" (after simulateOrderUpdate world_constructor)
     = ["Order status updated to function Object() { [native code] }"]).
Proof.
  split.
  - assert (Htarget : tickTarget world_001 = Some "ORD-2024-001")
      by (vm_compute; reflexivity).
    assert (Ho : orderOf "ORD-2024-001" world_001
                 = Some (result (createOrder order_001)
                           (initWorld tickingClock firstIndex)))
      by reflexivity.
    destruct (simulateOrderUpdate_spec world_001 "ORD-2024-001" _ Htarget Ho)
      as [H _].
    cbv zeta in H.
    change (truthy (readProperty statusProgression
                      (status (result (createOrder order_001)
                                 (initWorld tickingClock firstIndex)))))
      with true in H.
    destruct H as ((o' & Hget & Hst & _) & _).
    split; [exact Htarget|]. split; [reflexivity|].
    rewrite Hget. simpl. rewrite Hst. reflexivity.
  - assert (Htarget : tickTarget world_constructor = Some "ORD-2024-001")
      by (vm_compute; reflexivity).
    assert (Ho : orderOf "ORD-2024-001" world_constructor
                 = Some (result (createOrder order_constructor)
                           (initWorld tickingClock firstIndex)))
      by reflexivity.
    destruct (simulateOrderUpdate_spec world_constructor "ORD-2024-001" _
                Htarget Ho) as [H _].
    cbv zeta in H.
    change (readProperty statusProgression
              (status (result (createOrder order_constructor)
                         (initWorld tickingClock firstIndex))))
      with (inherited "constructor") in H.
    cbn [truthy] in H.
    destruct H as ((o' & Hget & Hst & _) & (h & Hh & _ & Hhs & Hop & Hti & _)
                   & (m & Hm & _ & Hc)).
    split; [exact Htarget|]. split; [reflexivity|].
    split; [vm_compute; reflexivity|].
    split; [rewrite Hget; simpl; now rewrite Hst|].
    split.
    + rewrite Hh. change (historyOf "ORD-2024-001" world_constructor) with
        (@nil OrderStatusHistory). simpl. rewrite Hhs, Hop, Hti.
      now rewrite title_of_inherited.
    + rewrite Hm. change (messagesOf "ORD-2024-001" world_constructor) with
        (@nil OrderMessage). simpl. rewrite Hc. reflexivity.
Defined.

(** *** C7: the two logs *)

Lemma logs_createOrder (payload : InsertOrder) :
  steps logs_extend (createOrder payload).
Proof. intros w. now apply logs_extend_same. Qed.

Lemma logs_updateOrder (oid : string) (updates : PartialInsertOrder) :
  steps logs_extend (updateOrder oid updates).
Proof.
  intros w. destruct (orderOf oid w) as [o|] eqn:Ho.
  - rewrite (after_updateOrder_present _ _ _ _ Ho). now apply logs_extend_same.
  - unfold after. rewrite (updateOrder_absent _ _ _ Ho). apply reflexivity.
Qed.

Lemma logs_getOrder (oid : string) : steps logs_extend (getOrder oid).
Proof. intros w. apply reflexivity. Qed.

Lemma logs_randomIndex (n : nat) : steps logs_extend (randomIndex n).
Proof. intros w. now apply logs_extend_same. Qed.

Lemma logs_getRandomDuration : steps logs_extend getRandomDuration.
Proof. intros w. now apply logs_extend_same. Qed.

Lemma logs_broadcastToClients (message : PushMessage) :
  steps logs_extend (broadcastToClients message).
Proof.
  intros w. unfold after, broadcastToClients.
  destruct (wss w) as [[clients|]|]; now apply logs_extend_same.
Qed.

Lemma logs_addOrderMessage (im : InsertOrderMessage) :
  steps logs_extend (addOrderMessage im).
Proof.
  intros w oid. split.
  - rewrite addOrderMessage_messagesOf. case_decide.
    + now eexists.
    + exists []. now rewrite app_nil_r.
  - exists []. now rewrite app_nil_r.
Qed.

Lemma logs_addOrderStatusHistory (ih : InsertOrderStatusHistory) :
  steps logs_extend (addOrderStatusHistory ih).
Proof.
  intros w oid. split.
  - exists []. now rewrite app_nil_r.
  - rewrite addOrderStatusHistory_historyOf. case_decide.
    + now eexists.
    + exists []. now rewrite app_nil_r.
Qed.

Create HintDb logs discriminated.
#[local] Hint Resolve logs_createOrder logs_updateOrder logs_getOrder
  logs_randomIndex logs_getRandomDuration logs_broadcastToClients
  logs_addOrderMessage logs_addOrderStatusHistory : logs.

Lemma logs_simulateOrderUpdate : steps logs_extend simulateOrderUpdate.
Proof. unfold simulateOrderUpdate. walk logs_extend logs. Qed.

Lemma logs_triggerOrderUpdate (oid : string) (newStatus : tsstring) :
  steps logs_extend (triggerOrderUpdate oid newStatus).
Proof. unfold triggerOrderUpdate. walk logs_extend logs. Qed.

#[local] Hint Resolve logs_simulateOrderUpdate logs_triggerOrderUpdate : logs.

Lemma logs_perform (op : Op) :
  clears op = false -> steps logs_extend (perform op).
Proof.
  destruct op; cbn [perform clears]; intros Hop; try discriminate;
    walk logs_extend logs.
Qed.

Lemma logs_run (ops : list Op) :
  Forall (fun op => clears op = false) ops -> steps logs_extend (run ops).
Proof.
  induction 1 as [|op ops Hop _ IH]; simpl.
  - apply (steps_ret _).
  - apply (steps_bind _); [now apply logs_perform|intros _; exact IH].
Qed.

(** C7. Along any sequence of store calls, simulator firings and manual
    triggers that clears no log, the message log and the status history of
    every order only grow at the end: what was returned before is a prefix
    of what is returned after, so the lengths do not decrease and no entry
    is edited, dropped or moved; one append adds exactly the returned entry
    at the end. [clearOrderMessages] empties the message log of its order
    and leaves the message logs of the other orders and every status
    history as they were. *)
Theorem logs_append_only (ops : list Op) (w : World) (oid : string) :
  Forall (fun op => clears op = false) ops ->
  let w' := after (run ops) w in
  (exists more, messagesOf oid w' = (messagesOf oid w ++ more)%list) /\
  (exists more, historyOf oid w' = (historyOf oid w ++ more)%list) /\
  (length (messagesOf oid w) <= length (messagesOf oid w'))%nat /\
  (length (historyOf oid w) <= length (historyOf oid w'))%nat /\
  (forall im,
      messagesOf (im_orderId im) (after (addOrderMessage im) w') =
      (messagesOf (im_orderId im) w' ++ [result (addOrderMessage im) w'])%list) /\
  (forall ih,
      historyOf (ih_orderId ih) (after (addOrderStatusHistory ih) w') =
      (historyOf (ih_orderId ih) w'
       ++ [result (addOrderStatusHistory ih) w'])%list) /\
  messagesOf oid (after (clearOrderMessages oid) w') = [] /\
  (forall other, other <> oid ->
      messagesOf other (after (clearOrderMessages oid) w') =
      messagesOf other w') /\
  (forall any,
      historyOf any (after (clearOrderMessages oid) w') = historyOf any w').
Proof.
  intros Hops w'.
  destruct (logs_run ops Hops w oid) as [[ms Hms] [hs Hhs]].
  fold w' in Hms, Hhs.
  repeat match goal with |- _ /\ _ => split end.
  - now exists ms.
  - now exists hs.
  - rewrite Hms, length_app. lia.
  - rewrite Hhs, length_app. lia.
  - intros im. rewrite addOrderMessage_messagesOf. now case_decide.
  - intros ih. rewrite addOrderStatusHistory_historyOf. now case_decide.
  - rewrite messagesOf_eq. unfold_store. now rewrite lookup_delete_eq.
  - intros other Hne. rewrite !messagesOf_eq. unfold_store.
    now rewrite lookup_delete_ne.
  - reflexivity.
Qed.

(** An instance: a firing of the simulator, then a manual trigger, then a
    clear. *)
Lemma logs_append_only_witness :
  Forall (fun op => clears op = false)
         [Tick; Trigger "ORD-2024-001" (str "delivered")] /\
  (length (historyOf "ORD-2024-001" world_001)
   <= length (historyOf "ORD-2024-001"
                (after (run [Tick; Trigger "ORD-2024-001" (str "delivered")])
                       world_001)))%nat /\
  messagesOf "ORD-2024-001"
    (after (clearOrderMessages "ORD-2024-001")
       (after (run [Tick; Trigger "ORD-2024-001" (str "delivered")])
              world_001)) = [].
Proof.
  assert (Hops : Forall (fun op => clears op = false)
                        [Tick; Trigger "ORD-2024-001" (str "delivered")])
    by (repeat constructor).
  destruct (logs_append_only _ world_001 "ORD-2024-001" Hops)
    as (_ & _ & _ & Hlen & _ & _ & Hclear & _).
  split; [exact Hops|]. split; [exact Hlen|exact Hclear].
Defined.

(** *** C8: the manual trigger without a status *)

(** The route of the WebSocket table rejects a missing or empty status
    before it touches anything; otherwise it answers as the service call
    ends. *)
Lemma route_triggerUpdate_ws_guard (w : World) (oid : string)
  (st : tsstring) :
  (truthy st = false ->
   route_triggerUpdate_ws oid st w =
     (mkResponse 400 (json_error "Status is required"), w)) /\
  (truthy st = true ->
   after (route_triggerUpdate_ws oid st) w
     = after (triggerOrderUpdate oid st) w /\
   result (route_triggerUpdate_ws oid st) w =
     match result (triggerOrderUpdate oid st) w with
     | returns =>
         mkResponse 200
           (json_success (Some ("Order " ++ oid ++ " updated to "
                                ++ toString st)%string))
     | throws => mkResponse 500 (json_error "Failed to trigger order update")
     end).
Proof.
  split; intros Hst; unfold route_triggerUpdate_ws; rewrite Hst; simpl.
  - reflexivity.
  - rewrite result_bind, after_bind.
    now destruct (result (triggerOrderUpdate oid st) w).
Qed.

(** The route of the server-sent-event tables has no guard: it makes the
    service call whatever the body holds, and answers as the call ends. *)
Lemma route_triggerUpdate_sse_answer (w : World) (oid : string)
  (st : tsstring) :
  after (route_triggerUpdate_sse oid st) w
    = after (triggerOrderUpdate oid st) w /\
  result (route_triggerUpdate_sse oid st) w =
    match result (triggerOrderUpdate oid st) w with
    | returns => mkResponse 200 (json_success (Some "Order update triggered"))
    | throws => mkResponse 500 (json_error "Failed to trigger update")
    end.
Proof.
  unfold route_triggerUpdate_sse. rewrite result_bind, after_bind.
  now destruct (result (triggerOrderUpdate oid st) w).
Qed.

(** C8 (the code at the failing input). The server-sent-event tables
    initialise the service with a function. There, a request without a
    status sent for the stored order ORD-2024-001 is not rejected: the
    stored status becomes [undefined] and a history entry and a message are
    appended; the broadcast that follows throws and the route answers 500.
    With a status present the same route also answers 500, after the same
    writes. The route of the WebSocket table, whose service holds the socket
    server, answers the request without a status 400 and leaves the world as
    it was, and the request with a status 200. *)
Theorem route_triggerUpdate_sse_missing_status :
  let sse := initialized BroadcastFn world_001 in
  let ws := initialized (SocketServer [mkSocket OPEN []]) world_001 in
  let sse' := after (route_triggerUpdate_sse "ORD-2024-001" undefined) sse in
  result (route_triggerUpdate_sse "ORD-2024-001" undefined) sse
    = mkResponse 500 (json_error "Failed to trigger update") /\
  status <$> orderOf "ORD-2024-001" sse = Some (str "pending") /\
  status <$> orderOf "ORD-2024-001" sse' = Some undefined /\
  hist_status <$> historyOf "ORD-2024-001" sse' = [undefined] /\
  content <$> messagesOf "ORD-2024-001" sse'
    = ["Order status manually updated to undefined"] /\
  route_triggerUpdate_ws "ORD-2024-001" undefined ws
    = (mkResponse 400 (json_error "Status is required"), ws) /\
  result (route_triggerUpdate_sse "ORD-2024-001" (str "shipped")) sse
    = mkResponse 500 (json_error "Failed to trigger update") /\
  status <$> orderOf "ORD-2024-001"
               (after (route_triggerUpdate_sse "ORD-2024-001" (str "shipped"))
                      sse)
    = Some (str "shipped") /\
  result (route_triggerUpdate_ws "ORD-2024-001" (str "shipped")) ws
    = mkResponse 200
        (json_success (Some "Order ORD-2024-001 updated to shipped")).
Proof. cbv zeta. repeat split; vm_compute; reflexivity. Qed.

(** *** C1: the targeted fan-out *)

(** C1 (the code at the failing input). A client that connects without an
    order filter is told it is subscribed to "all_orders"; its subscription
    set is empty, and an [order_update] for any order leaves its stream
    with the handshake only, while a client that connected for that order
    receives the event. *)
Theorem all_orders_client_gets_no_order_update (o : Order) (cid : string)
  (connected : bool) (now : Z) :
  let sseClients := route_events undefined cid freshStream connected now [] in
  let handshake := connection_status connected now cid "all_orders" in
  received cid sseClients = Some [handshake] /\
  subscribedOrders <$> map_get cid sseClients = Some ∅ /\
  received cid (sseBroadcast (order_update o) sseClients) = Some [handshake] /\
  received cid
    (sseBroadcast (order_update o)
       (route_events (str (orderId o)) cid freshStream connected now []))
  = (if truthy (str (orderId o))
     then Some [connection_status connected now cid (orderId o); order_update o]
     else Some [handshake]).
Proof.
  cbv zeta. unfold received, route_events, sseBroadcast. simpl.
  rewrite !String.eqb_refl. simpl. rewrite !String.eqb_refl. simpl.
  repeat split.
  - case_decide as Hin; [set_solver|].
    simpl. now rewrite String.eqb_refl.
  - unfold subscribedToLabel. simpl.
    destruct (String.eqb (orderId o) "") eqn:E; simpl.
    + case_decide as Hin; [set_solver|].
      simpl. now rewrite String.eqb_refl.
    + case_decide as Hin; [|set_solver].
      unfold tryWrite. simpl. rewrite !String.eqb_refl. simpl.
      now rewrite String.eqb_refl.
Qed.

(** *** Who the targeted fan-out writes to *)

Section ClientMapFacts.
Context {V : Type}.
Implicit Types (k : string) (v : V) (m : list (string * V)).

Lemma map_get_None_keys k m : map_get k m = None <-> ~ In k (map_keys m).
Proof.
  induction m as [|[k0 v0] m IH]; simpl; [tauto|].
  destruct (String.eqb_spec k k0) as [->|Hne].
  - split; [discriminate|]. intros H. exfalso. apply H. now left.
  - rewrite IH. split; [intros H [Heq|Hin]; [congruence|tauto]|tauto].
Qed.

Lemma map_keys_set k v m :
  map_keys (map_set k v m) =
  match map_get k m with
  | Some _ => map_keys m
  | None => (map_keys m ++ [k])%list
  end.
Proof.
  induction m as [|[k0 v0] m IH]; simpl; [reflexivity|].
  destruct (String.eqb_spec k k0) as [->|Hne]; simpl; [reflexivity|].
  unfold map_keys in *. rewrite IH. now destruct (map_get k m).
Qed.

Lemma NoDup_keys_set k v m :
  NoDup (map_keys m) -> NoDup (map_keys (map_set k v m)).
Proof.
  intros Hm. rewrite map_keys_set.
  destruct (map_get k m) eqn:E; [exact Hm|].
  apply NoDup_app. split; [exact Hm|]. split.
  - intros x Hx Hk. apply list_elem_of_In in Hx, Hk.
    destruct Hk as [<-|[]]. now apply map_get_None_keys in E.
  - apply NoDup_singleton.
Qed.

Lemma In_keys_delete k k' m :
  In k' (map_keys (map_delete k m)) -> In k' (map_keys m).
Proof.
  induction m as [|[k0 v0] m IH]; simpl; [easy|].
  destruct (String.eqb_spec k k0) as [->|Hne]; simpl; [now right|].
  intros [H|H]; [now left|right; now apply IH].
Qed.

Lemma NoDup_keys_delete k m :
  NoDup (map_keys m) -> NoDup (map_keys (map_delete k m)).
Proof.
  induction m as [|[k0 v0] m IH]; simpl; [easy|].
  rewrite NoDup_cons. intros [Hk0 Hm].
  destruct (String.eqb_spec k k0) as [->|Hne]; simpl; [exact Hm|].
  apply NoDup_cons. split; [|now apply IH].
  intros Hin. apply Hk0. apply list_elem_of_In.
  apply list_elem_of_In in Hin. now apply In_keys_delete in Hin.
Qed.

Lemma map_get_delete_eq k m :
  NoDup (map_keys m) -> map_get k (map_delete k m) = None.
Proof.
  induction m as [|[k0 v0] m IH]; simpl; [easy|].
  rewrite NoDup_cons. intros [Hk0 Hm].
  destruct (String.eqb_spec k k0) as [->|Hne]; simpl.
  - apply map_get_None_keys. intros Hin. apply Hk0.
    now apply list_elem_of_In.
  - destruct (String.eqb_spec k k0); [congruence|]. now apply IH.
Qed.

Lemma In_map_delete k m e : In e (map_delete k m) -> In e m.
Proof.
  induction m as [|[k0 v0] m IH]; simpl; [easy|].
  destruct (String.eqb_spec k k0) as [->|Hne]; simpl; [now right|].
  intros [H|H]; [now left|right; now apply IH].
Qed.
End ClientMapFacts.

(** One visit of the [forEach] of the targeted branch. *)
Lemma visit_other (message : PushMessage) (key cid : string)
  (client : SSEClient) (clients : JsMap SSEClient) :
  clientId client = key -> key <> cid ->
  map_get cid (tryWrite message key client clients) = map_get cid clients.
Proof.
  intros Hid Hne. unfold tryWrite. destruct (writable (response client)).
  - now apply map_get_set_ne.
  - rewrite Hid. now apply map_get_delete_ne.
Qed.

Lemma visit_self (message : PushMessage) (key : string)
  (client : SSEClient) (clients : JsMap SSEClient) :
  clientId client = key -> NoDup (map_keys clients) ->
  map_get key (tryWrite message key client clients) =
  if writable (response client) then Some (write message client) else None.
Proof.
  intros Hid Hnd. unfold tryWrite. destruct (writable (response client)).
  - apply map_get_set_eq.
  - rewrite Hid. now apply map_get_delete_eq.
Qed.

Lemma visit_NoDup (message : PushMessage) (key : string)
  (client : SSEClient) (clients : JsMap SSEClient) :
  NoDup (map_keys clients) ->
  NoDup (map_keys (tryWrite message key client clients)).
Proof.
  intros Hnd. unfold tryWrite. destruct (writable (response client)).
  - now apply NoDup_keys_set.
  - now apply NoDup_keys_delete.
Qed.

(** The loop, for any choice [chosen] of the clients to write to: the
    entry of [cid] ends as its own visit left it. *)
Lemma forEach_entry (message : PushMessage) (chosen : SSEClient -> bool)
  (cid : string) (todo : JsMap SSEClient) :
  forall clients : JsMap SSEClient,
    NoDup (map_keys todo) ->
    (forall key client, In (key, client) todo -> clientId client = key) ->
    NoDup (map_keys clients) ->
    map_get cid
      (foldl (fun acc '(key, client) =>
                if chosen client then tryWrite message key client acc else acc)
             clients todo) =
    match map_get cid todo with
    | Some client =>
        if chosen client then
          if writable (response client) then Some (write message client)
          else None
        else map_get cid clients
    | None => map_get cid clients
    end.
Proof.
  induction todo as [|[key client] todo IH]; intros clients Htodo Hids Hnd;
    simpl; [reflexivity|].
  apply NoDup_cons in Htodo as [Hkey Htodo].
  assert (Hid : clientId client = key) by (apply Hids; now left).
  assert (Hids' : forall k c, In (k, c) todo -> clientId c = k)
    by (intros k c Hin; apply Hids; now right).
  assert (Hnd' : NoDup (map_keys (if chosen client
                                  then tryWrite message key client clients
                                  else clients)))
    by (destruct (chosen client); [now apply visit_NoDup|exact Hnd]).
  etransitivity; [exact (IH _ Htodo Hids' Hnd')|].
  destruct (String.eqb_spec cid key) as [->|Hne].
  - assert (Hnone : map_get key todo = None).
    { apply map_get_None_keys. intros Hin. apply Hkey.
      now apply list_elem_of_In. }
    rewrite Hnone. destruct (chosen client); [|reflexivity].
    now apply visit_self.
  - assert (Hsame : map_get cid (if chosen client
                                 then tryWrite message key client clients
                                 else clients) = map_get cid clients).
    { destruct (chosen client); [|reflexivity].
      apply visit_other; [exact Hid|congruence]. }
    rewrite Hsame. reflexivity.
Qed.

Lemma foldl_pointwise {A B} (f g : A -> B -> A) (l : list B) :
  (forall a b, f a b = g a b) -> forall a, foldl f a l = foldl g a l.
Proof.
  intros Hfg. induction l as [|b l IH]; intros a; simpl; [reflexivity|].
  now rewrite Hfg, IH.
Qed.

(** For an [order_update], a connected client is written to exactly when
    its subscription set holds the orderId of the event; a client whose
    stream is broken is dropped instead; every other client is left as it
    was. *)
Lemma sseBroadcast_order_update (o : Order) (sseClients : JsMap SSEClient)
  (cid : string) (client : SSEClient) :
  clients_wf sseClients ->
  map_get cid sseClients = Some client ->
  map_get cid (sseBroadcast (order_update o) sseClients) =
  targeted (order_update o) (orderId o) client.
Proof.
  intros [Hnd Hids] Hget. unfold sseBroadcast, targeted.
  rewrite (foldl_pointwise _
             (fun acc '(key, c) =>
                if bool_decide (orderId o ∈ subscribedOrders c)
                then tryWrite (order_update o) key c acc else acc)).
  - rewrite (forEach_entry (order_update o)
               (fun c => bool_decide (orderId o ∈ subscribedOrders c))
               cid sseClients sseClients Hnd Hids Hnd), Hget.
    case_bool_decide; case_decide; try reflexivity; contradiction.
  - intros acc [key c].
    case_bool_decide; case_decide; try reflexivity; contradiction.
Qed.

(** Any other message goes to every connected client. *)
Lemma sseBroadcast_other (message : PushMessage)
  (sseClients : JsMap SSEClient) (cid : string) (client : SSEClient) :
  (forall o, message <> order_update o) ->
  clients_wf sseClients ->
  map_get cid sseClients = Some client ->
  map_get cid (sseBroadcast message sseClients) =
  if writable (response client) then Some (write message client) else None.
Proof.
  intros Hother [Hnd Hids] Hget.
  pose proof (forEach_entry message (fun _ => true) cid sseClients sseClients
                Hnd Hids Hnd) as H.
  rewrite Hget in H.
  destruct message; [now destruct (Hother data)|exact H|exact H].
Qed.

(** *** The client map stays a map *)

Lemma clients_wf_empty : clients_wf [].
Proof. split; [constructor|intros key client []]. Qed.

Lemma clients_wf_set (key : string) (client : SSEClient)
  (sseClients : JsMap SSEClient) :
  clientId client = key -> clients_wf sseClients ->
  clients_wf (map_set key client sseClients).
Proof.
  intros Hid [Hnd Hids]. split; [now apply NoDup_keys_set|].
  intros k c Hin. apply In_map_set in Hin as [Heq|Hin]; [|now apply Hids].
  now inversion Heq; subst.
Qed.

Lemma clients_wf_delete (key : string) (sseClients : JsMap SSEClient) :
  clients_wf sseClients -> clients_wf (map_delete key sseClients).
Proof.
  intros [Hnd Hids]. split; [now apply NoDup_keys_delete|].
  intros k c Hin. apply Hids. now apply In_map_delete in Hin.
Qed.

Lemma clients_wf_tryWrite (message : PushMessage) (key : string)
  (client : SSEClient) (sseClients : JsMap SSEClient) :
  clientId client = key -> clients_wf sseClients ->
  clients_wf (tryWrite message key client sseClients).
Proof.
  intros Hid Hwf. unfold tryWrite. destruct (writable (response client)).
  - now apply clients_wf_set.
  - now apply clients_wf_delete.
Qed.

Lemma clients_wf_route_events (oid : tsstring) (cid : string)
  (res : Response) (connected : bool) (now : Z)
  (sseClients : JsMap SSEClient) :
  clients_wf sseClients ->
  clients_wf (route_events oid cid res connected now sseClients).
Proof.
  intros Hwf. unfold route_events. destruct (writable res).
  - repeat apply clients_wf_set; auto.
  - apply clients_wf_delete. now apply clients_wf_set.
Qed.

Lemma clients_wf_disconnect (cid : string) (sseClients : JsMap SSEClient) :
  clients_wf sseClients -> clients_wf (disconnect cid sseClients).
Proof. apply clients_wf_delete. Qed.

Lemma clients_wf_route_subscribe (cid oid : tsstring)
  (sseClients : JsMap SSEClient) :
  clients_wf sseClients ->
  clients_wf (route_subscribe cid oid sseClients).2.
Proof.
  intros Hwf. unfold route_subscribe.
  destruct (negb (truthy cid) || negb (truthy oid)); [exact Hwf|].
  destruct (map_get (toString cid) sseClients) as [client|] eqn:Hget;
    [|exact Hwf].
  simpl. apply clients_wf_set; [|exact Hwf].
  simpl. destruct Hwf as [_ Hids]. apply Hids. now apply map_get_In.
Qed.

Lemma clients_wf_route_unsubscribe (cid oid : tsstring)
  (sseClients : JsMap SSEClient) :
  clients_wf sseClients ->
  clients_wf (route_unsubscribe cid oid sseClients).2.
Proof.
  intros Hwf. unfold route_unsubscribe.
  destruct (negb (truthy cid) || negb (truthy oid)); [exact Hwf|].
  destruct (map_get (toString cid) sseClients) as [client|] eqn:Hget;
    [|exact Hwf].
  simpl. apply clients_wf_set; [|exact Hwf].
  simpl. destruct Hwf as [_ Hids]. apply Hids. now apply map_get_In.
Qed.

Lemma clients_wf_forEach (message : PushMessage) (chosen : SSEClient -> bool)
  (todo : JsMap SSEClient) :
  (forall key client, In (key, client) todo -> clientId client = key) ->
  forall clients : JsMap SSEClient,
    clients_wf clients ->
    clients_wf
      (foldl (fun acc '(key, client) =>
                if chosen client then tryWrite message key client acc else acc)
             clients todo).
Proof.
  induction todo as [|[key client] todo IH]; intros Hids clients Hwf; simpl;
    [exact Hwf|].
  apply IH; [intros k c Hin; apply Hids; now right|].
  destruct (chosen client); [|exact Hwf].
  apply clients_wf_tryWrite; [apply Hids; now left|exact Hwf].
Qed.

Lemma clients_wf_sseBroadcast (message : PushMessage)
  (sseClients : JsMap SSEClient) :
  clients_wf sseClients -> clients_wf (sseBroadcast message sseClients).
Proof.
  intros Hwf. pose proof Hwf as [_ Hids]. unfold sseBroadcast.
  destruct message as [o| |];
    try exact (clients_wf_forEach _ (fun _ => true) _ Hids _ Hwf).
  rewrite (foldl_pointwise _
             (fun acc '(key, c) =>
                if bool_decide (orderId o ∈ subscribedOrders c)
                then tryWrite (order_update o) key c acc else acc)).
  - now apply clients_wf_forEach.
  - intros acc [key c].
    case_bool_decide; case_decide; try reflexivity; contradiction.
Qed.

(** The first route table has no filter: every connected stream gets every
    message, an [order_update] included. *)
Lemma sseBroadcastAll_writes (message : PushMessage)
  (sseClients : list Response) :
  Forall (fun res => writable res = true) sseClients ->
  sseBroadcastAll message sseClients =
  map (fun res => mkStream true (written res ++ [message])%list) sseClients.
Proof.
  induction 1 as [|res rest Hres _ IH]; [reflexivity|].
  unfold sseBroadcastAll in *. cbn [omap list_omap]. rewrite Hres.
  simpl. f_equal. exact IH.
Qed.

(** *** The read routes *)

Lemma route_getOrder_spec (w : World) (oid : string) :
  route_getOrder oid w =
  (match orderOf oid w with
   | Some o => mkResponse 200 (json_order o)
   | None => mkResponse 404 (json_error "Order not found")
   end, w).
Proof.
  unfold route_getOrder. rewrite bind_eq.
  change (result (getOrder oid) w) with (orderOf oid w).
  now destruct (orderOf oid w).
Qed.

Lemma route_clearMessages_spec (w : World) (oid : string) :
  statusCode (result (route_clearMessages oid) w) = 200 /\
  messagesOf oid (after (route_clearMessages oid) w) = [].
Proof.
  split; [reflexivity|].
  rewrite messagesOf_eq. unfold route_clearMessages. unfold_store.
  now rewrite lookup_delete_eq.
Qed.

(** *** Limits that the amended C4 leaves out *)

(** A negative limit drops that many orders from the end of the sorted
    list, whatever the limit was meant to be. *)
Lemma getRecentOrders_negative (w : World) (n : Z) :
  n < 0 ->
  length (result (getRecentOrders (Some n)) w) =
  (length (map_values (orders (storage w))) - Z.to_nat (- n))%nat.
Proof.
  intros Hn. rewrite getRecentOrders_eq. simpl.
  rewrite slice0_negative by exact Hn.
  rewrite length_firstn, (Permutation_length (js_sort_perm _ _)). lia.
Qed.

(** The route never hands the store a zero or a missing limit. *)
Lemma route_getOrders_limit (w : World) (parsed : option Z) :
  result (route_getOrders parsed) w =
  json (json_orders
          (result (getRecentOrders
                     (Some match parsed with
                           | Some n => if n =? 0 then 10 else n
                           | None => 10
                           end)) w)).
Proof. reflexivity. Qed.

(** * More of the code *)

(** *** Orders are never removed *)

#[local] Instance keys_extend_preorder : PreOrder keys_extend.
Proof.
  split.
  - intros w. exists []. now rewrite app_nil_r.
  - intros w1 w2 w3 [m1 H1] [m2 H2]. exists (m1 ++ m2)%list.
    now rewrite H2, H1, <- app_assoc.
Qed.

Lemma keys_extend_same (w w' : World) :
  orders (storage w') = orders (storage w) -> keys_extend w w'.
Proof. intros H. exists []. now rewrite H, app_nil_r. Qed.

Lemma keys_createOrder (payload : InsertOrder) :
  steps keys_extend (createOrder payload).
Proof.
  intros w. unfold keys_extend. unfold_store. rewrite map_keys_set.
  destruct (map_get _ _); [exists []; now rewrite app_nil_r|now eexists].
Qed.

Lemma keys_updateOrder (oid : string) (updates : PartialInsertOrder) :
  steps keys_extend (updateOrder oid updates).
Proof.
  intros w. destruct (orderOf oid w) as [o|] eqn:Ho.
  - rewrite (after_updateOrder_present _ _ _ _ Ho). exists []. simpl.
    rewrite app_nil_r. eapply map_keys_set_present.
    rewrite orderOf_eq in Ho. exact Ho.
  - unfold after. rewrite (updateOrder_absent _ _ _ Ho). apply reflexivity.
Qed.

Lemma keys_addOrderMessage (im : InsertOrderMessage) :
  steps keys_extend (addOrderMessage im).
Proof. intros w. now apply keys_extend_same. Qed.

Lemma keys_addOrderStatusHistory (ih : InsertOrderStatusHistory) :
  steps keys_extend (addOrderStatusHistory ih).
Proof. intros w. now apply keys_extend_same. Qed.

Lemma keys_clearOrderMessages (oid : string) :
  steps keys_extend (clearOrderMessages oid).
Proof. intros w. now apply keys_extend_same. Qed.

Lemma keys_getOrder (oid : string) : steps keys_extend (getOrder oid).
Proof. intros w. apply reflexivity. Qed.

Lemma keys_randomIndex (n : nat) : steps keys_extend (randomIndex n).
Proof. intros w. now apply keys_extend_same. Qed.

Lemma keys_getRandomDuration : steps keys_extend getRandomDuration.
Proof. intros w. now apply keys_extend_same. Qed.

Lemma keys_broadcastToClients (message : PushMessage) :
  steps keys_extend (broadcastToClients message).
Proof.
  intros w. unfold after, broadcastToClients.
  destruct (wss w) as [[clients|]|]; now apply keys_extend_same.
Qed.

Create HintDb keys discriminated.
#[local] Hint Resolve keys_createOrder keys_updateOrder keys_addOrderMessage
  keys_addOrderStatusHistory keys_clearOrderMessages keys_getOrder
  keys_randomIndex keys_getRandomDuration keys_broadcastToClients : keys.

Lemma keys_perform (op : Op) : steps keys_extend (perform op).
Proof.
  destruct op; cbn [perform];
    try unfold simulateOrderUpdate; try unfold triggerOrderUpdate;
    walk keys_extend keys.
Qed.

Lemma keys_run (ops : list Op) : steps keys_extend (run ops).
Proof.
  induction ops as [|op ops IH]; simpl.
  - apply (steps_ret _).
  - apply (steps_bind _); [apply keys_perform|intros _; exact IH].
Qed.

Lemma orderOf_is_Some_keys (k : string) (w : World) :
  is_Some (orderOf k w) <-> In k (map_keys (orders (storage w))).
Proof.
  rewrite orderOf_eq. rewrite <- not_eq_None_Some, map_get_None_keys.
  split; [|tauto].
  intros H.
  destruct (in_dec String.string_dec k (map_keys (orders (storage w))));
    tauto.
Qed.

(** X1. No store call, simulator firing or manual trigger removes or moves
    an order: after any run, the orderIds of the store, in map order, start
    with the orderIds that were there before, every order that could be
    read can still be read, and the store holds at least as many orders. *)
Theorem orders_are_never_removed (ops : list Op) (w : World) :
  let w' := after (run ops) w in
  (exists more,
      map_keys (orders (storage w')) =
      (map_keys (orders (storage w)) ++ more)%list) /\
  (forall k, is_Some (orderOf k w) -> is_Some (orderOf k w')) /\
  (length (orders (storage w)) <= length (orders (storage w')))%nat.
Proof.
  intros w'. destruct (keys_run ops w) as [more Hmore]. fold w' in Hmore.
  split; [now exists more|]. split.
  - intros k. rewrite !orderOf_is_Some_keys, Hmore. intros Hin.
    apply in_or_app. now left.
  - assert (Hlen : forall m : JsMap Order, length m = length (map_keys m))
      by (intros m; unfold map_keys; now rewrite length_map).
    rewrite !Hlen, Hmore, length_app. lia.
Qed.

(** *** Ids and the order of the logs *)

Section LogFacts.
Context {X : Type}.
Implicit Types (l : list X) (f : X -> Z).

Lemma StronglySorted_snoc (R : X -> X -> Prop) l (x : X) :
  StronglySorted R l -> List.Forall (fun a => R a x) l ->
  StronglySorted R (l ++ [x]).
Proof.
  induction 1 as [|a l Hs IH Ha]; intros Hx; simpl.
  - repeat constructor.
  - apply List.Forall_cons_iff in Hx as [Hax Hx].
    constructor; [now apply IH|].
    apply List.Forall_app. split; [exact Ha|]. now constructor.
Qed.

Lemma ordered_log_nil (R : Z -> Z -> Prop) f (bound : Z) :
  ordered_log R f bound [].
Proof. split; constructor. Qed.

Lemma ordered_log_weaken (R : Z -> Z -> Prop) f (bound bound' : Z) l :
  (forall y, R y bound -> R y bound') ->
  ordered_log R f bound l -> ordered_log R f bound' l.
Proof.
  intros Hb [Hall Hs]. split; [|exact Hs].
  eapply List.Forall_impl; [|exact Hall]. intros x. apply Hb.
Qed.

Lemma ordered_log_snoc (R : Z -> Z -> Prop) f (bound bound' : Z) l (x : X) :
  (forall y, R y bound -> R y (f x)) ->
  R (f x) bound' ->
  (forall y, R y bound -> R y bound') ->
  ordered_log R f bound l -> ordered_log R f bound' (l ++ [x]).
Proof.
  intros Hx Hx' Hb [Hall Hs]. split.
  - apply List.Forall_app. split; [|now repeat constructor].
    eapply List.Forall_impl; [|exact Hall]. intros y. apply Hb.
  - apply StronglySorted_snoc; [exact Hs|].
    eapply List.Forall_impl; [|exact Hall]. intros y. apply Hx.
Qed.

Lemma filed_log_snoc (key : X -> string) (k : string) l (x : X) :
  key x = k -> filed_log key k l -> filed_log key k (l ++ [x]).
Proof.
  intros Hx Hl. apply List.Forall_app. split; [exact Hl|now repeat constructor].
Qed.
End LogFacts.

Lemma ids_below_step (w w' : World) :
  currentId (storage w) <= currentId (storage w') ->
  (ids_below w ->
   forall k o, In (k, o) (orders (storage w')) ->
               In (k, o) (orders (storage w)) \/
               id o < currentId (storage w')) ->
  keeps ids_below w w'.
Proof.
  intros Hid Hnew Hw k o Hin.
  destruct (Hnew Hw k o Hin) as [Hold|Hlt]; [|exact Hlt].
  specialize (Hw k o Hold). lia.
Qed.

(** A step that leaves both log maps alone and does not lower the
    counter. *)
Lemma numbered_frame (w w' : World) :
  messages (storage w') = messages (storage w) ->
  statusHistory (storage w') = statusHistory (storage w) ->
  currentId (storage w) <= currentId (storage w') ->
  keeps ids_below w w' ->
  keeps numbered w w'.
Proof.
  intros Hm Hh Hid Hids [Hbelow Hlogs]. split; [now apply Hids|].
  intros k. destruct (Hlogs k) as (Hf1 & Ho1 & Hf2 & Ho2).
  rewrite !messagesOf_eq, !historyOf_eq, Hm, Hh in *.
  split; [|split; [|split]]; try assumption;
    (eapply ordered_log_weaken; [|eassumption]); intros y; lia.
Qed.

Lemma numbered_createOrder (payload : InsertOrder) :
  steps (keeps numbered) (createOrder payload).
Proof.
  intros w. apply numbered_frame; unfold_store; try reflexivity; try lia.
  apply ids_below_step; simpl; [lia|].
  intros _ k o Hin. apply In_map_set in Hin as [Heq|Hin]; [right|now left].
  inversion Heq; subst; simpl. lia.
Qed.

Lemma numbered_updateOrder (oid : string) (updates : PartialInsertOrder) :
  steps (keeps numbered) (updateOrder oid updates).
Proof.
  intros w. destruct (orderOf oid w) as [o|] eqn:Ho.
  - rewrite (after_updateOrder_present _ _ _ _ Ho).
    apply numbered_frame; simpl; try reflexivity; try lia.
    apply ids_below_step; simpl; [lia|].
    intros Hids k o' Hin.
    apply In_map_set in Hin as [Heq|Hin]; [right|now left].
    inversion Heq; subst; simpl.
    eapply Hids. apply map_get_In. exact Ho.
  - unfold after. rewrite (updateOrder_absent _ _ _ Ho). apply reflexivity.
Qed.

Lemma numbered_same_storage (w w' : World) :
  storage w' = storage w -> keeps numbered w w'.
Proof.
  intros Hs. apply numbered_frame; rewrite ?Hs; try reflexivity; try lia.
  intros Hids k o. rewrite Hs. apply Hids.
Qed.

Lemma numbered_getOrder (oid : string) :
  steps (keeps numbered) (getOrder oid).
Proof. intros w. apply reflexivity. Qed.

Lemma numbered_randomIndex (n : nat) :
  steps (keeps numbered) (randomIndex n).
Proof. intros w. now apply numbered_same_storage. Qed.

Lemma numbered_getRandomDuration : steps (keeps numbered) getRandomDuration.
Proof. intros w. now apply numbered_same_storage. Qed.

Lemma numbered_broadcastToClients (message : PushMessage) :
  steps (keeps numbered) (broadcastToClients message).
Proof.
  intros w. unfold after, broadcastToClients.
  destruct (wss w) as [[clients|]|]; now apply numbered_same_storage.
Qed.

Lemma numbered_addOrderMessage (im : InsertOrderMessage) :
  steps (keeps numbered) (addOrderMessage im).
Proof.
  intros w [Hbelow Hlogs]. split.
  - intros k o Hin. specialize (Hbelow k o Hin).
    unfold_store. unfold_store. simpl in *. lia.
  - intros k. destruct (Hlogs k) as (Hf1 & Ho1 & Hf2 & Ho2).
    rewrite addOrderMessage_messagesOf.
    change (historyOf k (after (addOrderMessage im) w)) with (historyOf k w).
    change (currentId (storage (after (addOrderMessage im) w)))
      with (currentId (storage w) + 1).
    split; [|split; [|split]]; try assumption.
    + case_decide; [|exact Hf1]. now apply filed_log_snoc.
    + case_decide.
      * eapply ordered_log_snoc; [| | |exact Ho1]; simpl; intros; lia.
      * eapply ordered_log_weaken; [|exact Ho1]. intros y; lia.
    + eapply ordered_log_weaken; [|exact Ho2]. intros y; lia.
Qed.

Lemma numbered_addOrderStatusHistory (ih : InsertOrderStatusHistory) :
  steps (keeps numbered) (addOrderStatusHistory ih).
Proof.
  intros w [Hbelow Hlogs]. split.
  - intros k o Hin. specialize (Hbelow k o Hin).
    unfold_store. unfold_store. simpl in *. lia.
  - intros k. destruct (Hlogs k) as (Hf1 & Ho1 & Hf2 & Ho2).
    rewrite addOrderStatusHistory_historyOf.
    change (messagesOf k (after (addOrderStatusHistory ih) w))
      with (messagesOf k w).
    change (currentId (storage (after (addOrderStatusHistory ih) w)))
      with (currentId (storage w) + 1).
    split; [|split; [|split]]; try assumption.
    + eapply ordered_log_weaken; [|exact Ho1]. intros y; lia.
    + case_decide; [|exact Hf2]. now apply filed_log_snoc.
    + case_decide.
      * eapply ordered_log_snoc; [| | |exact Ho2]; simpl; intros; lia.
      * eapply ordered_log_weaken; [|exact Ho2]. intros y; lia.
Qed.

Lemma numbered_clearOrderMessages (oid : string) :
  steps (keeps numbered) (clearOrderMessages oid).
Proof.
  intros w [Hbelow Hlogs]. split; [exact Hbelow|].
  intros k. destruct (Hlogs k) as (Hf1 & Ho1 & Hf2 & Ho2).
  change (historyOf k (after (clearOrderMessages oid) w)) with (historyOf k w).
  change (currentId (storage (after (clearOrderMessages oid) w)))
    with (currentId (storage w)).
  split; [|split; [|split]]; try assumption;
    rewrite messagesOf_eq; unfold_store;
    (destruct (decide (oid = k)) as [->|Hne];
     [rewrite lookup_delete_eq; simpl;
      first [apply ordered_log_nil|constructor]
     |rewrite lookup_delete_ne by exact Hne; assumption]).
Qed.

Create HintDb numbering discriminated.
#[local] Hint Resolve numbered_createOrder numbered_updateOrder
  numbered_getOrder numbered_randomIndex numbered_getRandomDuration
  numbered_broadcastToClients numbered_addOrderMessage
  numbered_addOrderStatusHistory numbered_clearOrderMessages : numbering.







(** *** Stamps *)

Lemma timed_frame (w w' : World) :
  messages (storage w') = messages (storage w) ->
  statusHistory (storage w') = statusHistory (storage w) ->
  clock w' = clock w ->
  (reads w <= reads w')%nat ->
  keeps consistent w w' ->
  (timed w ->
   forall k o, In (k, o) (orders (storage w')) ->
               In (k, o) (orders (storage w)) \/ createdAt o <= updatedAt o) ->
  keeps timed w w'.
Proof.
  intros Hm Hh Hclock Hreads Hcons Hnew Hw.
  pose proof Hw as (Hc & Hcu & Hlogs).
  pose proof Hc as (Hmono & _ & _).
  assert (Hbound : forall y, y <= clock w (reads w) ->
                             y <= clock w' (reads w')).
  { intros y Hy. rewrite Hclock. specialize (Hmono _ _ Hreads). lia. }
  split; [now apply Hcons|]. split.
  - intros k o Hin. destruct (Hnew Hw k o Hin) as [Hold|Hle]; [|exact Hle].
    now apply (Hcu k o).
  - intros k. destruct (Hlogs k) as [Ho1 Ho2].
    rewrite !messagesOf_eq, !historyOf_eq, Hm, Hh in *.
    split; (eapply ordered_log_weaken; [exact Hbound|assumption]).
Qed.

Lemma timed_createOrder (payload : InsertOrder) :
  steps (keeps timed) (createOrder payload).
Proof.
  intros w. apply timed_frame; try reflexivity.
  - unfold_store. lia.
  - apply consistent_createOrder.
  - intros ((Hmono & _) & _) k o Hin. revert Hin. unfold_store. intros Hin.
    apply In_map_set in Hin as [Heq|Hin]; [right|now left].
    inversion Heq; subst; simpl. apply Hmono. lia.
Qed.

Lemma timed_updateOrder (oid : string) (updates : PartialInsertOrder) :
  steps (keeps timed) (updateOrder oid updates).
Proof.
  intros w. pose proof (consistent_updateOrder oid updates w) as Hcons.
  destruct (orderOf oid w) as [o|] eqn:Ho.
  - rewrite (after_updateOrder_present _ _ _ _ Ho) in *.
    apply timed_frame; simpl; try reflexivity; [lia|exact Hcons|].
    intros ((_ & _ & Hpast) & Hcu & _) k o' Hin.
    apply In_map_set in Hin as [Heq|Hin]; [right|now left].
    inversion Heq; subst; simpl.
    rewrite orderOf_eq in Ho. apply map_get_In in Ho.
    specialize (Hpast _ _ Ho). specialize (Hcu _ _ Ho). lia.
  - unfold after. rewrite (updateOrder_absent _ _ _ Ho). apply reflexivity.
Qed.

Lemma timed_getOrder (oid : string) : steps (keeps timed) (getOrder oid).
Proof. intros w. apply reflexivity. Qed.

Lemma timed_randomIndex (n : nat) : steps (keeps timed) (randomIndex n).
Proof.
  intros w. apply timed_frame; try reflexivity.
  - apply consistent_randomIndex.
  - intros _ k o Hin. now left.
Qed.

Lemma timed_getRandomDuration : steps (keeps timed) getRandomDuration.
Proof.
  intros w. apply timed_frame; try reflexivity.
  - apply consistent_getRandomDuration.
  - intros _ k o Hin. now left.
Qed.

Lemma timed_broadcastToClients (message : PushMessage) :
  steps (keeps timed) (broadcastToClients message).
Proof.
  intros w. pose proof (consistent_broadcastToClients message w) as Hcons.
  unfold after, broadcastToClients in *.
  destruct (wss w) as [[clients|]|]; try apply reflexivity.
  apply timed_frame; simpl; try reflexivity; [exact Hcons|].
  intros _ k o Hin. now left.
Qed.

Lemma timed_clearOrderMessages (oid : string) :
  steps (keeps timed) (clearOrderMessages oid).
Proof.
  intros w Hw. pose proof Hw as (Hc & Hcu & Hlogs).
  split; [now apply consistent_clearOrderMessages|]. split; [exact Hcu|].
  intros k. destruct (Hlogs k) as [Ho1 Ho2]. split; [|exact Ho2].
  rewrite messagesOf_eq. unfold_store.
  destruct (decide (oid = k)) as [->|Hne].
  - rewrite lookup_delete_eq. apply ordered_log_nil.
  - rewrite lookup_delete_ne by exact Hne. exact Ho1.
Qed.

Lemma timed_addOrderMessage (im : InsertOrderMessage) :
  steps (keeps timed) (addOrderMessage im).
Proof.
  intros w Hw. pose proof Hw as (Hc & Hcu & Hlogs).
  pose proof Hc as (Hmono & _ & _).
  assert (Hnext : clock w (reads w) <= clock w (S (reads w)))
    by (apply Hmono; lia).
  split; [now apply consistent_addOrderMessage|]. split; [exact Hcu|].
  intros k. destruct (Hlogs k) as [Ho1 Ho2].
  rewrite addOrderMessage_messagesOf.
  change (historyOf k (after (addOrderMessage im) w)) with (historyOf k w).
  change (clock (after (addOrderMessage im) w)
                (reads (after (addOrderMessage im) w)))
    with (clock w (S (reads w))).
  split.
  - case_decide.
    + eapply ordered_log_snoc; [| | |exact Ho1]; simpl; intros; lia.
    + eapply ordered_log_weaken; [|exact Ho1]. intros y; lia.
  - eapply ordered_log_weaken; [|exact Ho2]. intros y; lia.
Qed.

Lemma timed_addOrderStatusHistory (ih : InsertOrderStatusHistory) :
  steps (keeps timed) (addOrderStatusHistory ih).
Proof.
  intros w Hw. pose proof Hw as (Hc & Hcu & Hlogs).
  pose proof Hc as (Hmono & _ & _).
  assert (Hnext : clock w (reads w) <= clock w (S (reads w)))
    by (apply Hmono; lia).
  split; [now apply consistent_addOrderStatusHistory|]. split; [exact Hcu|].
  intros k. destruct (Hlogs k) as [Ho1 Ho2].
  rewrite addOrderStatusHistory_historyOf.
  change (messagesOf k (after (addOrderStatusHistory ih) w))
    with (messagesOf k w).
  change (clock (after (addOrderStatusHistory ih) w)
                (reads (after (addOrderStatusHistory ih) w)))
    with (clock w (S (reads w))).
  split.
  - eapply ordered_log_weaken; [|exact Ho1]. intros y; lia.
  - case_decide.
    + eapply ordered_log_snoc; [| | |exact Ho2]; simpl; intros; lia.
    + eapply ordered_log_weaken; [|exact Ho2]. intros y; lia.
Qed.

Create HintDb timing discriminated.
#[local] Hint Resolve timed_createOrder timed_updateOrder timed_getOrder
  timed_randomIndex timed_getRandomDuration timed_broadcastToClients
  timed_clearOrderMessages timed_addOrderMessage
  timed_addOrderStatusHistory : timing.






(** *** Orders are stored under their own orderId *)

Lemma keyed_same_orders (w w' : World) :
  orders (storage w') = orders (storage w) -> keeps keyed w w'.
Proof. intros H Hw k o. rewrite H. apply Hw. Qed.

Lemma keyed_createOrder (payload : InsertOrder) :
  steps (keeps keyed) (createOrder payload).
Proof.
  intros w Hw k o. unfold_store. intros Hin.
  apply In_map_set in Hin as [Heq|Hin]; [|now apply Hw].
  now inversion Heq.
Qed.

Lemma keyed_updateOrder (oid : string) (updates : PartialInsertOrder) :
  (forall other, upd_orderId updates = Some other -> other = oid) ->
  steps (keeps keyed) (updateOrder oid updates).
Proof.
  intros Hsame w Hw. destruct (orderOf oid w) as [o|] eqn:Ho.
  - rewrite (after_updateOrder_present _ _ _ _ Ho). intros k o'. simpl.
    intros Hin. apply In_map_set in Hin as [Heq|Hin]; [|now apply Hw].
    inversion Heq; subst; simpl.
    destruct (upd_orderId updates) as [other|] eqn:Hother; simpl.
    + now apply Hsame.
    + apply Hw. apply map_get_In. exact Ho.
  - unfold after. now rewrite (updateOrder_absent _ _ _ Ho).
Qed.

Lemma keyed_updateOrder_status (oid : string) (st : tsstring) :
  steps (keeps keyed) (updateOrder oid (statusOnly st)).
Proof. apply keyed_updateOrder. discriminate. Qed.

Lemma keyed_addOrderMessage (im : InsertOrderMessage) :
  steps (keeps keyed) (addOrderMessage im).
Proof. intros w. now apply keyed_same_orders. Qed.

Lemma keyed_addOrderStatusHistory (ih : InsertOrderStatusHistory) :
  steps (keeps keyed) (addOrderStatusHistory ih).
Proof. intros w. now apply keyed_same_orders. Qed.

Lemma keyed_clearOrderMessages (oid : string) :
  steps (keeps keyed) (clearOrderMessages oid).
Proof. intros w. now apply keyed_same_orders. Qed.

Lemma keyed_getOrder (oid : string) : steps (keeps keyed) (getOrder oid).
Proof. intros w. apply reflexivity. Qed.

Lemma keyed_randomIndex (n : nat) : steps (keeps keyed) (randomIndex n).
Proof. intros w. now apply keyed_same_orders. Qed.

Lemma keyed_getRandomDuration : steps (keeps keyed) getRandomDuration.
Proof. intros w. now apply keyed_same_orders. Qed.

Lemma keyed_broadcastToClients (message : PushMessage) :
  steps (keeps keyed) (broadcastToClients message).
Proof.
  intros w. unfold after, broadcastToClients.
  destruct (wss w) as [[clients|]|]; now apply keyed_same_orders.
Qed.

Create HintDb keying discriminated.
#[local] Hint Resolve keyed_createOrder keyed_updateOrder_status
  keyed_addOrderMessage keyed_addOrderStatusHistory keyed_clearOrderMessages
  keyed_getOrder keyed_randomIndex keyed_getRandomDuration
  keyed_broadcastToClients : keying.





(** *** Listing, clearing, creating *)

(** X6. When the limit (10 if none is given) is at least the number of
    stored orders, [getRecentOrders] returns every stored order exactly
    once, newest [updatedAt] first, and leaves the world as it was. *)
Theorem getRecentOrders_returns_all (w : World) (limit : option Z) :
  Z.of_nat (length (orders (storage w))) <= default 10 limit ->
  Permutation (result (getRecentOrders limit) w)
              (map_values (orders (storage w))) /\
  StronglySorted newestFirst (result (getRecentOrders limit) w) /\
  after (getRecentOrders limit) w = w.
Proof.
  intros Hlen. rewrite getRecentOrders_eq.
  assert (Hall : slice0 (js_sort byUpdatedAtDesc
                           (map_values (orders (storage w))))
                        (default 10 limit)
                 = js_sort byUpdatedAtDesc (map_values (orders (storage w)))).
  { rewrite slice0_nonneg by lia. apply firstn_all2.
    rewrite (Permutation_length (js_sort_perm _ _)).
    unfold map_values. rewrite length_map. lia. }
  rewrite Hall. split; [apply js_sort_perm|]. split; [|reflexivity].
  exact (js_sort_sorted updatedAt _).
Qed.

(** An instance: the two default orders, no limit given. *)
Lemma getRecentOrders_returns_all_witness :
  Z.of_nat (length (orders (storage world_002))) <= default 10 None /\
  Permutation (result (getRecentOrders None) world_002)
              (map_values (orders (storage world_002))).
Proof.
  assert (H : Z.of_nat (length (orders (storage world_002)))
              <= default 10 None) by (vm_compute; discriminate).
  split; [exact H|].
  exact (proj1 (getRecentOrders_returns_all world_002 None H)).
Defined.



(** X8. [createOrder] touches one orderId: every other order reads as
    before, both logs of every order are as before, and the counter moves
    by one. When the orderId is new, the order goes last in the map, so it
    comes after all the others among orders updated in the same
    millisecond. *)
Theorem createOrder_frame (w : World) (payload : InsertOrder) :
  let w' := after (createOrder payload) w in
  (forall k, k <> ins_orderId payload -> orderOf k w' = orderOf k w) /\
  (forall k, messagesOf k w' = messagesOf k w /\
             historyOf k w' = historyOf k w) /\
  currentId (storage w') = currentId (storage w) + 1 /\
  (orderOf (ins_orderId payload) w = None ->
   orders (storage w') =
   (orders (storage w)
    ++ [(ins_orderId payload, result (createOrder payload) w)])%list).
Proof.
  cbv zeta. repeat match goal with |- _ /\ _ => split end; try reflexivity.
  - intros k Hne. rewrite !orderOf_eq. unfold_store.
    apply map_get_set_ne. congruence.
  - intros k. split; reflexivity.
  - rewrite orderOf_eq. intros Hnone. unfold_store.
    now apply map_set_absent.
Qed.

(** An instance: a third order is created beside the two default ones. *)
Lemma createOrder_frame_witness :
  orderOf (ins_orderId order_003) world_002 = None /\
  map_keys (orders (storage (after (createOrder order_003) world_002)))
    = ["ORD-2024-001"; "ORD-2024-002"; "ORD-2024-003"].
Proof.
  assert (H : orderOf (ins_orderId order_003) world_002 = None)
    by reflexivity.
  split; [exact H|].
  rewrite (proj2 (proj2 (proj2 (createOrder_frame world_002 order_003))) H).
  reflexivity.
Defined.

(** *** The simulator *)

Lemma tickTarget_sample (w : World) :
  exists oid, tickTarget w = Some oid /\ In oid sampleOrders.
Proof.
  unfold tickTarget.
  assert (Hlt : (random w (draws w) mod length sampleOrders
                 < length sampleOrders)%nat)
    by (apply Nat.mod_upper_bound; discriminate).
  destruct (lookup_lt_is_Some_2 _ _ Hlt) as [oid Hoid].
  exists oid. split; [exact Hoid|].
  apply list_elem_of_In. eapply list_elem_of_lookup_2. exact Hoid.
Qed.

Lemma simulateOrderUpdate_absent (w : World) (oid : string) :
  tickTarget w = Some oid ->
  orderOf oid w = None ->
  after simulateOrderUpdate w = after (randomIndex (length sampleOrders)) w.
Proof.
  intros Htarget Ho. unfold simulateOrderUpdate.
  rewrite after_bind.
  change (result (randomIndex (length sampleOrders)) w)
    with (random w (draws w) mod length sampleOrders)%nat.
  unfold tickTarget in Htarget. rewrite Htarget.
  rewrite after_bind.
  change (result (getOrder oid) (after (randomIndex (length sampleOrders)) w))
    with (orderOf oid w).
  rewrite Ho. reflexivity.
Qed.

(** X9. A firing of the simulator picks one of the three fixed orderIds
    and touches nothing else: every order stored under another orderId,
    and both logs of every other orderId, read after the firing as they did
    before. *)
Theorem tick_touches_only_its_target (w : World) :
  exists oid,
    tickTarget w = Some oid /\
    In oid ["ORD-2024-001"; "ORD-2024-002"; "ORD-2024-003"] /\
    forall k, k <> oid ->
      orderOf k (after simulateOrderUpdate w) = orderOf k w /\
      messagesOf k (after simulateOrderUpdate w) = messagesOf k w /\
      historyOf k (after simulateOrderUpdate w) = historyOf k w.
Proof.
  destruct (tickTarget_sample w) as (oid & Htarget & Hin).
  exists oid. split; [exact Htarget|]. split; [exact Hin|].
  intros k Hne. destruct (orderOf oid w) as [o|] eqn:Ho.
  - destruct (truthy (readProperty statusProgression (status o))) eqn:Hnext.
    + rewrite (simulateOrderUpdate_moves _ _ _ Htarget Ho Hnext).
      rewrite !orderOf_eq, (messagesOf_eq k (mkWorld _ _ _ _ _ _ _)),
        (historyOf_eq k (mkWorld _ _ _ _ _ _ _)). simpl.
      rewrite map_get_set_ne, !lookup_insert_ne by congruence.
      repeat split.
    + rewrite (simulateOrderUpdate_target _ _ _ Htarget Ho). cbv zeta.
      rewrite Hnext. repeat split.
  - rewrite (simulateOrderUpdate_absent _ _ Htarget Ho). repeat split.
Qed.

(** X10. When the orderId that the simulator picks is not stored, the
    firing ends after the lookup: the store, the sockets and the clock
    reads are as before, and only the one random draw was consumed. *)
Theorem tick_on_missing_order (w : World) (oid : string) :
  tickTarget w = Some oid ->
  orderOf oid w = None ->
  let w' := after simulateOrderUpdate w in
  storage w' = storage w /\ wss w' = wss w /\ reads w' = reads w /\
  draws w' = S (draws w).
Proof.
  intros Htarget Ho. cbv zeta.
  rewrite (simulateOrderUpdate_absent _ _ Htarget Ho). repeat split.
Qed.

(** An instance: a firing on the empty store of start-up. *)
Lemma tick_on_missing_order_witness :
  tickTarget (initWorld tickingClock firstIndex) = Some "ORD-2024-001" /\
  orderOf "ORD-2024-001" (initWorld tickingClock firstIndex) = None /\
  storage (after simulateOrderUpdate (initWorld tickingClock firstIndex))
    = newMemStorage.
Proof.
  assert (Ht : tickTarget (initWorld tickingClock firstIndex)
               = Some "ORD-2024-001") by (vm_compute; reflexivity).
  assert (Ho : orderOf "ORD-2024-001" (initWorld tickingClock firstIndex)
               = None) by reflexivity.
  split; [exact Ht|]. split; [exact Ho|].
  exact (proj1 (tick_on_missing_order _ _ Ht Ho)).
Defined.

Lemma progressed_stuck (n : nat) (st : tsstring) :
  truthy (readProperty statusProgression st) = false -> progressed n st = st.
Proof. intros H. destruct n; simpl; [reflexivity|now rewrite H]. Qed.

Lemma progressed_next (n : nat) (st : tsstring) :
  truthy (readProperty statusProgression st) = true ->
  progressed (S n) st = progressed n (readProperty statusProgression st).
Proof. intros H. simpl. now rewrite H. Qed.

Lemma progressed_S (n : nat) (st : tsstring) :
  progressed (S n) st = progressed n (progressed 1 st).
Proof.
  simpl. destruct (truthy (readProperty statusProgression st)) eqn:E;
    [reflexivity|].
  symmetry. now apply progressed_stuck.
Qed.

Lemma progressed_from_pending (n : nat) :
  (4 <= n)%nat -> progressed n (str "pending") = str "delivered".
Proof.
  intros Hn. destruct n as [|[|[|[|n]]]]; try lia.
  do 4 (rewrite progressed_next by (rewrite successor_spec; reflexivity);
        rewrite successor_spec; cbn [String.eqb Ascii.eqb Bool.eqb]).
  apply progressed_stuck. rewrite successor_spec. reflexivity.
Qed.

(** What one firing does to the order it picks. *)
Lemma tick_on_target (w : World) (oid : string) (o : Order) :
  tickTarget w = Some oid ->
  orderOf oid w = Some o ->
  exists o',
    orderOf oid (after simulateOrderUpdate w) = Some o' /\
    status o' = progressed 1 (status o) /\
    id o' = id o /\ orderId o' = orderId o /\
    customerId o' = customerId o /\ customerName o' = customerName o /\
    totalAmount o' = totalAmount o /\ itemCount o' = itemCount o /\
    createdAt o' = createdAt o.
Proof.
  intros Htarget Ho. simpl.
  destruct (truthy (readProperty statusProgression (status o))) eqn:Hnext.
  - rewrite (simulateOrderUpdate_moves _ _ _ Htarget Ho Hnext).
    eexists. split.
    { rewrite orderOf_eq. simpl. apply map_get_set_eq. }
    repeat split.
  - rewrite (simulateOrderUpdate_target _ _ _ Htarget Ho). cbv zeta.
    rewrite Hnext.
    exists o. split; [exact Ho|]. repeat split.
Qed.

(** X11. When each of [n] successive firings of the simulator picks the
    same stored order (whatever the draws for the duration labels are), the
    firings move its status [n] steps along the progression map as the code
    reads it, and no further than where the lookup finds nothing; they
    leave its id, its payload fields and its [createdAt] alone. A pending
    order is delivered after four firings and stays delivered. *)
Theorem ticks_walk_the_chain (n : nat) (w : World) (oid : string)
  (o : Order) :
  picks oid n w ->
  orderOf oid w = Some o ->
  exists o',
    orderOf oid (after (run (replicate n Tick)) w) = Some o' /\
    status o' = progressed n (status o) /\
    id o' = id o /\ orderId o' = orderId o /\
    customerId o' = customerId o /\ customerName o' = customerName o /\
    totalAmount o' = totalAmount o /\ itemCount o' = itemCount o /\
    createdAt o' = createdAt o /\
    (status o = str "pending" -> (4 <= n)%nat -> status o' = str "delivered").
Proof.
  intros Hpick Ho.
  assert (Hmain : exists o',
    orderOf oid (after (run (replicate n Tick)) w) = Some o' /\
    status o' = progressed n (status o) /\
    id o' = id o /\ orderId o' = orderId o /\
    customerId o' = customerId o /\ customerName o' = customerName o /\
    totalAmount o' = totalAmount o /\ itemCount o' = itemCount o /\
    createdAt o' = createdAt o).
  { revert w o Hpick Ho. induction n as [|n IH]; intros w o Hpick Ho.
    - exists o. split; [exact Ho|]. repeat split.
    - cbn [replicate run perform]. rewrite after_bind.
      destruct Hpick as [Htarget Hrest].
      destruct (tick_on_target w oid o Htarget Ho)
        as (o1 & Ho1 & Hst1 & Hid1 & Hoid1 & Hc1 & Hn1 & Ht1 & Hi1 & Hcr1).
      destruct (IH (after simulateOrderUpdate w) o1 Hrest Ho1)
        as (o' & Ho' & Hst' & H').
      exists o'. split; [exact Ho'|]. split.
      + now rewrite Hst', Hst1, <- progressed_S.
      + destruct H' as (? & ? & ? & ? & ? & ? & ?).
        repeat split; congruence. }
  destruct Hmain as (o' & Ho' & Hst' & H').
  exists o'. split; [exact Ho'|]. split; [exact Hst'|].
  destruct H' as (? & ? & ? & ? & ? & ? & ?).
  repeat (split; [assumption|]).
  intros Hpending Hn. rewrite Hst', Hpending. now apply progressed_from_pending.
Qed.

(** An instance: the default pending order, on draws that pick it at every
    firing and pick the fifth label at every advance, after five
    firings. *)
Lemma ticks_walk_the_chain_witness :
  picks "ORD-2024-001" 5 world_alternating /\
  orderOf "ORD-2024-001" world_alternating
    = Some (result (createOrder order_001)
              (initWorld tickingClock alternating)) /\
  status <$> orderOf "ORD-2024-001"
               (after (run (replicate 5 Tick)) world_alternating)
    = Some (str "delivered").
Proof.
  assert (Hpick : picks "ORD-2024-001" 5 world_alternating)
    by (cbn [picks]; repeat split; vm_compute; reflexivity).
  assert (Ho : orderOf "ORD-2024-001" world_alternating
               = Some (result (createOrder order_001)
                         (initWorld tickingClock alternating)))
    by reflexivity.
  split; [exact Hpick|]. split; [exact Ho|].
  destruct (ticks_walk_the_chain 5 world_alternating "ORD-2024-001" _ Hpick Ho)
    as (o' & Ho' & _ & _ & _ & _ & _ & _ & _ & _ & Hd).
  rewrite Ho'. simpl. f_equal. apply Hd; [reflexivity|lia].
Defined.

(** *** Labels, titles and descriptions *)

Lemma getRandomDuration_label (w : World) :
  exists label,
    result getRandomDuration w = Some label /\ In label durations /\
    orNull (Some label) = Some label.
Proof.
  unfold result, getRandomDuration, bind, randomIndex, ret. simpl.
  assert (Hlt : (random w (draws w) mod 6 < length durations)%nat)
    by (apply Nat.mod_upper_bound; discriminate).
  destruct (lookup_lt_is_Some_2 _ _ Hlt) as [label Hlabel].
  exists label. split; [exact Hlabel|].
  assert (Hin : In label durations)
    by (apply list_elem_of_In; eapply list_elem_of_lookup_2; exact Hlabel).
  split; [exact Hin|].
  simpl in Hin. destruct Hin as [<-|[<-|[<-|[<-|[<-|[<-|[]]]]]]]; reflexivity.
Qed.

(** X12. [getRandomDuration] always returns one of its six labels, never
    [undefined]; so the history entry that a manual trigger appends for a
    stored order always carries one of the six labels as its duration and
    never [null]. *)
Theorem duration_label_is_never_missing (w : World) :
  (exists label,
      result getRandomDuration w = Some label /\
      In label ["2m"; "5m"; "15m"; "30m"; "1h"; "2h"]) /\
  forall oid newStatus o,
    orderOf oid w = Some o ->
    exists h label,
      historyOf oid (after (triggerOrderUpdate oid newStatus) w)
        = (historyOf oid w ++ [h])%list /\
      duration h = Some label /\
      In label ["2m"; "5m"; "15m"; "30m"; "1h"; "2h"].
Proof.
  split.
  - destruct (getRandomDuration_label w) as (label & Hres & Hin & _).
    now exists label.
  - intros oid newStatus o Ho.
    rewrite (triggerOrderUpdate_present _ _ _ _ Ho).
    destruct (getRandomDuration_label w) as (label & Hres & Hin & Hnull).
    unfold result, getRandomDuration, bind, randomIndex, ret in Hres.
    simpl in Hres.
    eexists. exists label. split.
    { rewrite (historyOf_eq oid (mkWorld _ _ _ _ _ _ _)). simpl.
      rewrite lookup_insert_eq. reflexivity. }
    split; [|exact Hin]. simpl. rewrite Hres. exact Hnull.
Qed.

(** An instance: a manual trigger on the default order. *)
Lemma duration_label_is_never_missing_witness :
  orderOf "ORD-2024-001" world_001
    = Some (result (createOrder order_001)
              (initWorld tickingClock firstIndex)) /\
  exists h label,
    historyOf "ORD-2024-001"
      (after (triggerOrderUpdate "ORD-2024-001" (str "shipped")) world_001)
      = (historyOf "ORD-2024-001" world_001 ++ [h])%list /\
    duration h = Some label /\
    In label ["2m"; "5m"; "15m"; "30m"; "1h"; "2h"].
Proof.
  assert (Ho : orderOf "ORD-2024-001" world_001
               = Some (result (createOrder order_001)
                         (initWorld tickingClock firstIndex)))
    by reflexivity.
  split; [exact Ho|].
  exact (proj2 (duration_label_is_never_missing world_001)
           "ORD-2024-001" (str "shipped") _ Ho).
Defined.

(** X13. The title and the description of a status are the table entries
    for the six statuses of the schema. For a value that names a property
    of [Object.prototype], such as [constructor], they are not texts at
    all but the inherited value. For every other value, [undefined] and the
    inherited values themselves included, they are the generic "Status
    Update" and "Status has been updated.". *)
Theorem status_texts_fall_back (st : tsstring) :
  let known := ["pending"; "confirmed"; "processing"; "shipped";
                "delivered"; "cancelled"] in
  (getStatusTitle (str "pending") = str "Order Placed" /\
   getStatusTitle (str "confirmed") = str "Order Confirmed" /\
   getStatusTitle (str "processing") = str "Processing" /\
   getStatusTitle (str "shipped") = str "Shipped" /\
   getStatusTitle (str "delivered") = str "Delivered" /\
   getStatusTitle (str "cancelled") = str "Cancelled") /\
  (getStatusDescription (str "pending") =
     str "Your order has been placed and is awaiting confirmation." /\
   getStatusDescription (str "confirmed") =
     str "Your order has been confirmed and is being prepared for processing." /\
   getStatusDescription (str "processing") =
     str "Items are being prepared and packaged for shipment." /\
   getStatusDescription (str "shipped") =
     str "Your order has been shipped and is on its way." /\
   getStatusDescription (str "delivered") =
     str "Your order has been delivered successfully." /\
   getStatusDescription (str "cancelled") =
     str "Your order has been cancelled.") /\
  (In (toString st) objectPrototype ->
   getStatusTitle st = inherited (toString st) /\
   getStatusDescription st = inherited (toString st)) /\
  (~ In (toString st) known -> ~ In (toString st) objectPrototype ->
   getStatusTitle st = str "Status Update" /\
   getStatusDescription st = str "Status has been updated.") /\
  getStatusTitle undefined = str "Status Update" /\
  (forall key, getStatusTitle (inherited key) = str "Status Update").
Proof.
  cbv zeta.
  split; [repeat split|]. split; [repeat split|].
  split; [|split; [|split; [reflexivity|apply title_of_inherited]]].
  - intros Hin. unfold getStatusTitle, getStatusDescription, titles,
      descriptions.
    assert (Hout : ~ In (toString st)
                     ["pending"; "confirmed"; "processing"; "shipped";
                      "delivered"; "cancelled"]).
    { intros Hk. unfold objectPrototype in Hin. simpl in Hin, Hk.
      repeat (destruct Hk as [Hk|Hk];
              [rewrite <- Hk in Hin;
               repeat (destruct Hin as [Hin|Hin]; [discriminate Hin|]);
               exact Hin|]).
      exact Hk. }
    rewrite !readProperty_miss by exact Hout.
    rewrite is_inherited by exact Hin. now split.
  - intros Hout Hproto. unfold getStatusTitle, getStatusDescription, titles,
      descriptions.
    rewrite !readProperty_miss by exact Hout.
    rewrite not_inherited by exact Hproto. now split.
Qed.

(** An instance: a status outside the schema, and the name of an inherited
    property. *)
Lemma status_texts_fall_back_witness :
  getStatusTitle (str "returned") = str "Status Update" /\
  getStatusTitle (str "constructor") = inherited "constructor" /\
  getStatusDescription (str "toString") = inherited "toString".
Proof.
  split; [|split].
  - apply (proj1 (proj2 (proj2 (proj2 (status_texts_fall_back (str "returned")))))).
    + simpl. intros H.
      repeat (destruct H as [H|H]; [discriminate H|]). exact H.
    + unfold objectPrototype. simpl. intros H.
      repeat (destruct H as [H|H]; [discriminate H|]). exact H.
  - apply (proj1 (proj2 (proj2 (status_texts_fall_back (str "constructor"))))).
    unfold objectPrototype. simpl. tauto.
  - apply (proj1 (proj2 (proj2 (status_texts_fall_back (str "toString"))))).
    unfold objectPrototype. simpl. tauto.
Defined.

(** *** What reaches the sockets *)

Lemma socket_extends_refl (c : WebSocket) : socket_extends c c.
Proof.
  split; [reflexivity|]. exists []. rewrite app_nil_r.
  split; [reflexivity|]. split; [constructor|reflexivity].
Qed.

Lemma socket_extends_trans (c1 c2 c3 : WebSocket) :
  socket_extends c1 c2 -> socket_extends c2 c3 -> socket_extends c1 c3.
Proof.
  intros [Hr1 (m1 & Hs1 & Hu1 & Hc1)] [Hr2 (m2 & Hs2 & Hu2 & Hc2)].
  split; [congruence|]. exists (m1 ++ m2)%list.
  split; [now rewrite Hs2, Hs1, <- app_assoc|]. split.
  - apply List.Forall_app. now split.
  - intros Hclosed. rewrite Hc1 by exact Hclosed.
    rewrite Hc2 by (rewrite Hr1; exact Hclosed). reflexivity.
Qed.

#[local] Instance sockets_extend_preorder : PreOrder sockets_extend.
Proof.
  split.
  - intros w. unfold sockets_extend.
    destruct (wss w) as [[clients|]|]; try exact I.
    induction clients; constructor; [apply socket_extends_refl|assumption].
  - intros w1 w2 w3. unfold sockets_extend.
    destruct (wss w1) as [[c1|]|], (wss w2) as [[c2|]|],
      (wss w3) as [[c3|]|]; try tauto.
    intros H12 H23. eapply Forall2_trans; [|exact H12|exact H23].
    apply socket_extends_trans.
Qed.

Lemma sockets_extend_same (w w' : World) :
  wss w' = wss w -> sockets_extend w w'.
Proof.
  intros H. pose proof (reflexivity (R := sockets_extend) w) as Hr.
  unfold sockets_extend in *. now rewrite H.
Qed.

Lemma sockets_createOrder (payload : InsertOrder) :
  steps sockets_extend (createOrder payload).
Proof. intros w. now apply sockets_extend_same. Qed.

Lemma sockets_updateOrder (oid : string) (updates : PartialInsertOrder) :
  steps sockets_extend (updateOrder oid updates).
Proof.
  intros w. destruct (orderOf oid w) as [o|] eqn:Ho.
  - rewrite (after_updateOrder_present _ _ _ _ Ho).
    now apply sockets_extend_same.
  - unfold after. rewrite (updateOrder_absent _ _ _ Ho). apply reflexivity.
Qed.

Lemma sockets_addOrderMessage (im : InsertOrderMessage) :
  steps sockets_extend (addOrderMessage im).
Proof. intros w. now apply sockets_extend_same. Qed.

Lemma sockets_addOrderStatusHistory (ih : InsertOrderStatusHistory) :
  steps sockets_extend (addOrderStatusHistory ih).
Proof. intros w. now apply sockets_extend_same. Qed.

Lemma sockets_clearOrderMessages (oid : string) :
  steps sockets_extend (clearOrderMessages oid).
Proof. intros w. now apply sockets_extend_same. Qed.

Lemma sockets_getOrder (oid : string) : steps sockets_extend (getOrder oid).
Proof. intros w. apply reflexivity. Qed.

Lemma sockets_randomIndex (n : nat) : steps sockets_extend (randomIndex n).
Proof. intros w. now apply sockets_extend_same. Qed.

Lemma sockets_getRandomDuration : steps sockets_extend getRandomDuration.
Proof. intros w. now apply sockets_extend_same. Qed.

Lemma sockets_broadcast_order_update (o : Order) :
  steps sockets_extend (broadcastToClients (order_update o)).
Proof.
  intros w. unfold after, broadcastToClients, sockets_extend.
  destruct (wss w) as [[clients|]|] eqn:E; simpl; try now rewrite E.
  clear E. induction clients as [|c clients IH]; simpl; [constructor|].
  constructor; [|exact IH].
  destruct c as [[] sent0]; simpl;
    try apply socket_extends_refl.
  split; [reflexivity|]. exists [order_update o]. simpl.
  split; [reflexivity|]. split; [repeat constructor|congruence].
Qed.

Create HintDb sockets discriminated.
#[local] Hint Resolve sockets_createOrder sockets_updateOrder
  sockets_addOrderMessage sockets_addOrderStatusHistory
  sockets_clearOrderMessages sockets_getOrder sockets_randomIndex
  sockets_getRandomDuration sockets_broadcast_order_update : sockets.

Lemma sockets_perform (op : Op) : steps sockets_extend (perform op).
Proof.
  destruct op; cbn [perform];
    try unfold simulateOrderUpdate; try unfold triggerOrderUpdate;
    walk sockets_extend sockets.
Qed.

Lemma sockets_run (ops : list Op) : steps sockets_extend (run ops).
Proof.
  induction ops as [|op ops IH]; simpl.
  - apply (steps_ret _).
  - apply (steps_bind _); [apply sockets_perform|intros _; exact IH].
Qed.

(** X14. Whatever the store calls, simulator firings and manual triggers
    of a run, the service keeps the sockets it was given: none is added,
    dropped or moved and none changes state; what was sent on a socket
    stays, in order, and is followed only by [order_update] events; a
    socket that is not open is sent nothing; a service without a socket
    server stays without one, and a service that was handed a function
    keeps it. *)
Theorem sockets_only_get_order_updates (ops : list Op) (w : World) :
  match wss w, wss (after (run ops) w) with
  | Some (SocketServer clients), Some (SocketServer clients') =>
      Forall2 (fun c c' =>
                 readyState c' = readyState c /\
                 exists more,
                   sent c' = (sent c ++ more)%list /\
                   Forall is_order_update more /\
                   (readyState c <> OPEN -> more = []))
              clients clients'
  | Some BroadcastFn, Some BroadcastFn => True
  | None, None => True
  | _, _ => False
  end.
Proof. exact (sockets_run ops w). Qed.

(** X15. The event of a status change carries the order as it is stored
    after the change: when a manual trigger succeeds, or a firing of the
    simulator advances an order, every open socket is sent exactly one
    [order_update] whose data is the record that [getOrder] then returns,
    and the other sockets are sent nothing. *)
Theorem broadcast_carries_the_stored_order (w : World)
  (clients : list WebSocket) :
  wss w = Some (SocketServer clients) ->
  (forall oid newStatus o,
      orderOf oid w = Some o ->
      let w' := after (triggerOrderUpdate oid newStatus) w in
      exists o',
        orderOf oid w' = Some o' /\
        wss w' =
        Some (SocketServer
                (map (fun c => match readyState c with
                               | OPEN => mkSocket OPEN
                                           (sent c ++ [order_update o'])%list
                               | _ => c
                               end) clients))) /\
  (forall oid o next,
      tickTarget w = Some oid ->
      orderOf oid w = Some o ->
      statusProgression !! toString (status o) = Some next ->
      let w' := after simulateOrderUpdate w in
      exists o',
        orderOf oid w' = Some o' /\
        wss w' =
        Some (SocketServer
                (map (fun c => match readyState c with
                               | OPEN => mkSocket OPEN
                                           (sent c ++ [order_update o'])%list
                               | _ => c
                               end) clients))).
Proof.
  intros Hwss.
  assert (Hsend : forall o',
            sendToOpen (order_update o') clients =
            map (fun c => match readyState c with
                          | OPEN => mkSocket OPEN
                                      (sent c ++ [order_update o'])%list
                          | _ => c
                          end) clients).
  { intros o'. unfold sendToOpen. apply map_ext. intros [[] s]; reflexivity. }
  split.
  - intros oid newStatus o Ho. cbv zeta.
    rewrite (triggerOrderUpdate_present _ _ _ _ Ho).
    eexists. split; [rewrite orderOf_eq; simpl; apply map_get_set_eq|].
    simpl. rewrite Hwss. simpl. now rewrite Hsend.
  - intros oid o next Htarget Ho Hnext. cbv zeta.
    rewrite (simulateOrderUpdate_advances _ _ _ _ Htarget Ho Hnext).
    eexists. split; [rewrite orderOf_eq; simpl; apply map_get_set_eq|].
    simpl. rewrite Hwss. simpl. now rewrite Hsend.
Qed.

(** An instance: one open and one closed socket, a manual trigger on the
    default order. *)
Lemma broadcast_carries_the_stored_order_witness :
  let w := set_wss (Some (SocketServer [mkSocket OPEN []; mkSocket CLOSED []]))
                   world_001 in
  let w' := after (triggerOrderUpdate "ORD-2024-001" (str "shipped")) w in
  wss w = Some (SocketServer [mkSocket OPEN []; mkSocket CLOSED []]) /\
  exists o',
    orderOf "ORD-2024-001" w' = Some o' /\
    wss w' = Some (SocketServer [mkSocket OPEN [order_update o'];
                                 mkSocket CLOSED []]).
Proof.
  cbv zeta. split; [reflexivity|].
  exact (proj1 (broadcast_carries_the_stored_order
                  (set_wss (Some (SocketServer
                                    [mkSocket OPEN []; mkSocket CLOSED []]))
                           world_001)
                  [mkSocket OPEN []; mkSocket CLOSED []] eq_refl)
           "ORD-2024-001" (str "shipped") _ eq_refl).
Defined.

(** *** The life cycle of the service *)

(** X16. [disconnect] of the mock service clears the interval it holds and
    reports disconnected, and doing it twice is doing it once; it keeps the
    store and what it was initialised with, so a later manual trigger
    still reaches the sockets. For a service initialised once, nothing
    fires after [disconnect]; initialised twice, the interval of the first
    initialisation is not cleared and keeps firing. *)
Theorem service_disconnect_spec (s : MockKafkaService.t)
  (transport transport' : Transport) (w : World) :
  let stopped := MockKafkaService.disconnect s in
  MockKafkaService.disconnect stopped = stopped /\
  isConnected (MockKafkaService.world stopped) = false /\
  MockKafkaService.messageInterval stopped = None /\
  storage (MockKafkaService.world stopped)
    = storage (MockKafkaService.world s) /\
  wss (MockKafkaService.world stopped) = wss (MockKafkaService.world s) /\
  (let once := MockKafkaService.initialize transport
                 (MockKafkaService.create w) in
   isConnected (MockKafkaService.world once) = true /\
   wss (MockKafkaService.world once) = Some transport /\
   MockKafkaService.armed once = [0%nat] /\
   MockKafkaService.armed (MockKafkaService.disconnect once) = [] /\
   forall handle,
     MockKafkaService.fire handle (MockKafkaService.disconnect once)
     = MockKafkaService.disconnect once) /\
  (let twice := MockKafkaService.initialize transport'
                  (MockKafkaService.initialize transport
                     (MockKafkaService.create w)) in
   MockKafkaService.armed (MockKafkaService.disconnect twice) = [0%nat]).
Proof.
  cbv zeta. destruct s as [sw [handle|] running given];
    repeat match goal with |- _ /\ _ => split end; try reflexivity.
Qed.

(** *** Start-up *)

Lemma no_recent_order (w : World) :
  length (result (getRecentOrders (Some 5)) w) = 0%nat <->
  orders (storage w) = [].
Proof.
  rewrite getRecentOrders_eq. simpl. rewrite slice0_nonneg by lia.
  rewrite length_firstn, (Permutation_length (js_sort_perm _ _)).
  unfold map_values. rewrite length_map.
  destruct (orders (storage w)); simpl; split; intros H;
    try reflexivity; try discriminate; lia.
Qed.

Lemma createDefaultOrders_nonempty (w : World) :
  orders (storage w) <> [] -> createDefaultOrders w = (tt, w).
Proof.
  intros Hne. unfold createDefaultOrders. rewrite bind_eq.
  destruct (Nat.eqb_spec (length (result (getRecentOrders (Some 5)) w)) 0)
    as [Hzero|_]; [|reflexivity].
  now apply no_recent_order in Hzero.
Qed.

Lemma createDefaultOrders_empty (w : World) :
  orders (storage w) = [] ->
  after createDefaultOrders w =
  after (createOrder order_001 ;;; createOrder order_002 ;;;
         createOrder order_003 ;;; ret tt) w.
Proof.
  intros Hempty. unfold createDefaultOrders. rewrite after_bind.
  destruct (Nat.eqb_spec (length (result (getRecentOrders (Some 5)) w)) 0)
    as [_|Hpos]; [reflexivity|].
  now apply no_recent_order in Hempty.
Qed.

Lemma createDefaultOrders_keys (w : World) :
  orders (storage w) = [] ->
  map_keys (orders (storage (after createDefaultOrders w))) = sampleOrders.
Proof.
  intros Hempty. rewrite (createDefaultOrders_empty _ Hempty).
  destruct w as [[stored ms hs next] ? ? ? ? ? ?]. simpl in Hempty.
  subst stored. reflexivity.
Qed.

(** X17. Start-up seeding: on a store without orders it creates the three
    default orders, under exactly the orderIds the simulator draws from, in
    that order, as pending, confirmed and processing, and touches no log;
    on a store that holds any order it does nothing; so seeding a second
    time never changes anything. *)
Theorem createDefaultOrders_spec (w : World) :
  let w' := after createDefaultOrders w in
  (orders (storage w) = [] ->
   map (fun e => (e.1, status e.2)) (orders (storage w'))
   = [("ORD-2024-001", str "pending");
      ("ORD-2024-002", str "confirmed");
      ("ORD-2024-003", str "processing")] /\
   map_keys (orders (storage w')) = sampleOrders /\
   messages (storage w') = messages (storage w) /\
   statusHistory (storage w') = statusHistory (storage w)) /\
  (orders (storage w) <> [] -> createDefaultOrders w = (tt, w)) /\
  after createDefaultOrders w' = w'.
Proof.
  cbv zeta. split; [|split].
  - intros Hempty. split; [|split; [now apply createDefaultOrders_keys|]].
    + rewrite (createDefaultOrders_empty _ Hempty).
      destruct w as [[stored ms hs next] ? ? ? ? ? ?]. simpl in Hempty.
      subst stored. reflexivity.
    + rewrite (createDefaultOrders_empty _ Hempty). split; reflexivity.
  - apply createDefaultOrders_nonempty.
  - assert (Hseeded : orders (storage (after createDefaultOrders w)) <> []).
    { destruct (orders (storage w)) as [|e rest] eqn:E.
      - intros Hnil.
        pose proof (createDefaultOrders_keys w E) as Hkeys.
        rewrite Hnil in Hkeys. discriminate Hkeys.
      - unfold after. rewrite createDefaultOrders_nonempty by now rewrite E.
        simpl. now rewrite E. }
    unfold after at 1. now rewrite (createDefaultOrders_nonempty _ Hseeded).
Qed.

(** An instance: the store of start-up. *)
Lemma createDefaultOrders_spec_witness :
  orders (storage (initWorld tickingClock firstIndex)) = [] /\
  map_keys (orders (storage (after createDefaultOrders
                               (initWorld tickingClock firstIndex))))
    = ["ORD-2024-001"; "ORD-2024-002"; "ORD-2024-003"].
Proof.
  split; [reflexivity|].
  exact (proj1 (proj2 (proj1 (createDefaultOrders_spec
                                (initWorld tickingClock firstIndex))
                             eq_refl))).
Defined.


(** *** Runs of the targeted fan-out *)

Lemma clients_wf_breakStream (cid : string) (sseClients : JsMap SSEClient) :
  clients_wf sseClients -> clients_wf (breakStream cid sseClients).
Proof.
  intros Hwf. unfold breakStream.
  destruct (map_get cid sseClients) as [client|] eqn:Hget; [|exact Hwf].
  apply clients_wf_set; [|exact Hwf].
  simpl. destruct Hwf as [_ Hids]. apply Hids. now apply map_get_In.
Qed.

Lemma clients_wf_perform (op : SseOp) (sseClients : JsMap SSEClient) :
  clients_wf sseClients -> clients_wf (sse_perform op sseClients).
Proof.
  intros Hwf. destruct op; simpl.
  - now apply clients_wf_route_events.
  - now apply clients_wf_disconnect.
  - now apply clients_wf_breakStream.
  - now apply clients_wf_route_subscribe.
  - now apply clients_wf_route_unsubscribe.
  - now apply clients_wf_sseBroadcast.
Qed.

Lemma clients_wf_run (ops : list SseOp) (sseClients : JsMap SSEClient) :
  clients_wf sseClients -> clients_wf (sse_run ops sseClients).
Proof.
  revert sseClients. unfold sse_run.
  induction ops as [|op ops IH]; intros sseClients Hwf; simpl; [exact Hwf|].
  apply IH. now apply clients_wf_perform.
Qed.

Lemma clients_wf_reachable (ops : list SseOp) : clients_wf (sse_run ops []).
Proof. apply clients_wf_run, clients_wf_empty. Qed.

Lemma sse_run_snoc (ops : list SseOp) (op : SseOp)
  (sseClients : JsMap SSEClient) :
  sse_run (ops ++ [op]) sseClients = sse_perform op (sse_run ops sseClients).
Proof. unfold sse_run. now rewrite foldl_app. Qed.

(** A broadcast writes to no one who is not connected. *)
Lemma sseBroadcast_absent (message : PushMessage)
  (sseClients : JsMap SSEClient) (cid : string) :
  clients_wf sseClients ->
  map_get cid sseClients = None ->
  map_get cid (sseBroadcast message sseClients) = None.
Proof.
  intros [Hnd Hids] Hnone.
  assert (Hany : forall chosen : SSEClient -> bool,
            map_get cid
              (foldl (fun acc '(key, client) =>
                        if chosen client
                        then tryWrite message key client acc else acc)
                     sseClients sseClients) = None).
  { intros chosen.
    rewrite (forEach_entry message chosen cid sseClients sseClients
               Hnd Hids Hnd).
    now rewrite Hnone. }
  unfold sseBroadcast. destruct message as [o| |];
    try exact (Hany (fun _ => true)).
  rewrite (foldl_pointwise _
             (fun acc '(key, c) =>
                if bool_decide (orderId o ∈ subscribedOrders c)
                then tryWrite (order_update o) key c acc else acc)).
  - apply (Hany (fun c => bool_decide (orderId o ∈ subscribedOrders c))).
  - intros acc [key c].
    case_bool_decide; case_decide; try reflexivity; contradiction.
Qed.

Lemma length_map_delete {V} (k : string) (v : V) (m : list (string * V)) :
  map_get k m = Some v -> S (length (map_delete k m)) = length m.
Proof.
  induction m as [|[k0 v0] m IH]; simpl; [discriminate|].
  destruct (String.eqb_spec k k0) as [->|Hne]; simpl; [reflexivity|].
  intros H. now rewrite IH.
Qed.

Lemma map_delete_absent {V} (k : string) (m : list (string * V)) :
  map_get k m = None -> map_delete k m = m.
Proof.
  induction m as [|[k0 v0] m IH]; simpl; [reflexivity|].
  destruct (String.eqb_spec k k0) as [->|Hne]; [discriminate|].
  intros H. now rewrite IH.
Qed.

Lemma map_delete_set_absent {V} (k : string) (v : V)
  (m : list (string * V)) :
  map_get k m = None -> map_delete k (map_set k v m) = m.
Proof.
  induction m as [|[k0 v0] m IH]; simpl.
  - now rewrite String.eqb_refl.
  - destruct (String.eqb_spec k k0) as [->|Hne]; [discriminate|].
    intros H. simpl. destruct (String.eqb_spec k k0); [congruence|].
    now rewrite IH.
Qed.

(** X19. In every client map that connections, disconnections, failing
    connections, subscriptions and broadcasts can produce, an
    [order_update] is written
    to a connected client exactly when the client's subscription set holds
    the orderId of the event: then the event is appended to its stream, or,
    if the stream is broken, the client is dropped; a client that is not
    subscribed to that order is left as it is, even with a broken
    stream. *)
Theorem targeted_delivery_rule (ops : list SseOp) (o : Order)
  (cid : string) (client : SSEClient) :
  let sseClients := sse_run ops [] in
  map_get cid sseClients = Some client ->
  map_get cid (sseBroadcast (order_update o) sseClients) =
  if decide (orderId o ∈ subscribedOrders client) then
    if writable (response client)
    then Some (mkClient (mkStream (writable (response client))
                           (written (response client) ++ [order_update o])%list)
                        (subscribedOrders client) (clientId client))
    else None
  else Some client.
Proof.
  intros sseClients Hget.
  exact (sseBroadcast_order_update o sseClients cid client
           (clients_wf_reachable ops) Hget).
Qed.

(** An instance: the event of ORD-A and a client that connected for
    ORD-A, first with its stream intact, then after its connection failed;
    and a client of ORD-B whose connection failed. *)
Lemma targeted_delivery_rule_witness :
  let intact := [Connect (str "ORD-A") "c1" freshStream true 5] in
  let failed := [Connect (str "ORD-A") "c1" freshStream true 5; Break "c1"] in
  let other := [Connect (str "ORD-B") "c2" freshStream true 5; Break "c2"] in
  (map_get "c1" (sse_run intact [])
     = Some (mkClient (mkStream true [connection_status true 5 "c1" "ORD-A"])
                      {[ "ORD-A" ]} "c1") /\
   received "c1" (sseBroadcast (order_update order_A) (sse_run intact []))
     = Some [connection_status true 5 "c1" "ORD-A"; order_update order_A]) /\
  (map_get "c1" (sse_run failed [])
     = Some (mkClient (mkStream false [connection_status true 5 "c1" "ORD-A"])
                      {[ "ORD-A" ]} "c1") /\
   map_get "c1" (sseBroadcast (order_update order_A) (sse_run failed []))
     = None) /\
  (map_get "c2" (sse_run other [])
     = Some (mkClient (mkStream false [connection_status true 5 "c2" "ORD-B"])
                      {[ "ORD-B" ]} "c2") /\
   map_get "c2" (sseBroadcast (order_update order_A) (sse_run other []))
     = map_get "c2" (sse_run other [])).
Proof.
  cbv zeta.
  assert (H1 : map_get "c1"
                 (sse_run [Connect (str "ORD-A") "c1" freshStream true 5] [])
               = Some (mkClient
                         (mkStream true
                            [connection_status true 5 "c1" "ORD-A"])
                         {[ "ORD-A" ]} "c1")) by reflexivity.
  assert (H2 : map_get "c1"
                 (sse_run [Connect (str "ORD-A") "c1" freshStream true 5;
                           Break "c1"] [])
               = Some (mkClient
                         (mkStream false
                            [connection_status true 5 "c1" "ORD-A"])
                         {[ "ORD-A" ]} "c1")) by reflexivity.
  assert (H3 : map_get "c2"
                 (sse_run [Connect (str "ORD-B") "c2" freshStream true 5;
                           Break "c2"] [])
               = Some (mkClient
                         (mkStream false
                            [connection_status true 5 "c2" "ORD-B"])
                         {[ "ORD-B" ]} "c2")) by reflexivity.
  split; [|split].
  - split; [exact H1|]. unfold received.
    rewrite (targeted_delivery_rule _ order_A "c1" _ H1).
    simpl. case_decide as Hin; [reflexivity|].
    exfalso. apply Hin. simpl. set_solver.
  - split; [exact H2|].
    rewrite (targeted_delivery_rule _ order_A "c1" _ H2).
    simpl. case_decide as Hin; [reflexivity|].
    exfalso. apply Hin. simpl. set_solver.
  - split; [exact H3|].
    rewrite (targeted_delivery_rule _ order_A "c2" _ H3), H3.
    simpl. case_decide as Hin; [|reflexivity].
    exfalso. simpl in Hin. set_solver.
Defined.

(** X20. A message that is not an [order_update] is written to every
    connected client, whatever its subscriptions: it is appended to the
    stream of each, and each client with a broken stream is dropped. *)
Theorem untargeted_messages_reach_everyone (ops : list SseOp)
  (message : PushMessage) (cid : string) (client : SSEClient) :
  let sseClients := sse_run ops [] in
  ~ is_order_update message ->
  map_get cid sseClients = Some client ->
  map_get cid (sseBroadcast message sseClients) =
  if writable (response client)
  then Some (mkClient (mkStream (writable (response client))
                         (written (response client) ++ [message])%list)
                      (subscribedOrders client) (clientId client))
  else None.
Proof.
  intros sseClients Hother Hget.
  apply (sseBroadcast_other message sseClients cid client);
    [|apply clients_wf_reachable|exact Hget].
  intros o ->. now apply Hother.
Qed.

(** An instance: a connection status goes to a client that tracks one
    order; after the client's connection failed, the same message has the
    client dropped. *)
Lemma untargeted_messages_reach_everyone_witness :
  let intact := [Connect (str "ORD-A") "c1" freshStream true 5] in
  let failed := [Connect (str "ORD-A") "c1" freshStream true 5; Break "c1"] in
  let message := connection_status false 9 "" "" in
  ~ is_order_update message /\
  received "c1" (sseBroadcast message (sse_run intact []))
    = Some [connection_status true 5 "c1" "ORD-A"; message] /\
  is_Some (map_get "c1" (sse_run failed [])) /\
  map_get "c1" (sseBroadcast message (sse_run failed [])) = None.
Proof.
  cbv zeta. split; [exact (fun H => H)|]. split; [|split].
  - unfold received.
    rewrite (untargeted_messages_reach_everyone
               [Connect (str "ORD-A") "c1" freshStream true 5]
               (connection_status false 9 "" "") "c1"
               (mkClient (mkStream true [connection_status true 5 "c1" "ORD-A"])
                         {[ "ORD-A" ]} "c1")
               (fun H => H) eq_refl).
    reflexivity.
  - eexists. reflexivity.
  - rewrite (untargeted_messages_reach_everyone
               [Connect (str "ORD-A") "c1" freshStream true 5; Break "c1"]
               (connection_status false 9 "" "") "c1"
               (mkClient (mkStream false [connection_status true 5 "c1" "ORD-A"])
                         {[ "ORD-A" ]} "c1")
               (fun H => H) eq_refl).
    reflexivity.
Defined.

(** X21. [POST /api/events/subscribe]: without a clientId or an orderId
    it answers 400, for a client that is not connected 404, and in both
    cases the client map is as before. For a connected client it answers
    200 and adds the orderId to that client's subscription set, leaving its
    stream, its other subscriptions and all other clients alone; from then
    on an [order_update] for that order is written to the client, in
    whatever mode it connected. *)
Theorem route_subscribe_spec (ops : list SseOp) (cid oid : tsstring) :
  let sseClients := sse_run ops [] in
  let answer := (route_subscribe cid oid sseClients).1 in
  let sseClients' := (route_subscribe cid oid sseClients).2 in
  (truthy cid = false \/ truthy oid = false ->
   statusCode answer = 400 /\ sseClients' = sseClients) /\
  (truthy cid = true -> truthy oid = true ->
   map_get (toString cid) sseClients = None ->
   statusCode answer = 404 /\ sseClients' = sseClients) /\
  (truthy cid = true -> truthy oid = true ->
   forall client,
     map_get (toString cid) sseClients = Some client ->
     statusCode answer = 200 /\
     map_get (toString cid) sseClients' =
       Some (mkClient (response client)
                      ({[ toString oid ]} ∪ subscribedOrders client)
                      (clientId client)) /\
     map_keys sseClients' = map_keys sseClients /\
     (forall other, other <> toString cid ->
                    map_get other sseClients' = map_get other sseClients) /\
     (forall o,
         orderId o = toString oid ->
         writable (response client) = true ->
         received (toString cid)
                  (sseBroadcast (order_update o) sseClients')
         = Some (written (response client) ++ [order_update o])%list)).
Proof.
  cbv zeta. pose proof (clients_wf_reachable ops) as Hwf.
  pose proof (clients_wf_route_subscribe cid oid _ Hwf) as Hwf'.
  revert Hwf Hwf'. generalize (sse_run ops []) as sseClients.
  intros sseClients Hwf Hwf'. unfold route_subscribe in *.
  split; [|split].
  - intros [H|H]; rewrite H; simpl; rewrite ?orb_true_r; now split.
  - intros Hc Ho Hnone. rewrite Hc, Ho, Hnone. now split.
  - intros Hc Ho client Hget. rewrite Hc, Ho, Hget in *. cbn [fst snd negb orb] in *.
    split; [reflexivity|]. split; [apply map_get_set_eq|].
    split; [eapply map_keys_set_present; exact Hget|].
    split; [intros other Hne; apply map_get_set_ne; congruence|].
    intros o Hoid Hw. unfold received.
    rewrite (sseBroadcast_order_update o _ (toString cid) _ Hwf'
               (map_get_set_eq _ _ _)).
    unfold targeted, addSubscription. cbn [subscribedOrders response]. rewrite Hw, Hoid.
    case_decide as Hin; [reflexivity|]. exfalso. apply Hin. set_solver.
Qed.

(** An instance: a client that connected without a filter subscribes to
    ORD-A and then receives its event. *)
Lemma route_subscribe_spec_witness :
  let sseClients := sse_run [Connect undefined "c1" freshStream true 5] [] in
  let subscribed :=
    (route_subscribe (str "c1") (str "ORD-A") sseClients).2 in
  truthy (str "c1") = true /\ truthy (str "ORD-A") = true /\
  received "c1" (sseBroadcast (order_update order_A) sseClients)
    = Some [connection_status true 5 "c1" "all_orders"] /\
  received "c1" (sseBroadcast (order_update order_A) subscribed)
    = Some [connection_status true 5 "c1" "all_orders"; order_update order_A].
Proof.
  cbv zeta. split; [reflexivity|]. split; [reflexivity|].
  split; [vm_compute; reflexivity|].
  exact (proj2 (proj2 (proj2 (proj2
           (proj2 (proj2 (route_subscribe_spec
                            [Connect undefined "c1" freshStream true 5]
                            (str "c1") (str "ORD-A")))
              eq_refl eq_refl _ eq_refl))))
           order_A eq_refl eq_refl).
Defined.

(** X22. [POST /api/events/unsubscribe] for a connected client answers 200
    and removes the orderId from that client's subscription set, keeping
    its other subscriptions, its stream and all other clients; from then on
    an [order_update] for that order leaves the client's stream as it is,
    while events for its other orders are handled as before. Errors are
    answered as for subscribe, with the map unchanged. *)
Theorem route_unsubscribe_spec (ops : list SseOp) (cid oid : tsstring) :
  let sseClients := sse_run ops [] in
  let answer := (route_unsubscribe cid oid sseClients).1 in
  let sseClients' := (route_unsubscribe cid oid sseClients).2 in
  (truthy cid = false \/ truthy oid = false ->
   statusCode answer = 400 /\ sseClients' = sseClients) /\
  (truthy cid = true -> truthy oid = true ->
   map_get (toString cid) sseClients = None ->
   statusCode answer = 404 /\ sseClients' = sseClients) /\
  (truthy cid = true -> truthy oid = true ->
   forall client,
     map_get (toString cid) sseClients = Some client ->
     statusCode answer = 200 /\
     map_get (toString cid) sseClients' =
       Some (mkClient (response client)
                      (subscribedOrders client ∖ {[ toString oid ]})
                      (clientId client)) /\
     (forall other, other <> toString cid ->
                    map_get other sseClients' = map_get other sseClients) /\
     (forall o,
         orderId o = toString oid ->
         received (toString cid)
                  (sseBroadcast (order_update o) sseClients')
         = Some (written (response client))) /\
     (forall o,
         orderId o <> toString oid ->
         received (toString cid)
                  (sseBroadcast (order_update o) sseClients')
         = received (toString cid)
                    (sseBroadcast (order_update o) sseClients))).
Proof.
  cbv zeta. pose proof (clients_wf_reachable ops) as Hwf.
  pose proof (clients_wf_route_unsubscribe cid oid _ Hwf) as Hwf'.
  revert Hwf Hwf'. generalize (sse_run ops []) as sseClients.
  intros sseClients Hwf Hwf'. unfold route_unsubscribe in *.
  split; [|split].
  - intros [H|H]; rewrite H; simpl; rewrite ?orb_true_r; now split.
  - intros Hc Ho Hnone. rewrite Hc, Ho, Hnone. now split.
  - intros Hc Ho client Hget. rewrite Hc, Ho, Hget in *. cbn [fst snd negb orb] in *.
    split; [reflexivity|]. split; [apply map_get_set_eq|].
    split; [intros other Hne; apply map_get_set_ne; congruence|].
    split.
    + intros o Hoid. unfold received.
      rewrite (sseBroadcast_order_update o _ (toString cid) _ Hwf'
                 (map_get_set_eq _ _ _)).
      unfold targeted, dropSubscription. cbn [subscribedOrders response]. rewrite Hoid.
      case_decide as Hin; [exfalso; set_solver|reflexivity].
    + intros o Hoid. unfold received.
      rewrite (sseBroadcast_order_update o _ (toString cid) _ Hwf'
                 (map_get_set_eq _ _ _)).
      rewrite (sseBroadcast_order_update o _ (toString cid) _ Hwf Hget).
      unfold targeted, dropSubscription. cbn [subscribedOrders response].
      repeat case_decide;
        try (destruct (writable (response client)); reflexivity);
        exfalso; set_solver.
Qed.

(** An instance: a client that connected for ORD-A unsubscribes from it
    and no longer receives its event. *)
Lemma route_unsubscribe_spec_witness :
  let sseClients :=
    sse_run [Connect (str "ORD-A") "c1" freshStream true 5] [] in
  let unsubscribed :=
    (route_unsubscribe (str "c1") (str "ORD-A") sseClients).2 in
  truthy (str "c1") = true /\ truthy (str "ORD-A") = true /\
  received "c1" (sseBroadcast (order_update order_A) unsubscribed)
    = Some [connection_status true 5 "c1" "ORD-A"].
Proof.
  cbv zeta. split; [reflexivity|]. split; [reflexivity|].
  exact (proj1 (proj2 (proj2 (proj2
           (proj2 (proj2 (route_unsubscribe_spec
                            [Connect (str "ORD-A") "c1" freshStream true 5]
                            (str "c1") (str "ORD-A")))
              eq_refl eq_refl _ eq_refl))))
           order_A eq_refl).
Defined.

(** *** Closing and opening a stream *)

Lemma map_get_route_events_ne (oid : tsstring) (cid other : string)
  (res : Response) (connected : bool) (now : Z)
  (sseClients : JsMap SSEClient) :
  other <> cid ->
  map_get other (route_events oid cid res connected now sseClients)
  = map_get other sseClients.
Proof.
  intros Hne. unfold route_events. destruct (writable res).
  - rewrite !map_get_set_ne by congruence. reflexivity.
  - rewrite map_get_delete_ne, map_get_set_ne by congruence. reflexivity.
Qed.

(** X23. The [close] and [error] listeners of an event stream remove the
    client, and only that client, from the map: every other entry is as
    before, the map is one entry shorter when the client was still in it
    and unchanged when a failed write had already removed it, and no later
    broadcast writes to the closed stream. *)
Theorem closed_stream_gets_nothing (ops : list SseOp) (cid : string) :
  let sseClients := sse_run ops [] in
  let closed := disconnect cid sseClients in
  map_get cid closed = None /\
  (forall other, other <> cid ->
                 map_get other closed = map_get other sseClients) /\
  (forall message, received cid (sseBroadcast message closed) = None) /\
  (forall client, map_get cid sseClients = Some client ->
                  S (length closed) = length sseClients) /\
  (map_get cid sseClients = None -> closed = sseClients).
Proof.
  cbv zeta. pose proof (clients_wf_reachable ops) as Hwf.
  revert Hwf. generalize (sse_run ops []) as sseClients.
  intros sseClients Hwf. unfold disconnect.
  assert (Hgone : map_get cid (map_delete cid sseClients) = None)
    by (apply map_get_delete_eq, Hwf).
  split; [exact Hgone|].
  split; [intros other Hne; apply map_get_delete_ne; congruence|].
  split; [|split].
  - intros message. unfold received.
    rewrite sseBroadcast_absent;
      [reflexivity|now apply clients_wf_delete|exact Hgone].
  - intros client Hget. eapply length_map_delete, Hget.
  - apply map_delete_absent.
Qed.

(** X24. [GET /api/events]: when the handshake can be written the new
    client is stored under its id with the handshake as the newest message
    on its stream, subscribed to the order of the query string if there is
    one and to nothing otherwise; when the write throws no client is left
    under that id. Other clients are untouched. A client that connected
    with an orderId is then sent the [order_update] events of exactly that
    order. *)
Theorem route_events_spec (ops : list SseOp) (oid : tsstring) (cid : string)
  (res : Response) (connected : bool) (now : Z) :
  let sseClients := sse_run ops [] in
  let opened := route_events oid cid res connected now sseClients in
  let handshake := connection_status connected now cid (subscribedToLabel oid) in
  (writable res = true ->
   map_get cid opened =
     Some (mkClient (mkStream true (written res ++ [handshake])%list)
                    (if truthy oid then {[ toString oid ]} else ∅) cid)) /\
  (writable res = false -> map_get cid opened = None) /\
  (writable res = false -> map_get cid sseClients = None ->
   opened = sseClients) /\
  (forall other, other <> cid ->
                 map_get other opened = map_get other sseClients) /\
  (writable res = true -> truthy oid = true ->
   forall o,
     received cid (sseBroadcast (order_update o) opened) =
     Some (written res ++ handshake ::
             (if decide (orderId o = toString oid)
              then [order_update o] else []))%list).
Proof.
  cbv zeta. pose proof (clients_wf_reachable ops) as Hwf.
  pose proof (clients_wf_route_events oid cid res connected now _ Hwf)
    as Hwf'.
  revert Hwf Hwf'. generalize (sse_run ops []) as sseClients.
  intros sseClients Hwf Hwf'.
  assert (Hopen : writable res = true ->
            map_get cid (route_events oid cid res connected now sseClients) =
            Some (mkClient
                    (mkStream true
                       (written res ++
                        [connection_status connected now cid
                           (subscribedToLabel oid)])%list)
                    (if truthy oid then {[ toString oid ]} else ∅) cid)).
  { intros Hw. unfold route_events. rewrite Hw, map_get_set_eq.
    unfold write. cbn [response writable written subscribedOrders clientId].
    now rewrite Hw. }
  split; [exact Hopen|]. split; [|split; [|split]].
  - intros Hw. unfold route_events. rewrite Hw.
    apply map_get_delete_eq, NoDup_keys_set, Hwf.
  - intros Hw Hnone. unfold route_events. rewrite Hw.
    now apply map_delete_set_absent.
  - intros other Hne. now apply map_get_route_events_ne.
  - intros Hw Ho o. unfold received.
    rewrite (sseBroadcast_order_update o _ cid _ Hwf' (Hopen Hw)).
    unfold targeted, write.
    cbn [response writable written subscribedOrders clientId].
    rewrite Ho. repeat case_decide; try (exfalso; set_solver).
    + cbn. now rewrite <- app_assoc.
    + reflexivity.
Qed.

(** *** What a client sees over time *)

Lemma received_step (op : SseOp) (cid : string)
  (sseClients : JsMap SSEClient) :
  clients_wf sseClients ->
  connects cid op = false ->
  match received cid sseClients with
  | None => received cid (sse_perform op sseClients) = None
  | Some sent =>
      received cid (sse_perform op sseClients) = None \/
      exists more,
        received cid (sse_perform op sseClients) = Some (sent ++ more)%list /\
        more `sublist_of` broadcasts [op]
  end.
Proof.
  intros Hwf Hop. unfold received.
  assert (Hsame : map_get cid (sse_perform op sseClients)
                  = map_get cid sseClients ->
            match (fun c => written (response c)) <$> map_get cid sseClients with
            | None => (fun c => written (response c)) <$>
                        map_get cid (sse_perform op sseClients) = None
            | Some sent =>
                (fun c => written (response c)) <$>
                  map_get cid (sse_perform op sseClients) = None \/
                exists more,
                  (fun c => written (response c)) <$>
                    map_get cid (sse_perform op sseClients)
                  = Some (sent ++ more)%list /\
                  more `sublist_of` broadcasts [op]
            end).
  { intros ->. destruct (map_get cid sseClients); cbn; [|reflexivity].
    right. exists []. rewrite app_nil_r. split; [reflexivity|].
    apply sublist_nil_l. }
  assert (Hsub : forall key next client,
            map_get key sseClients = Some client ->
            written (response next) = written (response client) ->
            match (fun c => written (response c)) <$> map_get cid sseClients with
            | None => (fun c => written (response c)) <$>
                        map_get cid (map_set key next sseClients) = None
            | Some sent =>
                (fun c => written (response c)) <$>
                  map_get cid (map_set key next sseClients) = None \/
                exists more,
                  (fun c => written (response c)) <$>
                    map_get cid (map_set key next sseClients)
                  = Some (sent ++ more)%list /\
                  more `sublist_of` broadcasts [op]
            end).
  { intros key next client Hget Hres.
    destruct (String.string_dec key cid) as [->|Hne].
    - rewrite Hget, map_get_set_eq. cbn. right. exists [].
      rewrite app_nil_r, Hres. split; [reflexivity|apply sublist_nil_l].
    - rewrite map_get_set_ne by exact Hne.
      destruct (map_get cid sseClients); cbn; [|reflexivity].
      right. exists []. rewrite app_nil_r.
      split; [reflexivity|apply sublist_nil_l]. }
  destruct op
    as [oid cid' res connected now|cid'|cid'|cid' oid|cid' oid|message].
  - apply Hsame. cbn [sse_perform]. apply map_get_route_events_ne.
    cbn in Hop. destruct (String.eqb_spec cid' cid); congruence.
  - destruct (String.string_dec cid' cid) as [->|Hne].
    + cbn [sse_perform]. unfold disconnect.
      rewrite map_get_delete_eq by apply Hwf. cbn.
      destruct (map_get cid sseClients); cbn; auto.
    + apply Hsame. cbn [sse_perform]. unfold disconnect.
      now apply map_get_delete_ne.
  - destruct (map_get cid' sseClients) as [client|] eqn:Hget;
      [|apply Hsame; cbn [sse_perform]; unfold breakStream; now rewrite Hget].
    replace (sse_perform (Break cid') sseClients)
      with (map_set cid'
              (mkClient (mkStream false (written (response client)))
                        (subscribedOrders client) (clientId client))
              sseClients)
      by (cbn [sse_perform]; unfold breakStream; now rewrite Hget).
    eapply Hsub; [exact Hget|reflexivity].
  - destruct (negb (truthy cid') || negb (truthy oid)) eqn:Hguard;
      [apply Hsame; cbn [sse_perform]; unfold route_subscribe;
       now rewrite Hguard|].
    destruct (map_get (toString cid') sseClients) as [client|] eqn:Hget;
      [|apply Hsame; cbn [sse_perform]; unfold route_subscribe;
        now rewrite Hguard, Hget].
    replace (sse_perform (Subscribe cid' oid) sseClients)
      with (map_set (toString cid') (addSubscription (toString oid) client)
                    sseClients)
      by (cbn [sse_perform]; unfold route_subscribe;
          now rewrite Hguard, Hget).
    eapply Hsub; [exact Hget|reflexivity].
  - destruct (negb (truthy cid') || negb (truthy oid)) eqn:Hguard;
      [apply Hsame; cbn [sse_perform]; unfold route_unsubscribe;
       now rewrite Hguard|].
    destruct (map_get (toString cid') sseClients) as [client|] eqn:Hget;
      [|apply Hsame; cbn [sse_perform]; unfold route_unsubscribe;
        now rewrite Hguard, Hget].
    replace (sse_perform (Unsubscribe cid' oid) sseClients)
      with (map_set (toString cid') (dropSubscription (toString oid) client)
                    sseClients)
      by (cbn [sse_perform]; unfold route_unsubscribe;
          now rewrite Hguard, Hget).
    eapply Hsub; [exact Hget|reflexivity].
  - cbn [sse_perform]. clear Hsame Hsub.
    destruct (map_get cid sseClients) as [client|] eqn:Hget.
    + assert (Hcases :
                map_get cid (sseBroadcast message sseClients) = Some client \/
                map_get cid (sseBroadcast message sseClients)
                = Some (write message client) \/
                map_get cid (sseBroadcast message sseClients) = None).
      { destruct message as [o|connected now client' label|forOrder text].
        - rewrite (sseBroadcast_order_update o _ cid _ Hwf Hget).
          unfold targeted. case_decide; [|now left].
          destruct (writable (response client)); auto.
        - rewrite (sseBroadcast_other _ sseClients cid client);
            [|intros ?; discriminate|exact Hwf|exact Hget].
          destruct (writable (response client)); auto.
        - rewrite (sseBroadcast_other _ sseClients cid client);
            [|intros ?; discriminate|exact Hwf|exact Hget].
          destruct (writable (response client)); auto. }
      cbn. destruct Hcases as [->|[->| ->]]; cbn.
      * right. exists []. rewrite app_nil_r.
        split; [reflexivity|apply sublist_nil_l].
      * right. exists [message]. split; [reflexivity|reflexivity].
      * now left.
    + cbn. now rewrite sseBroadcast_absent.
Qed.

Lemma broadcasts_cons (op : SseOp) (ops : list SseOp) :
  broadcasts (op :: ops) = (broadcasts [op] ++ broadcasts ops)%list.
Proof. unfold broadcasts. now destruct op. Qed.

(** X25. As long as no new stream is opened under its id, the stream of a
    client only grows, and what is added to it is a subsequence of the
    messages handed to the fan-out, in the order they were handed over:
    nothing already sent is changed, no message is written twice and none
    overtakes an earlier one. A client that is gone stays gone. *)
Theorem streams_only_grow (before ops : list SseOp) (cid : string) :
  forallb (fun op => negb (connects cid op)) ops = true ->
  let start := sse_run before [] in
  let finish := sse_run ops start in
  match received cid start with
  | None => received cid finish = None
  | Some sent =>
      received cid finish = None \/
      exists more,
        received cid finish = Some (sent ++ more)%list /\
        more `sublist_of` broadcasts ops
  end.
Proof.
  intros Hops. cbv zeta. pose proof (clients_wf_reachable before) as Hwf.
  revert Hwf. generalize (sse_run before []) as start.
  induction ops as [|op ops IH]; intros start Hwf.
  - change (sse_run [] start) with start.
    destruct (received cid start); [|reflexivity].
    right. exists []. rewrite app_nil_r. split; [reflexivity|constructor].
  - cbn in Hops. apply andb_prop in Hops as [Hop Hrest].
    apply negb_true_iff in Hop.
    change (sse_run (op :: ops) start)
      with (sse_run ops (sse_perform op start)).
    pose proof (received_step op cid start Hwf Hop) as Hstep.
    pose proof (IH Hrest _ (clients_wf_perform op start Hwf)) as Hnext.
    rewrite broadcasts_cons.
    destruct (received cid start) as [sent|].
    + destruct Hstep as [Hnone|[m1 [Hm1 Hs1]]].
      * rewrite Hnone in Hnext. now left.
      * rewrite Hm1 in Hnext. destruct Hnext as [Hnone|[m2 [Hm2 Hs2]]];
          [now left|].
        right. exists (m1 ++ m2)%list. rewrite app_assoc.
        split; [exact Hm2|now apply sublist_app].
    + now rewrite Hstep in Hnext.
Qed.

(** An instance: a client of ORD-A, an event of ORD-A and a status
    message. *)
Lemma streams_only_grow_witness :
  let before := [Connect (str "ORD-A") "c1" freshStream true 5] in
  let ops := [Broadcast (order_update order_A);
              Subscribe (str "c1") (str "ORD-B");
              Broadcast (connection_status false 9 "" "")] in
  forallb (fun op => negb (connects "c1" op)) ops = true /\
  match received "c1" (sse_run before []) with
  | None => received "c1" (sse_run ops (sse_run before [])) = None
  | Some sent =>
      received "c1" (sse_run ops (sse_run before [])) = None \/
      exists more,
        received "c1" (sse_run ops (sse_run before [])) =
          Some (sent ++ more)%list /\
        more `sublist_of` broadcasts ops
  end.
Proof.
  cbv zeta. split; [reflexivity|].
  exact (streams_only_grow
           [Connect (str "ORD-A") "c1" freshStream true 5]
           [Broadcast (order_update order_A);
            Subscribe (str "c1") (str "ORD-B");
            Broadcast (connection_status false 9 "" "")] "c1" eq_refl).
Defined.

(** *** The REST routes *)

(** X26. [POST /api/orders] followed by [GET /api/orders/:orderId]: a
    payload that the schema rejects is answered 400 and leaves the world as
    it was; an accepted payload is answered 200 with the created order,
    which carries the payload's orderId, and the lookup of that orderId
    then answers 200 with the same order, without changing the world. The
    lookup of every other orderId answers as it did before the creation. *)
Theorem post_then_get (w : World) (parsed : option InsertOrder) :
  match parsed with
  | None =>
      route_createOrder parsed w =
      (mkResponse 400 (json_error "Invalid order data"), w)
  | Some validatedData =>
      let w' := after (route_createOrder parsed) w in
      exists o,
        result (route_createOrder parsed) w = mkResponse 200 (json_order o) /\
        orderId o = ins_orderId validatedData /\
        route_getOrder (ins_orderId validatedData) w' =
          (mkResponse 200 (json_order o), w') /\
        forall other,
          other <> ins_orderId validatedData ->
          result (route_getOrder other) w' = result (route_getOrder other) w
  end.
Proof.
  destruct parsed as [validatedData|]; [|reflexivity].
  cbv zeta. eexists. split; [reflexivity|]. split; [reflexivity|].
  split.
  - rewrite route_getOrder_spec, orderOf_eq.
    unfold route_createOrder. unfold_store. now rewrite map_get_set_eq.
  - intros other Hne. unfold result. rewrite !route_getOrder_spec.
    cbn [fst]. rewrite !orderOf_eq.
    unfold route_createOrder. unfold_store.
    rewrite map_get_set_ne by congruence. reflexivity.
Qed.

(** X27. The routes of the message log and of the status history answer
    200 with the stored list, and with the empty list, not 404, for an
    orderId that has none; neither changes the world. After
    [DELETE /api/orders/:orderId/messages] the message route of that order
    answers the empty list, while the status history of the order, the
    order itself and the messages of every other order are served as
    before. *)
Theorem log_routes_spec (w : World) (oid : string) :
  let w' := after (route_clearMessages oid) w in
  route_getMessages oid w = (json (json_messages (messagesOf oid w)), w) /\
  route_getHistory oid w = (json (json_history (historyOf oid w)), w) /\
  (messages (storage w) !! oid = None ->
   result (route_getMessages oid) w = mkResponse 200 (json_messages [])) /\
  (statusHistory (storage w) !! oid = None ->
   result (route_getHistory oid) w = mkResponse 200 (json_history [])) /\
  result (route_clearMessages oid) w = mkResponse 200 (json_success None) /\
  result (route_getMessages oid) w' = mkResponse 200 (json_messages []) /\
  (forall other, result (route_getHistory other) w' =
                 result (route_getHistory other) w) /\
  (forall other, result (route_getOrder other) w' =
                 result (route_getOrder other) w) /\
  (forall other, other <> oid ->
                 result (route_getMessages other) w' =
                 result (route_getMessages other) w).
Proof.
  cbv zeta. split; [reflexivity|]. split; [reflexivity|].
  split; [intros Hnone; unfold route_getMessages; unfold_store;
          now rewrite Hnone|].
  split; [intros Hnone; unfold route_getHistory; unfold_store;
          now rewrite Hnone|].
  split; [reflexivity|].
  split; [unfold route_getMessages, route_clearMessages; unfold_store;
          now rewrite lookup_delete_eq|].
  split; [intros other; unfold route_getHistory, route_clearMessages;
          unfold_store; reflexivity|].
  split; [intros other; unfold route_getOrder, route_clearMessages;
          unfold_store; now destruct (map_get other (orders (storage w)))|].
  intros other Hne. unfold route_getMessages, route_clearMessages.
  unfold_store. now rewrite lookup_delete_ne.
Qed.

Lemma triggerOrderUpdate_result (w : World) (oid : string)
  (st : tsstring) :
  result (triggerOrderUpdate oid st) w =
  match orderOf oid w with
  | Some _ => ending w
  | None => returns
  end.
Proof.
  destruct (orderOf oid w) as [o|] eqn:Ho.
  - now apply triggerOrderUpdate_ends with (o := o).
  - unfold triggerOrderUpdate. rewrite result_bind. unfold result, after.
    now rewrite (updateOrder_absent _ _ _ Ho).
Qed.

(** X28. The two versions of [POST /api/orders/:orderId/trigger-update].
    The route of the server-sent-event tables makes the service call
    whatever the body holds; the route of the WebSocket table makes it for
    a non-empty status, and answers 400 without touching anything
    otherwise. Both answer by how the call ends: 500 when it throws, which
    it does exactly when the order is stored and the service was handed a
    function in place of a socket server, and 200 in every other case, an
    order that is not stored included. Without a status, the route of the
    server-sent-event tables stores the missing status in a stored order
    and appends one entry to each of its logs, whatever it answers. *)
Theorem trigger_routes_answer_as_the_call_ends (w : World) (oid : string)
  (st : tsstring) :
  let answer :=
    match orderOf oid w, wss w with
    | Some _, Some BroadcastFn => 500
    | _, _ => 200
    end in
  after (route_triggerUpdate_sse oid st) w
    = after (triggerOrderUpdate oid st) w /\
  statusCode (result (route_triggerUpdate_sse oid st) w) = answer /\
  (truthy st = true ->
   after (route_triggerUpdate_ws oid st) w
     = after (triggerOrderUpdate oid st) w /\
   statusCode (result (route_triggerUpdate_ws oid st) w) = answer) /\
  (truthy st = false ->
   route_triggerUpdate_ws oid st w =
     (mkResponse 400 (json_error "Status is required"), w) /\
   forall o,
     orderOf oid w = Some o ->
     let w' := after (route_triggerUpdate_sse oid st) w in
     status <$> orderOf oid w' = Some st /\
     length (historyOf oid w') = S (length (historyOf oid w)) /\
     length (messagesOf oid w') = S (length (messagesOf oid w))).
Proof.
  cbv zeta.
  destruct (route_triggerUpdate_sse_answer w oid st) as [Hafter Hresult].
  assert (Hends : match result (triggerOrderUpdate oid st) w with
                  | returns => 200
                  | throws => 500
                  end =
                  match orderOf oid w, wss w with
                  | Some _, Some BroadcastFn => 500
                  | _, _ => 200
                  end).
  { rewrite triggerOrderUpdate_result. unfold ending.
    destruct (orderOf oid w); [|reflexivity].
    now destruct (wss w) as [[clients|]|]. }
  split; [exact Hafter|]. split; [|split].
  - rewrite Hresult, <- Hends.
    now destruct (result (triggerOrderUpdate oid st) w).
  - intros Hst.
    destruct (proj2 (route_triggerUpdate_ws_guard w oid st) Hst) as [Ha Hr].
    split; [exact Ha|]. rewrite Hr, <- Hends.
    now destruct (result (triggerOrderUpdate oid st) w).
  - intros Hst.
    split; [exact (proj1 (route_triggerUpdate_ws_guard w oid st) Hst)|].
    intros o Ho. rewrite Hafter.
    rewrite (triggerOrderUpdate_present w oid st o Ho).
    rewrite orderOf_eq, messagesOf_eq, historyOf_eq. cbn.
    rewrite map_get_set_eq, !lookup_insert_eq. cbn.
    rewrite !length_app. cbn. split; [reflexivity|]. split; lia.
Qed.

(** An instance: the empty status, and then a status, sent for the stored
    order ORD-2024-001 to a server whose service holds a function. *)
Lemma trigger_routes_answer_as_the_call_ends_witness :
  let sse := initialized BroadcastFn world_001 in
  truthy (str "") = false /\
  route_triggerUpdate_ws "ORD-2024-001" (str "") sse =
    (mkResponse 400 (json_error "Status is required"), sse) /\
  status <$> orderOf "ORD-2024-001"
               (after (route_triggerUpdate_sse "ORD-2024-001" (str "")) sse)
  = Some (str "") /\
  statusCode (result (route_triggerUpdate_sse "ORD-2024-001" (str "shipped"))
                     sse) = 500.
Proof.
  cbv zeta. split; [reflexivity|].
  pose proof (proj2 (proj2 (proj2 (trigger_routes_answer_as_the_call_ends
                       (initialized BroadcastFn world_001)
                       "ORD-2024-001" (str "")))) eq_refl)
    as [Hws Hsse].
  split; [exact Hws|].
  split; [exact (proj1 (Hsse _ eq_refl))|].
  exact (proj1 (proj2 (trigger_routes_answer_as_the_call_ends
                         (initialized BroadcastFn world_001)
                         "ORD-2024-001" (str "shipped")))).
Defined.

(** *** The request log line *)

(** X29. The logging middleware writes a line only for paths that start
    with [/api]. The line it writes is never longer than 80 code units: a
    line of at most 80 units is written as it is, a longer one is cut to
    its first 79 units followed by the ellipsis. *)
Theorem logLine_spec (method path : list N) (statusCode duration : Z)
  (captured : option (list N)) :
  let full := fullLogLine method path statusCode duration captured in
  let logged := logLine method path statusCode duration captured in
  (startsWith path (units "/api") = false -> logged = None) /\
  (startsWith path (units "/api") = true ->
   exists line,
     logged = Some line /\
     (length line <= 80)%nat /\
     firstn 79 line = firstn 79 full /\
     ((length full <= 80)%nat -> line = full) /\
     ((80 < length full)%nat ->
      line = (firstn 79 full ++ [ellipsis])%list /\ length line = 80%nat)).
Proof.
  cbv zeta. unfold logLine.
  generalize (fullLogLine method path statusCode duration captured) as full.
  intros full. split; intros Hpath; rewrite Hpath; [reflexivity|].
  eexists. split; [reflexivity|].
  destruct (Nat.ltb_spec 80 (length full)) as [Hlong|Hshort].
  - assert (Hlen : length (firstn 79 full) = 79%nat)
      by (rewrite length_firstn; lia).
    split; [rewrite length_app, Hlen; simpl; lia|].
    split.
    + rewrite firstn_app, Hlen, Nat.sub_diag. cbn [firstn].
      rewrite app_nil_r. apply firstn_all2. lia.
    + split; [lia|]. intros _. split; [reflexivity|].
      rewrite length_app, Hlen. reflexivity.
  - split; [exact Hshort|]. split; [reflexivity|].
    split; [reflexivity|lia].
Qed.

(** *** The status widgets *)

Lemma getStatusProgress_off_timeline (current : tsstring) :
  (forall s, current = str s -> ~ In s timeline) ->
  getStatusProgress current = 0.
Proof.
  intros Hoff. destruct current as [|s|key]; [reflexivity| |reflexivity].
  unfold getStatusProgress.
  repeat match goal with
         | |- context [String.eqb s ?t] =>
             destruct (String.eqb_spec s t) as [->|_];
               [exfalso; apply (Hoff _ eq_refl); unfold timeline; simpl; tauto|]
         end.
  reflexivity.
Qed.

Lemma getStatusProgress_nonneg (current : tsstring) :
  0 <= getStatusProgress current.
Proof.
  destruct current as [|s|key]; [reflexivity| |reflexivity].
  unfold getStatusProgress.
  repeat match goal with
         | |- context [String.eqb s ?t] => destruct (String.eqb s t); [lia|]
         end.
  lia.
Qed.

(** X30. The progress bar and the stepper of the dashboard follow the
    forward chain of the server: every advance of the chain adds 20 to the
    progress; for an order whose status is on the timeline the steps before
    it are shown as completed, its own step as in progress and the steps
    after it as pending. For any other status (cancelled, missing or
    unknown) the progress is 0 and every step is shown as pending. *)
Theorem dashboard_follows_the_chain :
  (forall s next,
      statusProgression !! s = Some next ->
      getStatusProgress (str next) = getStatusProgress (str s) + 20) /\
  (forall (i j : nat) current step,
      timeline !! i = Some current ->
      timeline !! j = Some step ->
      getStatusProgress (str current) = 20 * (Z.of_nat i + 1) /\
      stepLabel (str current) step =
        if (j <? i)%nat then Completed
        else if (j =? i)%nat then InProgress else Pending) /\
  (forall current,
      (forall s, current = str s -> ~ In s timeline) ->
      getStatusProgress current = 0 /\
      forall step, In step timeline -> stepLabel current step = Pending).
Proof.
  split; [|split].
  - intros s next H. unfold statusProgression in H. cbn in H.
    repeat (apply lookup_insert_Some in H as [[<- <-]|[_ H]];
            [reflexivity|]).
    now rewrite lookup_empty in H.
  - intros i j current step Hi Hj.
    pose proof (lookup_lt_Some _ _ _ Hi) as Hi'.
    pose proof (lookup_lt_Some _ _ _ Hj) as Hj'.
    cbn in Hi', Hj'.
    destruct i as [|[|[|[|[|i]]]]]; try lia;
      destruct j as [|[|[|[|[|j]]]]]; try lia;
      cbn in Hi, Hj; injection Hi as <-; injection Hj as <-;
      split; reflexivity.
  - intros current Hoff.
    pose proof (getStatusProgress_off_timeline current Hoff) as Hzero.
    split; [exact Hzero|].
    intros step Hstep. unfold stepLabel. rewrite Hzero.
    case_bool_decide as Hcur; [now destruct (Hoff _ Hcur)|].
    pose proof (getStatusProgress_nonneg (str step)).
    destruct (Z.ltb_spec (getStatusProgress (str step)) 0); [lia|reflexivity].
Qed.
